(** * GitBoss: repository discovery, reconciliation and status

    A shallow embedding of the repository scanner
    ([core/repository_scanner.py]), of the start-up merge
    ([main.py], [_collect_repositories]), of the list handling of the main
    window ([ui/main_window.py]) and of the Git wrapper
    ([gitboss/core/git_manager.py]), followed by the properties the
    specification states about them.

    Python exceptions are values of [exn]; a computation that may raise
    returns an [Exc].  The file system and the Git binding are not part of
    the repository: the code is embedded over the two interfaces
    [FileSystem] and [GitCapability], which list exactly the calls the
    source makes, and a small concrete file-system tree ([TreeFS]) and
    concrete Git bindings are used to run the code on examples.  Calls to
    the logger are not modelled. *)

From Stdlib Require Import Ascii.
From stdpp Require Import base numbers list strings gmap sets relations.

Set Warnings "-register-all,-clear-no-such-hyp".

Local Open Scope string_scope.
Local Open Scope Z_scope.
Local Open Scope list_scope.

(** ** Exceptions and results *)

(** The exception classes the modelled code meets.  The first group is
    Python's own, the second is GitPython's. *)
Inductive exn : Type :=
| TypeError
| ValueError
| RuntimeError
| AssertionError
| OSError
| FileNotFoundError
| NotADirectoryError
| PermissionError
| InvalidGitRepositoryError
| NoSuchPathError
| GitCommandError.

Global Instance exn_eq_dec : EqDecision exn.
Proof. solve_decision. Defined.

(** The outcome of a call: a value, a raised exception, or [Diverged] when
    a recursion budget of the model is used up ([_scan] is the only
    function with a budget, and [scan_for_repositories] never exhausts
    it). *)
Inductive Exc (A : Type) : Type :=
| Ok (a : A)
| Raise (e : exn)
| Diverged.

Global Arguments Ok {A} a.
Global Arguments Raise {A} e.
Global Arguments Diverged {A}.

Global Instance Exc_ret : MRet Exc := @Ok.
Global Instance Exc_bind : MBind Exc := λ A B f m,
  match m with
  | Ok a => f a
  | Raise e => Raise e
  | Diverged => Diverged
  end.

(** A computation over a mutable object of type [S] that may raise: the
    object is threaded through, and survives an exception. *)
Definition M (S A : Type) : Type := S → Exc A * S.

Definition ret_M {S A} (a : A) : M S A := λ s, (Ok a, s).
Definition bind_M {S A B} (m : M S A) (k : A → M S B) : M S B := λ s,
  match m s with
  | (Ok a, s') => k a s'
  | (Raise e, s') => (Raise e, s')
  | (Diverged, s') => (Diverged, s')
  end.

(** An effect-free call that may raise, run inside [M]. *)
Definition lift_M {S A} (r : Exc A) : M S A := λ s, (r, s).
Definition modify_M {S} (f : S → S) : M S unit := λ s, (Ok tt, f s).
Definition get_M {S} : M S S := λ s, (Ok s, s).

Global Instance M_ret {S} : MRet (M S) := @ret_M S.
Global Instance M_bind {S} : MBind (M S) := λ A B k m, bind_M m k.

(** Expose the state passing of a computation in [M]. *)
Ltac unfold_M := unfold mbind, M_bind, bind_M, modify_M, lift_M, get_M.

(** [for x in l: body(x)] *)
Fixpoint for_each {S A} (l : list A) (body : A → M S unit) : M S unit :=
  match l with
  | [] => ret_M tt
  | x :: l' => body x;; for_each l' body
  end.

(** [[f(x) for x in l]], left to right, stopping at the first exception. *)
Fixpoint map_Exc {A B} (f : A → Exc B) (l : list A) : Exc (list B) :=
  match l with
  | [] => Ok []
  | x :: l' => y ← f x; ys ← map_Exc f l'; Ok (y :: ys)
  end.

(** ** Paths

    A [pathlib.Path] on POSIX, as pathlib stores it: the root (empty for a
    relative path, one slash, or two slashes) and the components after
    it.  Two paths are equal when both agree, which is pathlib's
    equality and hash on POSIX. *)
Record Path : Type := mkPath { root : string; tail : list string }.

Global Instance Path_eq_dec : EqDecision Path.
Proof. solve_decision. Defined.

Global Instance Path_countable : Countable Path.
Proof.
  refine (inj_countable' (λ p, (root p, tail p)) (λ rt, mkPath rt.1 rt.2) _).
  by intros [].
Defined.

(** [str.split(sep)] for a one-character separator. *)
Fixpoint split_on (sep : ascii) (s : string) : list string :=
  match s with
  | EmptyString => [EmptyString]
  | String c s' =>
      if Ascii.eqb c sep then EmptyString :: split_on sep s'
      else match split_on sep s' with
           | [] => [String c EmptyString]
           | w :: ws => String c w :: ws
           end
  end.

Definition slash : ascii := "/"%char.

(** [posixpath.splitroot]: exactly two leading slashes are kept as a root
    of their own, any other number of them is the root [/]. *)
Definition splitroot (p : string) : string * string :=
  match p with
  | String c1 (String c2 (String c3 r)) =>
      if Ascii.eqb c1 slash then
        if Ascii.eqb c2 slash && negb (Ascii.eqb c3 slash)
        then ("//", String c3 r) else ("/", String c2 (String c3 r))
      else ("", p)
  | String c1 (String c2 EmptyString) =>
      if Ascii.eqb c1 slash then
        if Ascii.eqb c2 slash then ("//", "") else ("/", String c2 "")
      else ("", p)
  | String c1 EmptyString => if Ascii.eqb c1 slash then ("/", "") else ("", p)
  | EmptyString => ("", "")
  end.

(** [Path(s)] for a string [s]: empty components and [.] are dropped,
    [..] is kept. *)
Definition Path_of_str (s : string) : Path :=
  let '(r, rel) := splitroot s in
  mkPath r (filter (λ x, x ≠ "" ∧ x ≠ ".") (split_on slash rel)).

(** [path / name] and the children [iterdir] builds, for a [name] that is
    a single component. *)
Definition joinpath (p : Path) (name : string) : Path :=
  mkPath (root p) (tail p ++ [name]).
Infix "//" := joinpath (at level 40, left associativity).

(** [path.name]: the last component, empty when there is none. *)
Definition name (p : Path) : string := default "" (last (tail p)).

(** [s.startswith(prefix)] *)
Definition startswith (s pre : string) : bool := String.prefix pre s.

(** [q] lies strictly below [p]: it has [p]'s root and properly extends
    [p]'s components. *)
Definition descendant_of (q p : Path) : Prop :=
  root q = root p ∧ ∃ suffix, suffix ≠ [] ∧ tail q = tail p ++ suffix.

(** [str(path)]: the root followed by the components joined with slashes,
    and a single dot for the empty relative path. *)
Definition Path_str (p : Path) : string :=
  match root p, tail p with
  | EmptyString, [] => "."
  | r, t => r +:+ String.concat "/" t
  end.

(** ** The file system, as pathlib shows it

    The four calls the source makes on a [Path].  Each is a function of
    the path: the disk does not change while the modelled code runs.  Each
    may raise ([PermissionError] from [os.listdir] on a directory that
    cannot be read, and so on). *)
Class FileSystem : Type := {
  (** [path.exists()] *)
  Path_exists : Path → Exc bool;
  (** [path.is_dir()], which follows symbolic links *)
  Path_is_dir : Path → Exc bool;
  (** [os.listdir(path)], the names [path.iterdir()] is built from *)
  os_listdir : Path → Exc (list string);
  (** [path.resolve()] *)
  Path_resolve : Path → Exc Path;
}.

(** ** core/repository_scanner.py *)
Section RepositoryScanner.
Context `{FileSystem}.

(** [path.iterdir()]: one child path per name of the listing, in the
    listing's order. *)
Definition Path_iterdir (path : Path) : Exc (list Path) :=
  names ← os_listdir path; Ok (map (joinpath path) names).

Definition is_git_repository (path : Path) : Exc bool :=
  Path_is_dir (path // ".git").

(** The list [repositories] that the nested function [_scan] appends to,
    together with a ghost log [visited] of the directories on which
    [_scan] got past its depth guard (the log is not in the source and
    never read by it). *)
Record ScanState : Type := mkScanState {
  repositories : list Path;
  visited : list Path;
}.

Definition repositories_append (directory : Path) (st : ScanState) : ScanState :=
  mkScanState (repositories st ++ [directory]) (visited st).
Definition note_visit (directory : Path) (st : ScanState) : ScanState :=
  mkScanState (repositories st) (visited st ++ [directory]).

(** The nested function [_scan].  [fuel] bounds the recursion of the
    model; a call with [depth <= max_depth + 1] needs
    [max_depth + 1 - depth] units of it. *)
Fixpoint _scan (max_depth : Z) (fuel : nat) (directory : Path) (depth : Z)
    : M ScanState unit :=
  if depth >? max_depth then mret tt
  else match fuel with
       | O => lift_M Diverged
       | S fuel' =>
           modify_M (note_visit directory);;
           is_repo ← lift_M (is_git_repository directory);
           if (is_repo : bool) then modify_M (repositories_append directory)
           else
             children ← lift_M (Path_iterdir directory);
             for_each children (λ child,
               is_dir ← lift_M (Path_is_dir child);
               if is_dir && negb (startswith (name child) ".")
               then _scan max_depth fuel' child (depth + 1)
               else mret tt)
       end.

Definition default_max_depth : Z := 2.

(** [scan_for_repositories] as a computation on the scan state, started
    on empty lists. *)
Definition scan_for_repositories_M (base_directory : Path) (max_depth : Z)
    : M ScanState (list Path) :=
  found ← lift_M (Path_exists base_directory);
  if negb found then mret []
  else
    base_directory ← lift_M (Path_resolve base_directory);
    _scan max_depth (Z.to_nat (max_depth + 1)) base_directory 0;;
    st ← get_M;
    mret (repositories st).

Definition scan_start : ScanState := mkScanState [] [].

Definition scan_for_repositories (base_directory : Path) (max_depth : Z)
    : Exc (list Path) :=
  (scan_for_repositories_M base_directory max_depth scan_start).1.

(** The directories a call visited (ghost). *)
Definition scan_visited (base_directory : Path) (max_depth : Z) : list Path :=
  visited (scan_for_repositories_M base_directory max_depth scan_start).2.
End RepositoryScanner.

(** ** data/config_manager.py and main.py *)

(** The values a loaded JSON document holds (floating-point numbers
    apart). *)
Inductive pyval : Type :=
| PyNone
| PyBool (b : bool)
| PyInt (z : Z)
| PyStr (s : string)
| PyList (l : list pyval)
| PyDict (items : list (string * pyval)).

Record AppConfig : Type := mkAppConfig {
  base_directory : string;
  auto_fetch_interval : Z;
  default_theme : string;
  last_active_repo : string;
  git_user_name : string;
  git_user_email : string;
  preferences : gmap string pyval;
}.

(** [AppConfig()] *)
Definition AppConfig_default : AppConfig :=
  mkAppConfig "" 15 "dark" "" "" "" ∅.

(** The items a [for] loop over a value yields: the elements of a list,
    the characters of a string (one per character of the strings used
    here, which hold bytes: Python's characters for an ASCII string),
    the keys of a dict; other values are not iterable. *)
Definition py_iter (v : pyval) : Exc (list pyval) :=
  match v with
  | PyList l => Ok l
  | PyStr s => Ok (map (λ c, PyStr (String c "")) (String.list_ascii_of_string s))
  | PyDict items => Ok (map (λ kv, PyStr kv.1) items)
  | PyNone | PyBool _ | PyInt _ => Raise TypeError
  end.

(** [Path(p)]: only a string is accepted. *)
Definition Path_of (p : pyval) : Exc Path :=
  match p with
  | PyStr s => Ok (Path_of_str s)
  | _ => Raise TypeError
  end.

Section Main.
Context `{FileSystem}.

(** One round of the merge loop of [_collect_repositories], on the local
    variables [seen] and [merged]. *)
Definition merge_step (acc : gset Path * list Path) (repo : Path)
    : Exc (gset Path * list Path) :=
  let '(seen, merged) := acc in
  repo ← Path_resolve repo;
  if decide (repo ∉ seen) then Ok (seen ∪ {[repo]}, merged ++ [repo])
  else Ok (seen, merged).

Fixpoint merge_loop (acc : gset Path * list Path) (repos : list Path)
    : Exc (gset Path * list Path) :=
  match repos with
  | [] => Ok acc
  | repo :: repos' => acc' ← merge_step acc repo; merge_loop acc' repos'
  end.

(** Lines 36 to 43 of main.py: the merge of [stored] and [scanned]. *)
Definition merge_repositories (stored scanned : list Path) : Exc (list Path) :=
  acc ← merge_loop (∅, []) (stored ++ scanned); Ok acc.2.

Definition _collect_repositories (config : AppConfig) : Exc (list Path) :=
  entries ← py_iter (default (PyList []) (preferences config !! "repositories"));
  stored ← map_Exc Path_of entries;
  if bool_decide (base_directory config ≠ "") then
    scanned ← scan_for_repositories (Path_of_str (base_directory config))
                                    default_max_depth;
    merge_repositories stored scanned
  else Ok stored.
End Main.

(** ** ui/main_window.py and gitboss/ui/main_window.py: the repository
    list of the main window *)
Record MainWindow : Type := mkMainWindow {
  config : AppConfig;
  repos : list Path;
}.

(** [_persist_repositories], up to the call of [save_config] that ends
    it: the assignment to [preferences["repositories"]].  The write of
    the file may raise [OSError]; it changes neither the window nor the
    configuration in memory, which are as given here either way. *)
Definition _persist_repositories (self : MainWindow) : MainWindow :=
  let c := config self in
  mkMainWindow
    (mkAppConfig (base_directory c) (auto_fetch_interval c) (default_theme c)
       (last_active_repo c) (git_user_name c) (git_user_email c)
       (<["repositories" := PyList (map (λ repo, PyStr (Path_str repo)) (repos self))]>
          (preferences c)))
    (repos self).

(** [_on_add_repo], given the directory the file dialog returned (empty
    when the dialog was cancelled). *)
Definition _on_add_repo (directory : string) (self : MainWindow) : MainWindow :=
  if bool_decide (directory = "") then self
  else
    let path := Path_of_str directory in
    if bool_decide (path ∉ repos self)
    then _persist_repositories (mkMainWindow (config self) (repos self ++ [path]))
    else self.

(** [list(dict.fromkeys(keys))]: a dict keeps its keys in the order in
    which they were first inserted. *)
Definition dict_fromkeys (keys : list Path) : list Path :=
  foldl (λ d key, if decide (key ∈ d) then d else d ++ [key]) [] keys.

Section Rescan.
Context `{FileSystem}.

(** [_on_rescan_repositories] of gitboss/ui/main_window.py, up to the
    write of the file as in [_persist_repositories]: the outcome is
    that of the scan. *)
Definition _on_rescan_repositories : M MainWindow unit := λ self,
  if bool_decide (base_directory (config self) = "") then (Ok tt, self)
  else
    match scan_for_repositories (Path_of_str (base_directory (config self)))
            default_max_depth with
    | Ok scanned =>
        let merged := dict_fromkeys (repos self ++ scanned) in
        (Ok tt, _persist_repositories (mkMainWindow (config self) merged))
    | Raise e => (Raise e, self)
    | Diverged => (Diverged, self)
    end.
End Rescan.

(** ** gitboss/core/git_manager.py *)

(** [try: body except caught: handler], for a handler that does not use
    the exception. *)
Definition try_except {A} (body : Exc A) (caught : exn) (handler : Exc A) : Exc A :=
  match body with
  | Raise e => if decide (e = caught) then handler else Raise e
  | r => r
  end.

(** The calls the wrapper makes on GitPython.  Each returns a value or
    raises. *)
Class GitCapability : Type := {
  Repo : Type;
  (** [Repo(path)] *)
  Repo_new : Path → Exc Repo;
  (** [repo.is_dirty(untracked_files=...)] *)
  Repo_is_dirty : Repo → bool → Exc bool;
  (** [[branch.name for branch in repo.branches]] *)
  Repo_branches : Repo → Exc (list string);
  (** [repo.active_branch.name] *)
  Repo_active_branch : Repo → Exc string;
  (** [repo.git.status(porcelain=True)] *)
  Repo_git_status : Repo → Exc string;
}.

Section GitManager.
Context `{GitCapability}.
(** [str.splitlines], a builtin taken as given. *)
Variable splitlines : string → list string.

Record GitManager : Type := mkGitManager {
  repo_path : Path;
  repo : option Repo;
}.

(** [GitManager(repo_path)] *)
Definition GitManager_init (repo_path : Path) : GitManager :=
  mkGitManager repo_path None.

Definition load : M GitManager unit := λ self,
  match try_except (Repo_new (repo_path self)) InvalidGitRepositoryError
          (Raise ValueError) with
  | Ok r => (Ok tt, mkGitManager (repo_path self) (Some r))
  | Raise e => (Raise e, self)
  | Diverged => (Diverged, self)
  end.

(** The three lines every query starts with:
    [if not self.repo: self.load()] and [assert self.repo is not None]. *)
Definition loaded_repo : M GitManager Repo :=
  self ← get_M;
  (if repo self is None then load else mret tt);;
  self ← get_M;
  match repo self with
  | Some r => mret r
  | None => lift_M (Raise AssertionError)
  end.

Definition is_dirty : M GitManager bool :=
  r ← loaded_repo; lift_M (Repo_is_dirty r true).

Definition list_branches : M GitManager (list string) :=
  r ← loaded_repo; lift_M (Repo_branches r).

Definition current_branch : M GitManager string :=
  r ← loaded_repo; lift_M (Repo_active_branch r).

Definition list_status : M GitManager (list string) :=
  r ← loaded_repo;
  lift_M (try_except (out ← Repo_git_status r; Ok (splitlines out))
            GitCommandError (Ok [])).

(** What the dashboard shows for a repository. *)
Record StatusSnapshot : Type := mkStatusSnapshot {
  dirty : bool;
  branches : list string;
  status_lines : list string;
}.

(** The status query of [MainWindow._on_repo_selected]: the body of its
    [try], on a fresh manager. *)
Definition status_query (path : Path) : Exc StatusSnapshot * GitManager :=
  (dirty ← is_dirty;
   branches ← list_branches;
   status_lines ← list_status;
   mret (mkStatusSnapshot dirty branches status_lines)) (GitManager_init path).
End GitManager.

(** ** Vocabulary of the specification *)

(** "Filter to first occurrence of each canonical path, preserving the
    order of first occurrence": an entry is kept exactly when it does not
    occur among the entries before it ([first_occurrences]); more
    generally, when it occurs neither among them nor in a list [before] of
    entries already seen. *)
Definition first_occurrences_after (before l : list Path) : list Path :=
  omap (λ ix : nat * Path,
          if decide (ix.2 ∈ before ++ take ix.1 l) then None else Some ix.2)
       (imap pair l).

Definition first_occurrences (l : list Path) : list Path :=
  first_occurrences_after [] l.

Section Reachability.
Context `{FileSystem}.

(** [c] is a child that a visit of [p] descends into: [p] is not a
    repository, [c] is one of its entries, a directory, and its name
    does not start with a dot. *)
Definition scan_child (p c : Path) : Prop :=
  is_git_repository p = Ok false ∧
  ∃ names n, os_listdir p = Ok names ∧ n ∈ names ∧ c = p // n ∧
             Path_is_dir c = Ok true ∧ startswith n "." = false.

(** [p] is reachable from [base] at depth [d]: through [d] such steps,
    so through ancestors that are neither hidden nor repositories. *)
Definition reaches (base : Path) (d : nat) (p : Path) : Prop :=
  nsteps scan_child d base p.

(** None of the calls a visit of [p] makes raises. *)
Definition undisturbed (p : Path) : Prop :=
  ∃ is_repo, is_git_repository p = Ok is_repo ∧
    (is_repo = false →
     ∃ names, os_listdir p = Ok names ∧
              ∀ n, n ∈ names → ∃ b, Path_is_dir (p // n) = Ok b).

(** The effect of a scan, or of a part of one, on the scan state: it
    appends to both lists, visits only directories satisfying [within],
    and records exactly the visited directories that are
    repositories. *)
Definition scan_extends (within : Path → Prop) (st st' : ScanState) : Prop :=
  ∃ vs rs,
    visited st' = visited st ++ vs ∧
    repositories st' = repositories st ++ rs ∧
    Forall within vs ∧
    ∀ p, p ∈ rs ↔ p ∈ vs ∧ is_git_repository p = Ok true.
End Reachability.

(** ** A concrete disk

    A finite POSIX tree on which the code can be run: regular files,
    directories with a read-permission bit (search permission is always
    granted) and symbolic links with absolute targets.  It implements
    [FileSystem] the way pathlib answers on such a disk. *)
Module TreeFS.

Inductive node : Type :=
| File
| Dir (readable : bool) (entries : list (string * node))
| Link (target : list string).

Fixpoint find_entry (n : string) (entries : list (string * node)) : option node :=
  match entries with
  | [] => None
  | (n', nd) :: entries' => if decide (n = n') then Some nd else find_entry n entries'
  end.

(** [lstat]: the node a chain of components leads to, without following
    links. *)
Fixpoint descend (nd : node) (comps : list string) : option node :=
  match comps with
  | [] => Some nd
  | c :: comps' =>
      match nd with
      | Dir _ entries =>
          match find_entry c entries with
          | Some nd' => descend nd' comps'
          | None => None
          end
      | _ => None
      end
  end.

Section Disk.
(** The root directory and the working directory of the process. *)
Variable disk : node.
Variable cwd : list string.

(** [os.path.realpath], not strict: [done] is the resolved prefix,
    [rest] what is left to walk.  A missing component is kept as it
    is, [..] drops the last resolved component, a link restarts the
    walk at its target; after [hops] links the rest is left
    unresolved. *)
Fixpoint realpath (hops : nat) : list string → list string → list string :=
  fix walk (done rest : list string) : list string :=
    match rest with
    | [] => done
    | c :: rest' =>
        if decide (c = "..") then walk (removelast done) rest'
        else match descend disk (done ++ [c]) with
             | Some (Link target) =>
                 match hops with
                 | O => done ++ c :: rest'
                 | S hops' => realpath hops' [] (target ++ rest')
                 end
             | _ => walk (done ++ [c]) rest'
             end
    end.

Definition max_links : nat := 40.

Definition absolute (p : Path) : list string :=
  if decide (root p = "") then cwd ++ tail p else tail p.

(** [stat], which follows links. *)
Definition stat (p : Path) : option node :=
  match descend disk (realpath max_links [] (absolute p)) with
  | Some (Link _) => None
  | r => r
  end.

Definition exists_ (p : Path) : Exc bool := Ok (bool_decide (is_Some (stat p))).

Definition is_dir (p : Path) : Exc bool :=
  Ok (if stat p is Some (Dir _ _) then true else false).

Definition listdir (p : Path) : Exc (list string) :=
  match stat p with
  | Some (Dir true entries) => Ok (map fst entries)
  | Some (Dir false _) => Raise PermissionError
  | Some _ => Raise NotADirectoryError
  | None => Raise FileNotFoundError
  end.

Definition resolve (p : Path) : Exc Path :=
  Ok (mkPath "/" (realpath max_links [] (absolute p))).

Definition fs : FileSystem :=
  {| Path_exists := exists_; Path_is_dir := is_dir;
     os_listdir := listdir; Path_resolve := resolve |}.
End Disk.

(** Every directory of the tree can be read. *)
Fixpoint all_readable (nd : node) : bool :=
  match nd with
  | Dir readable entries =>
      readable && forallb (λ entry, all_readable entry.2) entries
  | _ => true
  end.

(** A working tree: a directory holding a [.git] directory and the
    given other entries. *)
Definition worktree (entries : list (string * node)) : node :=
  Dir true ((".git", Dir true [("HEAD", File)]) :: entries).

End TreeFS.

(** ** Concrete Git bindings

    What GitPython answers on a disk: [Repo(path)] raises
    [NoSuchPathError] for a path that does not exist and
    [InvalidGitRepositoryError] for one without a [.git] directory; the
    state of each opened repository is given by a table of answers. *)
Record repo_facts : Type := mkRepoFacts {
  facts_dirty : Exc bool;
  facts_branches : Exc (list string);
  facts_active_branch : Exc string;
  facts_status : Exc string;
}.

Definition git_on (disk : TreeFS.node) (facts : Path → repo_facts) : GitCapability :=
  {| Repo := Path;
     Repo_new := λ path,
       match TreeFS.stat disk [] path with
       | None => Raise NoSuchPathError
       | Some _ =>
           if TreeFS.stat disk [] (path // ".git") is Some (TreeFS.Dir _ _)
           then Ok path else Raise InvalidGitRepositoryError
       end;
     Repo_is_dirty := λ r _, facts_dirty (facts r);
     Repo_branches := λ r, facts_branches (facts r);
     Repo_active_branch := λ r, facts_active_branch (facts r);
     Repo_git_status := λ r, facts_status (facts r) |}.

(** A line splitter for the examples: one line per newline character. *)
Definition lines_of (s : string) : list string :=
  if decide (s = "") then [] else split_on "010"%char s.

(** ** Example disks and configurations *)
Module Examples.
Import TreeFS.

(** [/srv/base] holds the repository [a] (with a nested working tree
    [a/sub]), the repository [x/b] at depth 2, the repository [c/d/e] at
    depth 3, a hidden directory with a repository in it, a repository
    [.stash] whose own name starts with a dot, a link to [a/sub] and a
    file. *)
Definition tidy_disk : node :=
  Dir true [("srv", Dir true [("base", Dir true
    [("a", worktree [("sub", worktree [])]);
     ("x", Dir true [("b", worktree []); ("notes.txt", File)]);
     ("c", Dir true [("d", Dir true [("e", worktree [])])]);
     (".hidden", Dir true [("h", worktree [])]);
     (".stash", worktree []);
     ("link", Link ["srv"; "base"; "a"; "sub"]);
     ("README", File)]);
    (".dotfiles", worktree [("vim", Dir true [])])])].

(** [/srv/base] holds a directory that cannot be listed between two
    repositories. *)
Definition locked_disk : node :=
  Dir true [("srv", Dir true [("base", Dir true
    [("a", worktree []);
     ("locked", Dir false [("b", worktree [])]);
     ("z", worktree [])])])].

(** The layouts the tests of the repository build under their temporary
    directories, next to [/tmp/example], which does not exist. *)
Definition tests_disk : node :=
  Dir true [("tmp", Dir true
    [("scanner", Dir true
       [("repo_a", worktree []);
        ("nested", Dir true [("repo_nested", worktree [])]);
        ("not_a_repo", Dir true [])]);
     ("collect", Dir true [("stored", worktree []); ("scanned", worktree [])])])].

(** A disk on which [/tmp] is a link to [/private/tmp]. *)
Definition linked_tmp_disk : node :=
  Dir true [("private", Dir true [("tmp", Dir true [])]);
            ("tmp", Link ["private"; "tmp"])].

Definition tidy : FileSystem := fs tidy_disk [].
Definition locked : FileSystem := fs locked_disk [].
Definition tests : FileSystem := fs tests_disk [].
Definition linked_tmp : FileSystem := fs linked_tmp_disk [].

Definition base : Path := Path_of_str "/srv/base".
Definition repo_a : Path := Path_of_str "/srv/base/a".
Definition repo_sub : Path := Path_of_str "/srv/base/a/sub".
Definition repo_b : Path := Path_of_str "/srv/base/x/b".
Definition repo_link : Path := Path_of_str "/srv/base/link".
Definition dotfiles : Path := Path_of_str "/srv/.dotfiles".
Definition gone : Path := Path_of_str "/gone".

Definition config_with (base : string) (entries : list pyval) : AppConfig :=
  mkAppConfig base 15 "dark" "" "" "" {["repositories" := PyList entries]}.

(** A repository on a branch, and one with a detached [HEAD], for which
    GitPython's [active_branch] raises [TypeError]. *)
Definition on_main : repo_facts :=
  mkRepoFacts (Ok false) (Ok ["main"]) (Ok "main") (Ok "").
Definition detached : repo_facts :=
  mkRepoFacts (Ok false) (Ok ["main"]) (Raise TypeError) (Ok "").
Definition broken_status : repo_facts :=
  mkRepoFacts (Ok true) (Ok ["main"]) (Ok "main") (Raise GitCommandError).

Definition tidy_git (facts : repo_facts) : GitCapability :=
  git_on tidy_disk (λ _, facts).
End Examples.

(** * Further parts of the program

    The rest of the list handling of the main window, the configuration
    file ([data/config_manager.py]), the remote operations of the Git
    wrapper, the logging set-up ([gitboss/core/logger.py]) and the GitHub
    wrapper ([gitboss/core/github_manager.py]). *)

(** ** Paths as [Path(...)] builds them *)

(** [c in s] for a character [c]. *)
Fixpoint has_char (c : ascii) (s : string) : bool :=
  match s with
  | EmptyString => false
  | String c' s' => Ascii.eqb c' c || has_char c s'
  end.

(** A component as pathlib keeps it: not empty, not a single dot, and
    without a slash. *)
Definition component (c : string) : Prop :=
  c ≠ "" ∧ c ≠ "." ∧ has_char slash c = false.

(** A path as pathlib holds it on POSIX: one of the three roots, followed
    by components. *)
Definition parsed (p : Path) : Prop :=
  root p ∈ [""; "/"; "//"] ∧ Forall component (tail p).

(** [v] is [c] or lies below it. *)
Definition under (c v : Path) : Prop :=
  root v = root c ∧ tail c `prefix_of` tail v.

(** [x] occurs before [y] in [l]. *)
Definition precedes {A} (l : list A) (x y : A) : Prop :=
  ∃ l1 l2 l3, l = l1 ++ x :: l2 ++ y :: l3.

Section ListingOrder.
Context `{FileSystem}.

(** Among the paths [vs], those under different entries of one
    directory below [d] come in the order of its listing. *)
Definition listing_ordered (d : Path) (vs : list Path) : Prop :=
  ∀ p names n1 n2 v1 v2,
    under d p → os_listdir p = Ok names → precedes names n1 n2 →
    v1 ∈ vs → v2 ∈ vs → under (p // n1) v1 → under (p // n2) v2 →
    precedes vs v1 v2.
End ListingOrder.

(** ** gitboss/ui/main_window.py: removing a repository *)

(** [l.remove(x)]: the first item equal to [x] is dropped; [ValueError]
    when there is none. *)
Fixpoint list_remove (x : Path) (l : list Path) : Exc (list Path) :=
  match l with
  | [] => Raise ValueError
  | y :: l' =>
      if decide (y = x) then Ok l'
      else l'' ← list_remove x l'; Ok (y :: l'')
  end.

(** [_on_remove_repo], given the data of the current item of the list
    widget ([None] when no item is current), up to the write of the file
    as in [_persist_repositories].  [populate] gives every item the
    string of the path it shows as its data. *)
Definition _on_remove_repo (current_item : option string) : M MainWindow unit := λ self,
  match current_item with
  | None => (Ok tt, self)
  | Some data =>
      let repo_path := Path_of_str data in
      if bool_decide (repo_path ∈ repos self) then
        match list_remove repo_path (repos self) with
        | Ok repos' =>
            (Ok tt, _persist_repositories (mkMainWindow (config self) repos'))
        | Raise e => (Raise e, self)
        | Diverged => (Diverged, self)
        end
      else (Ok tt, self)
  end.

(** The data [populate] gives the items of the list widget. *)
Definition populate (repos : list Path) : list string := map Path_str repos.

(** The list [preferences["repositories"]] that [_persist_repositories]
    writes for a list of paths. *)
Definition persisted_entries (repos : list Path) : pyval :=
  PyList (map (λ repo, PyStr (Path_str repo)) repos).

(** The configuration holds the list the window shows. *)
Definition persisted (self : MainWindow) : Prop :=
  preferences (config self) !! "repositories" = Some (persisted_entries (repos self)).

Section Window.
Context `{FileSystem}.

(** One action of the user on the repository list: adding the directory
    a dialog returned, removing the current item, or a rescan (which may
    raise). *)
Inductive window_step : MainWindow → MainWindow → Prop :=
| step_add directory self :
    window_step self (_on_add_repo directory self)
| step_remove current_item self :
    window_step self (_on_remove_repo current_item self).2
| step_rescan self :
    window_step self (_on_rescan_repositories self).2.
End Window.

(** ** data/config_manager.py *)

(** An [AppConfig] as Python holds it.  [from_dict] converts
    [auto_fetch_interval] with [int] and takes every other field from the
    document as it is, whatever its type. *)
Record AppConfigFields : Type := mkAppConfigFields {
  field_base_directory : pyval;
  field_auto_fetch_interval : Z;
  field_default_theme : pyval;
  field_last_active_repo : pyval;
  field_git_user_name : pyval;
  field_git_user_email : pyval;
  field_preferences : pyval;
}.

(** The fields of a configuration whose fields have their declared
    types. *)
Definition AppConfig_fields (c : AppConfig) : AppConfigFields :=
  mkAppConfigFields
    (PyStr (base_directory c)) (auto_fetch_interval c) (PyStr (default_theme c))
    (PyStr (last_active_repo c)) (PyStr (git_user_name c))
    (PyStr (git_user_email c)) (PyDict (map_to_list (preferences c))).

(** The configuration with the given fields, when they have their
    declared types. *)
Definition AppConfig_typed (f : AppConfigFields) : option AppConfig :=
  match field_base_directory f, field_default_theme f, field_last_active_repo f,
        field_git_user_name f, field_git_user_email f, field_preferences f with
  | PyStr b, PyStr t, PyStr l, PyStr n, PyStr e, PyDict items =>
      Some (mkAppConfig b (field_auto_fetch_interval f) t l n e (list_to_map items))
  | _, _, _, _, _, _ => None
  end.

Section ConfigManager.
(** [int(s)] for a string [s], a builtin taken as given: [None] when
    [s] is not an integer literal. *)
Variable int_of_str : string → option Z.

(** [int(v)] *)
Definition py_int (v : pyval) : Exc Z :=
  match v with
  | PyInt z => Ok z
  | PyBool b => Ok (if b then 1 else 0)
  | PyStr s => if int_of_str s is Some z then Ok z else Raise ValueError
  | PyNone | PyList _ | PyDict _ => Raise TypeError
  end.

(** [AppConfig.to_dict] *)
Definition to_dict (self : AppConfigFields) : gmap string pyval :=
  <["base_directory" := field_base_directory self]>
  (<["auto_fetch_interval" := PyInt (field_auto_fetch_interval self)]>
  (<["default_theme" := field_default_theme self]>
  (<["last_active_repo" := field_last_active_repo self]>
  (<["git_user_name" := field_git_user_name self]>
  (<["git_user_email" := field_git_user_email self]>
  (<["preferences" := field_preferences self]> ∅)))))).

(** [data.get(key, default)] *)
Definition dict_get (data : gmap string pyval) (key : string) (default_ : pyval) : pyval :=
  default default_ (data !! key).

(** [AppConfig.from_dict] *)
Definition from_dict (data : gmap string pyval) : Exc AppConfigFields :=
  let base_directory := dict_get data "base_directory" (PyStr "") in
  auto_fetch_interval ← py_int (dict_get data "auto_fetch_interval" (PyInt 15));
  Ok (mkAppConfigFields
        base_directory
        auto_fetch_interval
        (dict_get data "default_theme" (PyStr "dark"))
        (dict_get data "last_active_repo" (PyStr ""))
        (dict_get data "git_user_name" (PyStr ""))
        (dict_get data "git_user_email" (PyStr ""))
        (dict_get data "preferences" (PyDict []))).

(** What reading a file of the configuration directory gives: the JSON
    object [json.load] returns, or a failure of [open] or of
    [json.load] with [OSError] or [json.JSONDecodeError] on a file with
    the given text.  Two kinds of file are outside the model: one whose
    bytes are not UTF-8, and one holding a JSON document that is not an
    object (on these [load_config] raises [UnicodeDecodeError] and
    [AttributeError]). *)
Inductive file_reading : Type :=
| Document (data : gmap string pyval)
| Rejected (text : string).

(** The configuration directory, which [ensure_config_directory] can
    create: [config.json], [config.corrupted], and whether renaming the
    first to the second fails with [OSError]. *)
Record ConfigDir : Type := mkConfigDir {
  CONFIG_FILE : option file_reading;
  corrupted_path : option file_reading;
  rename_fails : bool;
}.

(** [CONFIG_FILE.rename(corrupted_path)], which replaces an existing
    [corrupted_path]. *)
Definition rename_config (dir : ConfigDir) : Exc unit * ConfigDir :=
  if rename_fails dir then (Raise OSError, dir)
  else (Ok tt, mkConfigDir None (CONFIG_FILE dir) (rename_fails dir)).

Definition load_config : M ConfigDir AppConfigFields := λ dir,
  match CONFIG_FILE dir with
  | None => (Ok (AppConfig_fields AppConfig_default), dir)
  | Some (Rejected _) =>
      let '(_, dir') := rename_config dir in
      (Ok (AppConfig_fields AppConfig_default), dir')
  | Some (Document data) => (from_dict data, dir)
  end.
End ConfigManager.

(** ** gitboss/core/git_manager.py: the remote operations *)

(** The calls [pull], [fetch] and [push] make on GitPython.  The lists
    hold the [str] of each item GitPython returns. *)
Class GitRemotes `{GitCapability} : Type := {
  Remote : Type;
  (** [repo.remote(name)] *)
  Repo_remote : Repo → string → Exc Remote;
  (** [remote.pull(branch)] *)
  Remote_pull : Remote → string → Exc (list string);
  (** [remote.fetch()] *)
  Remote_fetch : Remote → Exc (list string);
  (** [remote.push(branch)] *)
  Remote_push : Remote → string → Exc (list string);
}.

Section GitManagerRemotes.
Context `{GitRemotes}.

(** ["\n".join(lines)] *)
Definition join_lines (lines : list string) : string :=
  String.concat (String "010"%char "") lines.

(** [branch or self.current_branch()]: an omitted or empty branch name
    stands for the current branch. *)
Definition branch_or_current (branch : option string) : M GitManager string :=
  match branch with
  | Some b => if bool_decide (b = "") then current_branch else mret b
  | None => current_branch
  end.

Definition pull (remote_name : string) (branch : option string) : M GitManager string :=
  r ← loaded_repo;
  remote ← lift_M (Repo_remote r remote_name);
  branch ← branch_or_current branch;
  result ← lift_M (Remote_pull remote branch);
  mret (join_lines result).

Definition fetch (remote_name : string) : M GitManager string :=
  r ← loaded_repo;
  remote ← lift_M (Repo_remote r remote_name);
  result ← lift_M (Remote_fetch remote);
  mret (join_lines result).

Definition push (remote_name : string) (branch : option string) : M GitManager string :=
  r ← loaded_repo;
  branch ← branch_or_current branch;
  remote ← lift_M (Repo_remote r remote_name);
  result ← lift_M (Remote_push remote branch);
  mret (join_lines result).
End GitManagerRemotes.

(** ** gitboss/core/logger.py *)

(** A logging handler.  Python compares handlers by identity, which
    [handler_id] stands for; [formatter] holds the format and the date
    format of the handler's formatter, when one is set. *)
Record Handler : Type := mkHandler {
  handler_id : nat;
  formatter : option (string * string);
}.

(** The root logger. *)
Record Logger : Type := mkLogger {
  level : Z;
  handlers : list Handler;
}.

(** [hdlr in self.handlers] *)
Definition has_handler (hdlr : Handler) (l : list Handler) : bool :=
  bool_decide (handler_id hdlr ∈ map handler_id l).

(** [self.handlers.remove(hdlr)], for a handler that is in the list. *)
Fixpoint handlers_remove (hdlr : Handler) (l : list Handler) : list Handler :=
  match l with
  | [] => []
  | h :: l' =>
      if decide (handler_id h = handler_id hdlr) then l' else h :: handlers_remove hdlr l'
  end.

(** [Logger.removeHandler] *)
Definition removeHandler (hdlr : Handler) (self : Logger) : Logger :=
  if has_handler hdlr (handlers self)
  then mkLogger (level self) (handlers_remove hdlr (handlers self))
  else self.

(** [Logger.addHandler] *)
Definition addHandler (hdlr : Handler) (self : Logger) : Logger :=
  if has_handler hdlr (handlers self) then self
  else mkLogger (level self) (handlers self ++ [hdlr]).

(** [Logger.setLevel], for a numeric level. *)
Definition setLevel (level : Z) (self : Logger) : Logger :=
  mkLogger level (handlers self).

(** [Handler.setFormatter] *)
Definition setFormatter (fmt : string * string) (self : Handler) : Handler :=
  mkHandler (handler_id self) (Some fmt).

Section Logging.
(** [LOG_DIR.mkdir(parents=True, exist_ok=True)] and
    [RotatingFileHandler(LOG_FILE, ...)], which may raise [OSError]. *)
Variable LOG_DIR_mkdir : Exc unit.
Variable RotatingFileHandler : Exc Handler.

Definition _ensure_log_directory : Exc unit := LOG_DIR_mkdir.

Definition log_format : string * string :=
  ("[%(asctime)s] [%(levelname)s] [%(name)s] %(message)s", "%Y-%m-%d %H:%M:%S").

(** [configure_logging], on the root logger. *)
Definition configure_logging (level : Z) (handler : option Handler) : M Logger unit :=
  lift_M _ensure_log_directory;;
  modify_M (setLevel level);;
  root_logger ← get_M;
  for_each (handlers root_logger) (λ existing_handler,
    modify_M (removeHandler existing_handler));;
  handler ← match handler with
            | Some handler => mret handler
            | None => lift_M RotatingFileHandler
            end;
  modify_M (addHandler (setFormatter log_format handler)).
End Logging.

(** ** core/github_manager.py and gitboss/core/github_manager.py *)

(** The calls the wrapper makes on PyGithub.  [Github(token)] only
    stores the token; every other call may raise. *)
Class GithubCapability : Type := {
  Github : Type;
  Repository : Type;
  WorkflowRun : Type;
  (** [Github(token)] *)
  Github_new : string → Github;
  (** [[repo.full_name for repo in client.get_user().get_repos()]] *)
  Github_repos : Github → Exc (list string);
  (** [client.get_repo(full_name)] *)
  Github_get_repo : Github → string → Exc Repository;
  (** [repository.get_workflow_run(run_id)] *)
  Repository_get_workflow_run : Repository → Z → Exc WorkflowRun;
  (** [run.rerun()], [run.cancel()] and [run.logs_url()] *)
  WorkflowRun_rerun : WorkflowRun → Exc bool;
  WorkflowRun_cancel : WorkflowRun → Exc bool;
  WorkflowRun_logs_url : WorkflowRun → Exc string;
}.

Section GitHubManager.
Context `{GithubCapability}.

Record GitHubManager : Type := mkGitHubManager {
  token : option string;
  client : option Github;
}.

(** [GitHubManager(token)] *)
Definition GitHubManager_init (token : option string) : GitHubManager :=
  mkGitHubManager token None.

(** [a or b] on optional strings: [None] and the empty string are
    false. *)
Definition str_or (a b : option string) : option string :=
  match a with
  | Some s => if decide (s = "") then b else a
  | None => b
  end.

Definition authenticate (given : option string) : M GitHubManager unit := λ self,
  let self := mkGitHubManager (str_or given (token self)) (client self) in
  match token self with
  | Some t =>
      if decide (t = "") then (Raise ValueError, self)
      else (Ok tt, mkGitHubManager (token self) (Some (Github_new t)))
  | None => (Raise ValueError, self)
  end.

Definition _require_client (self : GitHubManager) : Exc Github :=
  match client self with
  | Some c => Ok c
  | None => Raise RuntimeError
  end.

(** The handlers of [GithubException] in the methods below log the
    error and raise it again, so every error passes through. *)
Definition _get_repository (full_name : string) (self : GitHubManager)
    : Exc Repository :=
  c ← _require_client self; Github_get_repo c full_name.

Definition list_repositories (self : GitHubManager) : Exc (list string) :=
  c ← _require_client self; Github_repos c.

Definition rerun_workflow (repository : string) (run_id : Z) (self : GitHubManager)
    : Exc bool :=
  r ← _get_repository repository self;
  run ← Repository_get_workflow_run r run_id;
  WorkflowRun_rerun run.

Definition cancel_workflow (repository : string) (run_id : Z) (self : GitHubManager)
    : Exc bool :=
  r ← _get_repository repository self;
  run ← Repository_get_workflow_run r run_id;
  WorkflowRun_cancel run.

Definition get_workflow_logs_url (repository : string) (run_id : Z)
    (self : GitHubManager) : Exc string :=
  r ← _get_repository repository self;
  run ← Repository_get_workflow_run r run_id;
  WorkflowRun_logs_url run.

(** One call of [authenticate], whatever its outcome. *)
Inductive authenticate_step : GitHubManager → GitHubManager → Prop :=
| step_authenticate given self :
    authenticate_step self (authenticate given self).2.
End GitHubManager.

(** ** More fixtures *)

(** No directory of the tree lists a name twice. *)
Fixpoint distinct_names (nd : TreeFS.node) : bool :=
  match nd with
  | TreeFS.Dir _ entries =>
      bool_decide (NoDup (map fst entries)) &&
      forallb (λ entry, distinct_names entry.2) entries
  | _ => true
  end.

(** Remotes for the concrete Git bindings: every repository has the one
    remote [origin], and each operation reports one line. *)
Definition remotes_on (disk : TreeFS.node) (facts : Path → repo_facts)
    : @GitRemotes (git_on disk facts) :=
  {| Remote := string;
     Repo_remote := λ _ remote_name,
       if decide (remote_name = "origin") then Ok remote_name else Raise ValueError;
     Remote_pull := λ remote branch, Ok [remote +:+ "/" +:+ branch];
     Remote_fetch := λ remote, Ok [remote];
     Remote_push := λ remote branch, Ok [branch] |}.

(** A GitHub on which the account of every token owns one repository
    and no repository can be opened. *)
Definition github_stub : GithubCapability :=
  {| Github := string;
     Repository := string;
     WorkflowRun := Z;
     Github_new := λ token, token;
     Github_repos := λ client, Ok ["octocat/" +:+ client];
     Github_get_repo := λ _ _, Raise OSError;
     Repository_get_workflow_run := λ _ run_id, Ok run_id;
     WorkflowRun_rerun := λ _, Ok true;
     WorkflowRun_cancel := λ _, Ok true;
     WorkflowRun_logs_url := λ _, Ok "" |}.

Module MoreExamples.
Import Examples.

(** The main window on [/srv/base] of the tidy disk, showing one
    repository below the base and one outside of it. *)
Definition window : MainWindow :=
  mkMainWindow (config_with "/srv/base" [PyStr "/srv/base/a"; PyStr "/srv/.dotfiles"])
    [repo_a; dotfiles].

(** A window without a base directory. *)
Definition window_no_base : MainWindow :=
  mkMainWindow (config_with "" [PyStr "/srv/base/a"; PyStr "/srv/.dotfiles"])
    [repo_a; dotfiles].

(** An [int] for the examples, which convert no string. *)
Definition no_int_of_str (s : string) : option Z := None.

(** [/srv/base] holds a repository and a link to [/srv/base]
    itself. *)
Definition looped_disk : TreeFS.node :=
  TreeFS.Dir true [("srv", TreeFS.Dir true [("base", TreeFS.Dir true
    [("a", TreeFS.worktree []);
     ("again", TreeFS.Link ["srv"; "base"])])])].

Definition looped : FileSystem := TreeFS.fs looped_disk [].

(** A configuration directory whose [config.json] cannot be parsed. *)
Definition broken_dir : ConfigDir :=
  mkConfigDir (Some (Rejected "{not-json")) None false.

(** The root logger with two handlers. *)
Definition busy_logger : Logger :=
  mkLogger 30 [mkHandler 1 None; mkHandler 2 (Some ("%(message)s", ""))].
End MoreExamples.

(** * Properties *)

(** ** The first-occurrence filter *)

Lemma omap_imap_ext {A B C} (g h : B → option C) (f f' : nat → A → B) (l : list A) :
  (∀ i y, l !! i = Some y → g (f i y) = h (f' i y)) →
  omap g (imap f l) = omap h (imap f' l).
Proof.
  revert f f'. induction l as [|x l IH]; intros f f' Hfg; [done|].
  cbn [imap omap list_omap]. rewrite (Hfg 0%nat x eq_refl).
  rewrite (IH (f ∘ S) (f' ∘ S)); [done|].
  intros i y Hi. apply (Hfg (S i) y Hi).
Qed.

Lemma first_occurrences_after_nil before : first_occurrences_after before [] = [].
Proof. done. Qed.

Lemma first_occurrences_after_cons before x l :
  first_occurrences_after before (x :: l) =
  (if decide (x ∈ before) then [] else [x]) ++ first_occurrences_after (before ++ [x]) l.
Proof.
  unfold first_occurrences_after. cbn [imap omap list_omap fst snd take].
  rewrite app_nil_r.
  rewrite (omap_imap_ext _
    (λ ix : nat * Path, if decide (ix.2 ∈ (before ++ [x]) ++ take ix.1 l) then None else Some ix.2)
    (pair ∘ S) pair l).
  - by destruct (decide (x ∈ before)).
  - intros i y _. cbn. by rewrite <- app_assoc.
Qed.

Lemma first_occurrences_after_ext before before' l :
  (∀ q, q ∈ before ↔ q ∈ before') →
  first_occurrences_after before l = first_occurrences_after before' l.
Proof.
  revert before before'. induction l as [|x l IH]; intros b b' Hb; [done|].
  rewrite !first_occurrences_after_cons.
  rewrite (IH (b ++ [x]) (b' ++ [x])).
  - destruct (decide (x ∈ b)), (decide (x ∈ b')); naive_solver.
  - intros q. rewrite !elem_of_app. naive_solver.
Qed.

Lemma elem_of_first_occurrences_after before l q :
  q ∈ first_occurrences_after before l ↔ q ∈ l ∧ q ∉ before.
Proof.
  revert before. induction l as [|x l IH]; intros b.
  - rewrite first_occurrences_after_nil. set_solver.
  - rewrite first_occurrences_after_cons, elem_of_app, IH, elem_of_cons, elem_of_app.
    destruct (decide (x ∈ b)); [|destruct (decide (q = x))]; set_solver.
Qed.

Lemma NoDup_first_occurrences_after before l : NoDup (first_occurrences_after before l).
Proof.
  revert before. induction l as [|x l IH]; intros b.
  - constructor.
  - rewrite first_occurrences_after_cons. destruct (decide (x ∈ b)); [apply IH|].
    cbn. constructor; [|apply IH].
    rewrite elem_of_first_occurrences_after. set_solver.
Qed.

Lemma first_occurrences_after_app before l1 l2 :
  first_occurrences_after before (l1 ++ l2) =
  first_occurrences_after before l1 ++ first_occurrences_after (before ++ l1) l2.
Proof.
  revert before. induction l1 as [|x l1 IH]; intros b.
  - by rewrite first_occurrences_after_nil, app_nil_r.
  - rewrite <- app_comm_cons, !first_occurrences_after_cons, IH.
    rewrite <- !app_assoc. done.
Qed.

Lemma first_occurrences_after_filter seen before l :
  first_occurrences_after (seen ++ before) l =
  filter (λ q, q ∉ before) (first_occurrences_after seen l).
Proof.
  revert seen. induction l as [|x l IH]; intros seen; [done|].
  rewrite !first_occurrences_after_cons, filter_app, <- IH.
  rewrite (first_occurrences_after_ext ((seen ++ before) ++ [x]) ((seen ++ [x]) ++ before)).
  2:{ intros q. rewrite !elem_of_app. naive_solver. }
  f_equal.
  destruct (decide (x ∈ seen ++ before)) as [Hin|Hin], (decide (x ∈ seen)) as [Hs|Hs];
    try done.
  - rewrite filter_cons_False, filter_nil; [done|]. set_solver.
  - set_solver.
  - rewrite filter_cons_True, filter_nil; [done|]. set_solver.
Qed.

Lemma first_occurrences_NoDup_id l : NoDup l → first_occurrences l = l.
Proof.
  unfold first_occurrences. intros Hnd.
  assert (∀ seen, (∀ q, q ∈ l → q ∉ seen) → first_occurrences_after seen l = l) as Hgen.
  { induction Hnd as [|x l Hx Hnd IH]; intros seen Hseen; [done|].
    rewrite first_occurrences_after_cons, decide_False by set_solver.
    cbn. f_equal. apply IH. intros q Hq. rewrite elem_of_app. set_solver. }
  apply Hgen. set_solver.
Qed.

Lemma first_occurrences_after_sublist before l :
  first_occurrences_after before l `sublist_of` l.
Proof.
  revert before. induction l as [|x l IH]; intros b; [done|].
  rewrite first_occurrences_after_cons.
  destruct (decide (x ∈ b)); cbn; [by apply sublist_cons|by apply sublist_skip].
Qed.

(** ** The merge of main.py *)

Section MergeFacts.
Context `{FileSystem}.

Lemma map_Exc_app {A B} (f : A → Exc B) l1 l2 r1 r2 :
  map_Exc f l1 = Ok r1 → map_Exc f l2 = Ok r2 → map_Exc f (l1 ++ l2) = Ok (r1 ++ r2).
Proof.
  revert r1. induction l1 as [|x l1 IH]; intros r1; cbn.
  - by intros [= <-].
  - destruct (f x) as [y| |]; cbn; try done.
    destruct (map_Exc f l1) as [ys| |]; cbn; try done.
    intros [= <-] Hr2. by rewrite (IH ys eq_refl Hr2).
Qed.

Lemma map_Exc_Ok_inv {A B} (f : A → Exc B) l r :
  map_Exc f l = Ok r → Forall2 (λ x y, f x = Ok y) l r.
Proof.
  revert r. induction l as [|x l IH]; intros r; cbn.
  - intros [= <-]. constructor.
  - destruct (f x) as [y| |] eqn:Hx; cbn; try done.
    destruct (map_Exc f l) as [ys| |]; cbn; try done.
    intros [= <-]. constructor; auto.
Qed.

Lemma map_Exc_Forall2 {A B} (f : A → Exc B) l r :
  Forall2 (λ x y, f x = Ok y) l r → map_Exc f l = Ok r.
Proof. induction 1 as [|x y l r Hx _ IH]; cbn; [done|]. by rewrite Hx, IH. Qed.

Lemma merge_loop_spec repos : ∀ resolved seen merged,
  map_Exc Path_resolve repos = Ok resolved →
  (∀ q, q ∈ seen ↔ q ∈ merged) →
  ∃ seen', merge_loop (seen, merged) repos
           = Ok (seen', merged ++ first_occurrences_after merged resolved).
Proof.
  induction repos as [|repo repos IH]; intros resolved seen merged; cbn.
  - intros [= <-] _. exists seen. by rewrite first_occurrences_after_nil, app_nil_r.
  - destruct (Path_resolve repo) as [q| |]; cbn; try done.
    destruct (map_Exc Path_resolve repos) as [qs| |] eqn:Hqs; cbn; try done.
    intros [= <-] Hseen. rewrite first_occurrences_after_cons.
    destruct (decide (q ∉ seen)) as [Hq|Hq]; cbn.
    + destruct (IH qs (seen ∪ {[q]}) (merged ++ [q]) eq_refl) as [seen' ->].
      { intros q'. rewrite elem_of_union, elem_of_singleton, elem_of_app, list_elem_of_singleton.
        by rewrite Hseen. }
      exists seen'. rewrite decide_False by (by rewrite <- Hseen).
      by rewrite <- !app_assoc.
    + apply dec_stable in Hq.
      destruct (IH qs seen merged eq_refl Hseen) as [seen' ->].
      exists seen'. rewrite decide_True by (by rewrite <- Hseen). cbn.
      do 3 f_equal. apply first_occurrences_after_ext.
      intros q'. rewrite elem_of_app, list_elem_of_singleton.
      split; [tauto|]. intros [?| ->]; [done|]. by apply Hseen.
Qed.

Lemma merge_loop_raises l1 p l2 e : ∀ acc,
  (∀ x, x ∈ l1 → ∃ q, Path_resolve x = Ok q) →
  Path_resolve p = Raise e →
  merge_loop acc (l1 ++ p :: l2) = Raise e.
Proof.
  induction l1 as [|x l1 IH]; intros [seen merged] Hl1 Hp; cbn.
  - by rewrite Hp.
  - destruct (Hl1 x) as [q Hq]; [left|]. rewrite Hq. cbn.
    destruct (decide (q ∉ seen)); cbn; apply IH; auto; intros; apply Hl1; by right.
Qed.

Lemma merge_repositories_spec stored scanned resolved :
  map_Exc Path_resolve (stored ++ scanned) = Ok resolved →
  merge_repositories stored scanned = Ok (first_occurrences resolved).
Proof.
  intros Hres. unfold merge_repositories.
  destruct (merge_loop_spec _ resolved ∅ [] Hres) as [seen' ->]; [set_solver|].
  done.
Qed.

Lemma merge_repositories_Ok_inv stored scanned merged :
  merge_repositories stored scanned = Ok merged →
  ∃ resolved, map_Exc Path_resolve (stored ++ scanned) = Ok resolved.
Proof.
  unfold merge_repositories.
  assert (∀ repos acc acc', merge_loop acc repos = Ok acc' →
            ∃ resolved, map_Exc Path_resolve repos = Ok resolved) as Hgen.
  { intros l. induction l as [|repo l IH]; intros [seen mg] acc'; cbn; [by eexists|].
    destruct (Path_resolve repo) as [q| |]; cbn; try done.
    intros Hloop.
    destruct (decide (q ∉ seen)); cbn in Hloop; apply IH in Hloop as [qs ->]; by eexists. }
  destruct (merge_loop _ _) as [acc| |] eqn:Hloop; cbn; try done.
  intros _. by eapply Hgen.
Qed.
End MergeFacts.

Section MergeTheorems.
Context `{FileSystem}.

Lemma filter_none {A} (P : A → Prop) `{∀ x, Decision (P x)} (l : list A) :
  (∀ x, x ∈ l → ¬ P x) → filter P l = [].
Proof.
  induction l as [|x l IH]; intros Hl; [done|].
  rewrite filter_cons_False by (apply Hl; left).
  apply IH. intros y Hy. apply Hl. by right.
Qed.

Lemma first_occurrences_app ps ls :
  first_occurrences (ps ++ ls)
  = first_occurrences ps ++ filter (λ q, q ∉ ps) (first_occurrences ls).
Proof.
  unfold first_occurrences.
  by rewrite first_occurrences_after_app, <- (first_occurrences_after_filter [] ps ls).
Qed.

(** C1.  Merging [persisted] with [located], as [_collect_repositories]
    does when a base directory is configured, returns the two sequences
    concatenated, each entry resolved, and filtered to the first
    occurrence of each resolved path.  So the resolved persisted entries
    keep their order at the front, every path occurs once (a path of both
    sequences at its position among the persisted ones), and the entries
    only [located] has follow in [located]'s order.  [ps] and [ls] are the
    resolved forms of the two sequences. *)
Theorem merge_keeps_first_occurrences persisted located ps ls :
  map_Exc Path_resolve persisted = Ok ps →
  map_Exc Path_resolve located = Ok ls →
  ∃ merged,
    merge_repositories persisted located = Ok merged ∧
    merged = first_occurrences (ps ++ ls) ∧
    merged `sublist_of` ps ++ ls ∧
    merged = first_occurrences ps ++ filter (λ q, q ∉ ps) (first_occurrences ls) ∧
    NoDup merged ∧
    (∀ q, q ∈ merged ↔ q ∈ ps ∨ q ∈ ls) ∧
    (∀ i q, first_occurrences ps !! i = Some q → merged !! i = Some q) ∧
    (NoDup ps → take (length ps) merged = ps).
Proof.
  intros Hps Hls. exists (first_occurrences (ps ++ ls)).
  split; [|split; [done|split; [apply first_occurrences_after_sublist|
    split; [apply first_occurrences_app|split; [|split; [|split]]]]]].
  - apply merge_repositories_spec. by apply map_Exc_app.
  - apply NoDup_first_occurrences_after.
  - intros q. unfold first_occurrences.
    rewrite elem_of_first_occurrences_after, elem_of_app. set_solver.
  - intros i q Hi. rewrite first_occurrences_app. by apply lookup_app_l_Some.
  - intros Hnd. rewrite first_occurrences_app, (first_occurrences_NoDup_id ps Hnd).
    by rewrite take_app_length.
Qed.

Lemma merge_absorbs merged extra resolved :
  NoDup merged →
  (∀ m, m ∈ merged → Path_resolve m = Ok m) →
  map_Exc Path_resolve extra = Ok resolved →
  (∀ q, q ∈ resolved → q ∈ merged) →
  merge_repositories merged extra = Ok merged.
Proof.
  intros Hnd Hfix Hextra Hsub.
  assert (map_Exc Path_resolve merged = Ok merged) as Hself.
  { apply map_Exc_Forall2. apply Forall2_same_length_lookup. split; [done|].
    intros i x y Hx Hy. assert (x = y) as -> by congruence.
    apply Hfix. by eapply list_elem_of_lookup_2. }
  rewrite (merge_repositories_spec merged extra (merged ++ resolved))
    by by apply map_Exc_app.
  rewrite first_occurrences_app, (first_occurrences_NoDup_id merged Hnd).
  rewrite filter_none; [by rewrite app_nil_r|].
  intros q Hq Hnot. apply Hnot, Hsub.
  unfold first_occurrences in Hq. by apply elem_of_first_occurrences_after in Hq as [? _].
Qed.

Lemma map_Exc_elem_of {A B} (f : A → Exc B) l r y :
  map_Exc f l = Ok r → y ∈ r → ∃ x, x ∈ l ∧ f x = Ok y.
Proof.
  intros Hl%map_Exc_Ok_inv Hy.
  apply list_elem_of_lookup in Hy as [i Hi].
  destruct (Forall2_lookup_r _ _ _ _ _ Hl Hi) as (x & Hx & Hfx).
  exists x. split; [by eapply list_elem_of_lookup_2|done].
Qed.

Lemma map_Exc_sublist {A B} (f : A → Exc B) l r xs :
  map_Exc f l = Ok r → (∀ x, x ∈ xs → x ∈ l) → ∃ ys, map_Exc f xs = Ok ys ∧ ∀ y, y ∈ ys → y ∈ r.
Proof.
  intros Hl%map_Exc_Ok_inv. induction xs as [|x xs IH]; intros Hxs.
  - exists []. split; [done|]. set_solver.
  - destruct IH as (ys & Hys & Hsub); [set_solver|].
    assert (x ∈ l) as [i Hi]%list_elem_of_lookup by set_solver.
    destruct (Forall2_lookup_l _ _ _ _ _ Hl Hi) as (y & Hy & Hfx).
    exists (y :: ys). cbn. rewrite Hfx, Hys. split; [done|].
    intros y' [->|?]%elem_of_cons; [by eapply list_elem_of_lookup_2|auto].
Qed.

(** C8.  The merge is idempotent: when [merge_repositories A B] returns
    [merged], merging [merged] with [B] again returns [merged], and so
    does merging [merged] with itself or with any sequence of its own
    entries.  Resolving is assumed idempotent on the entries, as
    [Path.resolve] is on a disk that does not change. *)
Theorem merge_idempotent A B merged :
  (∀ p q, p ∈ A ++ B → Path_resolve p = Ok q → Path_resolve q = Ok q) →
  merge_repositories A B = Ok merged →
  merge_repositories merged B = Ok merged ∧
  merge_repositories merged merged = Ok merged ∧
  ∀ part, (∀ p, p ∈ part → p ∈ merged) → merge_repositories merged part = Ok merged.
Proof.
  intros Hidem Hmerge.
  destruct (merge_repositories_Ok_inv _ _ _ Hmerge) as [resolved Hres].
  rewrite (merge_repositories_spec _ _ _ Hres) in Hmerge.
  injection Hmerge as <-.
  assert (∀ q, q ∈ first_occurrences resolved ↔ q ∈ resolved) as Hin.
  { intros q. unfold first_occurrences. rewrite elem_of_first_occurrences_after. set_solver. }
  assert (∀ m, m ∈ first_occurrences resolved → Path_resolve m = Ok m) as Hfix.
  { intros m Hm%Hin. destruct (map_Exc_elem_of _ _ _ _ Hres Hm) as (p & Hp & Hpm). eauto. }
  assert (NoDup (first_occurrences resolved)) as Hnd
    by apply NoDup_first_occurrences_after.
  assert (map_Exc Path_resolve (first_occurrences resolved) = Ok (first_occurrences resolved))
    as Hself.
  { apply map_Exc_Forall2, Forall2_same_length_lookup. split; [done|].
    intros i x y Hx Hy. assert (x = y) as -> by congruence.
    apply Hfix. by eapply list_elem_of_lookup_2. }
  split; [|split].
  - destruct (map_Exc_sublist _ _ _ B Hres) as (ls & Hls & Hsub); [set_solver|].
    apply (merge_absorbs _ _ ls); auto. intros q Hq. apply Hin. auto.
  - by apply (merge_absorbs _ _ (first_occurrences resolved)).
  - intros part Hpart.
    destruct (map_Exc_sublist _ _ _ part Hself Hpart) as (ys & Hys & Hsub).
    by apply (merge_absorbs _ _ ys).
Qed.
End MergeTheorems.

(** ** The scanner *)

Lemma name_joinpath p n : name (p // n) = n.
Proof. unfold name, joinpath. cbn. by rewrite last_snoc. Qed.

Section ScannerFacts.
Context `{FileSystem}.

Lemma scan_extends_refl within st : scan_extends within st st.
Proof. exists [], []. rewrite !app_nil_r. split_and!; [done..|set_solver]. Qed.

Lemma scan_extends_trans within st1 st2 st3 :
  scan_extends within st1 st2 → scan_extends within st2 st3 →
  scan_extends within st1 st3.
Proof.
  intros (vs1 & rs1 & Hv1 & Hr1 & Hw1 & Hg1) (vs2 & rs2 & Hv2 & Hr2 & Hw2 & Hg2).
  exists (vs1 ++ vs2), (rs1 ++ rs2). split_and!.
  - by rewrite Hv2, Hv1, app_assoc.
  - by rewrite Hr2, Hr1, app_assoc.
  - by apply Forall_app.
  - intros p. rewrite !elem_of_app, Hg1, Hg2. tauto.
Qed.

Lemma scan_extends_mono (within within' : Path → Prop) st st' :
  (∀ p, within p → within' p) →
  scan_extends within st st' → scan_extends within' st st'.
Proof.
  intros Hsub (vs & rs & Hv & Hr & Hw & Hg). exists vs, rs. split_and!; try done.
  eapply Forall_impl; eauto.
Qed.

Lemma for_each_extends {A} within (l : list A) (body : A → M ScanState unit) :
  (∀ x st out st', x ∈ l → body x st = (out, st') → scan_extends within st st') →
  ∀ st out st', for_each l body st = (out, st') → scan_extends within st st'.
Proof.
  induction l as [|x l IH]; intros Hbody st out st'.
  - intros [= _ <-]. apply scan_extends_refl.
  - cbn [for_each]. unfold_M.
    destruct (body x st) as [[[]| |] s1] eqn:Hx.
    + intros Hrest. eapply scan_extends_trans.
      * eapply Hbody; [left|done].
      * eapply IH; [|done]. intros. eapply Hbody; [by right|done].
    + intros [= _ <-]. eapply Hbody; [left|done].
    + intros [= _ <-]. eapply Hbody; [left|done].
Qed.

Lemma reaches_refl p : reaches p 0 p.
Proof. constructor. Qed.

Lemma reaches_child p c k q : scan_child p c → reaches c k q → reaches p (S k) q.
Proof. intros. by econstructor. Qed.

(** Whatever its outcome, a scan visits only directories reachable
    within the depth bound and records exactly the repositories among
    them. *)
Lemma _scan_sound max_depth fuel : ∀ directory depth st out st',
  _scan max_depth fuel directory depth st = (out, st') →
  scan_extends (λ p, ∃ k : nat, reaches directory k p ∧ depth + Z.of_nat k ≤ max_depth) st st'.
Proof.
  induction fuel as [|fuel IH]; intros directory depth st out st'; cbn [_scan];
    destruct (Z.gtb_spec depth max_depth) as [Hdeep|Hdepth].
  - intros [= _ <-]. apply scan_extends_refl.
  - intros [= _ <-]. apply scan_extends_refl.
  - intros [= _ <-]. apply scan_extends_refl.
  - unfold_M. cbn.
    assert (∃ k : nat, reaches directory k directory ∧ depth + Z.of_nat k ≤ max_depth) as Hhere.
    { exists 0%nat. split; [apply reaches_refl|lia]. }
    assert (is_git_repository directory ≠ Ok true →
            scan_extends (λ p, ∃ k : nat, reaches directory k p ∧ depth + Z.of_nat k ≤ max_depth)
              st (note_visit directory st)) as Hvisit.
    { intros Hnot. exists [directory], []. rewrite app_nil_r. split_and!; try done.
      - by constructor.
      - intros p. rewrite list_elem_of_singleton. split; [by intros ?%elem_of_nil|].
        by intros [-> ?]. }
    destruct (is_git_repository directory) as [[]| |] eqn:Hgit.
    + intros [= _ <-]. exists [directory], [directory]. split_and!; try done.
      * by constructor.
      * intros p. rewrite list_elem_of_singleton. naive_solver.
    + unfold Path_iterdir. destruct (os_listdir directory) as [names| |] eqn:Hnames; cbn.
      * intros Hloop. eapply scan_extends_trans; [by apply Hvisit|].
        eapply for_each_extends; [|exact Hloop].
        intros child s o s' [n [-> Hn]]%list_elem_of_fmap.
        rewrite name_joinpath. unfold_M.
        destruct (Path_is_dir (directory // n)) as [[]| |] eqn:Hdir; cbn;
          try (intros [= _ <-]; apply scan_extends_refl).
        destruct (startswith n ".") eqn:Hdot; cbn;
          try (intros [= _ <-]; apply scan_extends_refl).
        intros Hrec%IH. eapply scan_extends_mono; [|exact Hrec].
        intros p (k & Hk & Hbound). exists (S k). split; [|lia].
        eapply reaches_child; [|done]. split; [done|]. by exists names, n.
      * intros [= _ <-]. by apply Hvisit.
      * intros [= _ <-]. by apply Hvisit.
    + intros [= _ <-]. by apply Hvisit.
    + intros [= _ <-]. by apply Hvisit.
Qed.

Lemma joinpath_inj p n n' : p // n = p // n' → n = n'.
Proof. unfold joinpath. intros [= Heq]. by apply app_inv_head in Heq as [= ->]. Qed.

Lemma reaches_inv_child p k q :
  reaches p (S k) q → ∃ c, scan_child p c ∧ reaches c k q.
Proof. inversion 1; subst. eauto. Qed.

Lemma scan_extends_visited within st st' p :
  scan_extends within st st' → p ∈ visited st → p ∈ visited st'.
Proof. intros (vs & rs & -> & _) Hp. apply elem_of_app. by left. Qed.

Lemma for_each_visits {A} (l : list A) (body : A → M ScanState unit)
    (goal : A → Path → Prop) :
  (∀ x s out s', x ∈ l → body x s = (out, s') → scan_extends (λ _, True) s s') →
  (∀ x s, x ∈ l → ∃ s', body x s = (Ok tt, s') ∧ ∀ p, goal x p → p ∈ visited s') →
  ∀ st, ∃ st', for_each l body st = (Ok tt, st') ∧
               (∀ p, p ∈ visited st → p ∈ visited st') ∧
               ∀ x p, x ∈ l → goal x p → p ∈ visited st'.
Proof.
  induction l as [|x l IH]; intros Hgrow Hbody st.
  - exists st. split_and!; [done|done|]. by intros ?? ?%elem_of_nil.
  - destruct (Hbody x st) as (s1 & Hx & Hgoal); [left|].
    destruct (IH (λ y s o s' Hy, Hgrow y s o s' (list_elem_of_further _ _ _ Hy))
                 (λ y s Hy, Hbody y s (list_elem_of_further _ _ _ Hy)) s1)
      as (st' & Hrest & Hkeep & Hgoals).
    exists st'. cbn [for_each]. unfold_M. rewrite Hx.
    split_and!; [done| |].
    + intros p Hp. apply Hkeep. eapply scan_extends_visited; [|done].
      eapply Hgrow; [left|done].
    + intros y p [->|Hy]%elem_of_cons Hyp; [apply Hkeep; auto|eauto].
Qed.

(** With enough fuel and no disturbed directory in reach, a scan returns
    and has visited every directory reachable within the depth bound. *)
Lemma _scan_complete max_depth fuel : ∀ directory depth st,
  (Z.to_nat (max_depth + 1 - depth) ≤ fuel)%nat →
  (∀ (k : nat) p, reaches directory k p → depth + Z.of_nat k ≤ max_depth → undisturbed p) →
  ∃ st', _scan max_depth fuel directory depth st = (Ok tt, st') ∧
         ∀ (k : nat) p, reaches directory k p → depth + Z.of_nat k ≤ max_depth →
                        p ∈ visited st'.
Proof.
  induction fuel as [|fuel IH]; intros directory depth st Hfuel Hcalm; cbn [_scan];
    destruct (Z.gtb_spec depth max_depth) as [Hdeep|Hdepth];
    try (exists st; split; [done|]; intros; lia); [lia|].
  unfold_M. cbn.
  destruct (Hcalm 0%nat directory (reaches_refl _)) as (is_repo & Hgit & Hlist); [lia|].
  rewrite Hgit. destruct is_repo.
  - eexists. split; [done|]. intros [|k] p Hreach _.
    + inversion Hreach; subst. cbn. set_solver.
    + apply reaches_inv_child in Hreach as (c & [Hnot _] & _). congruence.
  - destruct (Hlist eq_refl) as (names & Hnames & Hdirs).
    unfold Path_iterdir. rewrite Hnames. cbn.
    set (body := λ child : Path,
           bind_M (λ s, (Path_is_dir child, s))
             (λ is_dir, if is_dir && negb (startswith (name child) ".")
                        then _scan max_depth fuel child (depth + 1) else mret tt)).
    set (goal := λ c p, scan_child directory c ∧
                ∃ k : nat, reaches c k p ∧ depth + 1 + Z.of_nat k ≤ max_depth).
    assert (∀ c s o s', c ∈ map (joinpath directory) names → body c s = (o, s') →
              scan_extends (λ _, True) s s') as Hgrow.
    { intros c s o s' _. unfold body, bind_M.
      destruct (Path_is_dir c) as [b| |]; try (intros [= _ <-]; apply scan_extends_refl).
      destruct (b && negb (startswith (name c) "."));
        [|intros [= _ <-]; apply scan_extends_refl].
      intros Hrec. apply _scan_sound in Hrec. eapply scan_extends_mono; [|exact Hrec]. done. }
    assert (∀ c s, c ∈ map (joinpath directory) names →
              ∃ s', body c s = (Ok tt, s') ∧ ∀ p, goal c p → p ∈ visited s') as Hbody.
    { intros c s [n [-> Hn]]%list_elem_of_fmap. unfold body, bind_M.
      destruct (Hdirs n Hn) as [b Hb]. rewrite Hb, name_joinpath.
      destruct (b && negb (startswith n ".")) eqn:Hgo.
      * apply andb_true_iff in Hgo as [-> Hdot%negb_true_iff].
        assert (scan_child directory (directory // n)) as Hchild.
        { split; [done|]. by exists names, n. }
        destruct (IH (directory // n) (depth + 1) s) as (s' & Hs' & Hvis); [lia| |].
        { intros k p Hk Hbound. apply (Hcalm (S k) p); [|lia].
          by eapply reaches_child. }
        exists s'. split; [done|]. intros p (_ & k & Hk & Hbound). eauto.
      * exists s. split; [done|].
        intros p ((_ & names' & n' & _ & _ & Heq & Hdir' & Hdot') & _).
        apply joinpath_inj in Heq as <-.
        rewrite Hb in Hdir'. injection Hdir' as ->. by rewrite Hdot' in Hgo. }
    destruct (for_each_visits _ body goal Hgrow Hbody (note_visit directory st))
      as (st' & Hloop & Hkeep & Hgoals).
    exists st'. split; [exact Hloop|]. intros [|k] p Hreach Hbound.
    + inversion Hreach; subst. apply Hkeep. cbn. set_solver.
    + apply reaches_inv_child in Hreach as (c & Hchild & Hreach).
      apply (Hgoals c p).
      * destruct Hchild as (_ & names' & n & Hnames' & Hn & -> & _).
        rewrite Hnames in Hnames'. injection Hnames' as <-.
        apply list_elem_of_fmap. eauto.
      * split; [done|]. exists k. split; [done|lia].
Qed.

Lemma for_each_Ok_inv {A} (l : list A) (body : A → M ScanState unit) st st' :
  for_each l body st = (Ok tt, st') →
  ∀ x, x ∈ l → ∃ s s', body x s = (Ok tt, s').
Proof.
  revert st. induction l as [|x l IH]; intros st; [by intros _ ? ?%elem_of_nil|].
  cbn [for_each]. unfold_M.
  destruct (body x st) as [[[]| |] s1] eqn:Hx; try done.
  intros Hrest y [->|Hy]%elem_of_cons; eauto.
Qed.

(** A scan that returns met no disturbed directory. *)
Lemma _scan_Ok_undisturbed max_depth fuel : ∀ directory depth st st',
  _scan max_depth fuel directory depth st = (Ok tt, st') →
  ∀ (k : nat) p, reaches directory k p → depth + Z.of_nat k ≤ max_depth → undisturbed p.
Proof.
  induction fuel as [|fuel IH]; intros directory depth st st'; cbn [_scan];
    destruct (Z.gtb_spec depth max_depth) as [Hdeep|Hdepth];
    try (intros; lia); [done|].
  unfold_M. cbn.
  destruct (is_git_repository directory) as [[]| |] eqn:Hgit; try done.
  - intros _ [|k] p Hreach _.
    + inversion Hreach; subst. by exists true.
    + apply reaches_inv_child in Hreach as (c & [Hnot _] & _). congruence.
  - unfold Path_iterdir. destruct (os_listdir directory) as [names| |] eqn:Hnames; try done.
    cbn. intros Hloop. pose proof (for_each_Ok_inv _ _ _ _ Hloop) as Hbodies.
    intros [|k] p Hreach Hbound.
    + inversion Hreach; subst. exists false. split; [done|]. intros _.
      exists names. split; [done|]. intros n Hn.
      destruct (Hbodies (p // n)) as (s & s' & Hbody); [apply list_elem_of_fmap; eauto|].
      unfold bind_M in Hbody. destruct (Path_is_dir (p // n)) as [b| |]; try done. eauto.
    + apply reaches_inv_child in Hreach as (c & Hchild & Hreach).
      destruct Hchild as (_ & names' & n & Hnames' & Hn & -> & Hdir & Hdot).
      rewrite Hnames in Hnames'. injection Hnames' as <-.
      destruct (Hbodies (directory // n)) as (s & s' & Hbody);
        [apply list_elem_of_fmap; eauto|].
      unfold bind_M in Hbody. rewrite Hdir, name_joinpath, Hdot in Hbody. cbn in Hbody.
      apply (IH _ _ _ _ Hbody k p Hreach). lia.
Qed.
Lemma for_each_not_Diverged {A} (l : list A) (body : A → M ScanState unit) :
  (∀ x s, x ∈ l → (body x s).1 ≠ Diverged) →
  ∀ s, (for_each l body s).1 ≠ Diverged.
Proof.
  induction l as [|x l IH]; intros Hbody s; [done|].
  cbn [for_each]. unfold_M.
  pose proof (Hbody x s (list_elem_of_here _ _)) as Hx.
  destruct (body x s) as [[[]| |] s1]; try done.
  apply IH. intros y s' Hy. apply Hbody. by right.
Qed.

(** The budget [scan_for_repositories] hands to [_scan] is never used
    up: unless a call on the file system diverges, a scan returns or
    raises. *)
Lemma _scan_enough_fuel max_depth fuel : ∀ directory depth st,
  (∀ p, Path_is_dir p ≠ Diverged) →
  (∀ p, os_listdir p ≠ Diverged) →
  (Z.to_nat (max_depth + 1 - depth) ≤ fuel)%nat →
  (_scan max_depth fuel directory depth st).1 ≠ Diverged.
Proof.
  induction fuel as [|fuel IH]; intros directory depth st Hdir Hlist Hfuel; cbn [_scan];
    destruct (Z.gtb_spec depth max_depth) as [Hdeep|Hdepth]; try done; [lia|].
  unfold_M. cbn.
  unfold is_git_repository. pose proof (Hdir (directory // ".git")) as Hgit.
  destruct (Path_is_dir (directory // ".git")) as [[]| |]; try done.
  unfold Path_iterdir. pose proof (Hlist directory) as Hnames.
  destruct (os_listdir directory) as [names| |]; try done. cbn.
  apply for_each_not_Diverged. intros child s _. unfold bind_M.
  pose proof (Hdir child) as Hchild.
  destruct (Path_is_dir child) as [b| |]; try done.
  destruct (b && negb (startswith (name child) ".")); [|done].
  apply IH; [done..|lia].
Qed.

Lemma scan_for_repositories_not_Diverged base max_depth :
  Path_exists base ≠ Diverged →
  Path_resolve base ≠ Diverged →
  (∀ p, Path_is_dir p ≠ Diverged) →
  (∀ p, os_listdir p ≠ Diverged) →
  scan_for_repositories base max_depth ≠ Diverged.
Proof.
  intros Hex Hres Hdir Hlist.
  unfold scan_for_repositories, scan_for_repositories_M. unfold_M.
  destruct (Path_exists base) as [[]| |]; try done.
  destruct (Path_resolve base) as [b| |]; try done. cbn.
  pose proof (_scan_enough_fuel max_depth (Z.to_nat (max_depth + 1)) b 0 scan_start
                Hdir Hlist) as Hscan.
  destruct (_scan max_depth _ b 0 scan_start) as [[[]| |] st]; try done.
  intros _. apply Hscan; [lia|done].
Qed.
End ScannerFacts.

Section ScannerTheorems.
Context `{FileSystem}.

Lemma reaches_tail base k p :
  reaches base k p →
  root p = root base ∧ ∃ suffix, tail p = tail base ++ suffix ∧ length suffix = k.
Proof.
  induction 1 as [p|k p c q Hchild _ IH].
  - split; [done|]. exists []. by rewrite app_nil_r.
  - destruct Hchild as (_ & names & n & _ & _ & -> & _).
    destruct IH as (Hroot & suffix & Htail & Hlen). split; [done|].
    exists (n :: suffix). cbn in Htail. rewrite <- app_assoc in Htail.
    split; [done|]. cbn. by rewrite Hlen.
Qed.

Lemma reaches_depth_unique base k k' p : reaches base k p → reaches base k' p → k = k'.
Proof.
  intros (_ & s & Hs & <-)%reaches_tail (_ & s' & Hs' & <-)%reaches_tail.
  rewrite Hs in Hs'. by apply app_inv_head in Hs' as ->.
Qed.

(** Every directory between the start of a scan and a directory it
    reaches was found not to be a repository. *)
Lemma reaches_ancestors base k q :
  reaches base k q →
  ∀ a suffix, root a = root base → tail a = tail base ++ suffix →
              descendant_of q a → is_git_repository a = Ok false.
Proof.
  induction 1 as [p|k p c q Hchild Hreach IH]; intros a suffix Hroot Htail Hdesc.
  - destruct Hdesc as (_ & more & Hmore & Hq). rewrite Htail, <- app_assoc in Hq.
    rewrite <- (app_nil_r (tail p)) in Hq at 1. apply app_inv_head in Hq.
    symmetry in Hq. apply app_eq_nil in Hq as [_ ->]. done.
  - destruct suffix as [|n' suffix].
    + rewrite app_nil_r in Htail. destruct Hchild as [Hnot _].
      destruct a, p; cbn in *; by subst.
    + pose proof Hchild as (_ & names & n & _ & _ & -> & _).
      apply (IH a suffix); [done| |done].
      destruct Hdesc as (_ & more & _ & Hq).
      apply reaches_tail in Hreach as (_ & s & Hs & _).
      rewrite Hs, Htail in Hq. cbn in Hq. rewrite <- !app_assoc in Hq.
      apply app_inv_head in Hq. injection Hq as -> _.
      cbn. by rewrite <- app_assoc.
Qed.

(** What a call of [scan_for_repositories] leaves behind, whatever its
    outcome. *)
Lemma scan_for_repositories_M_spec base max_depth out st :
  scan_for_repositories_M base max_depth scan_start = (out, st) →
  (∀ repos, out = Ok repos → repos = repositories st) ∧
  ((visited st = [] ∧ repositories st = []) ∨
   ∃ b, Path_exists base = Ok true ∧ Path_resolve base = Ok b ∧
        scan_extends (λ p, ∃ k : nat, reaches b k p ∧ Z.of_nat k ≤ max_depth)
          scan_start st).
Proof.
  unfold scan_for_repositories_M. unfold_M.
  destruct (Path_exists base) as [[]| |]; cbn;
    try (intros [= <- <-]; split; [by intros ? [= <-]|by left]).
  destruct (Path_resolve base) as [b| |]; cbn;
    try (intros [= <- <-]; split; [by intros ? [= <-]|by left]).
  destruct (_scan max_depth _ b 0 scan_start) as [[[]| |] st1] eqn:Hscan;
    intros [= <- <-]; (split; [by intros ? [= <-]|]); right; exists b;
    (split_and!; [done..|]);
    (eapply scan_extends_mono; [|by eapply _scan_sound]);
    intros p (k & ? & ?); exists k; (split; [done|lia]).
Qed.

Lemma scan_extends_start within st :
  scan_extends within scan_start st →
  Forall within (visited st) ∧
  ∀ p, p ∈ repositories st ↔ p ∈ visited st ∧ is_git_repository p = Ok true.
Proof. by intros (vs & rs & -> & -> & ? & ?). Qed.

(** C3, amended.  A visited directory that is a Git working tree is
    recorded and never entered: no path spelled below it is visited,
    whatever the outcome of the scan, and when the scan returns, the
    directory is in the result and no path spelled below it is.  The
    paths are those the traversal builds: a working tree inside a
    recorded repository can still be returned under the path of a link
    that leads to it from outside the repository. *)
Theorem scan_never_enters_repository base max_depth r :
  r ∈ scan_visited base max_depth →
  is_git_repository r = Ok true →
  (∀ q, descendant_of q r → q ∉ scan_visited base max_depth) ∧
  (∀ repos, scan_for_repositories base max_depth = Ok repos →
            r ∈ repos ∧ ∀ q, descendant_of q r → q ∉ repos).
Proof.
  unfold scan_visited, scan_for_repositories.
  destruct (scan_for_repositories_M base max_depth scan_start) as [out st] eqn:Hrun.
  cbn. intros Hr Hgit.
  destruct (scan_for_repositories_M_spec _ _ _ _ Hrun) as [Hout [[Hnil _]|Hscan]].
  { rewrite Hnil in Hr. by apply elem_of_nil in Hr. }
  destruct Hscan as (b & _ & _ & [Hwithin Hrepos]%scan_extends_start).
  rewrite Forall_forall in Hwithin.
  assert (∀ q, descendant_of q r → q ∉ visited st) as Hbelow.
  { intros q Hdesc Hq.
    destruct (Hwithin r Hr) as (k & (Hroot & s & Hs & _)%reaches_tail & _).
    destruct (Hwithin q Hq) as (k' & Hreach & _).
    pose proof (reaches_ancestors _ _ _ Hreach r s Hroot Hs Hdesc). congruence. }
  split; [done|]. intros repos ->%Hout. split; [by apply Hrepos|].
  intros q Hdesc [Hq _]%Hrepos. by eapply Hbelow.
Qed.

Lemma scan_for_repositories_M_resolved base max_depth b :
  Path_exists base = Ok true → Path_resolve base = Ok b →
  scan_for_repositories_M base max_depth scan_start =
  match _scan max_depth (Z.to_nat (max_depth + 1)) b 0 scan_start with
  | (Ok _, st) => (Ok (repositories st), st)
  | (Raise e, st) => (Raise e, st)
  | (Diverged, st) => (Diverged, st)
  end.
Proof.
  intros Hex Hres.
  unfold scan_for_repositories_M. unfold_M.
  rewrite Hex. cbn. rewrite Hres. by destruct (_scan _ _ _ _ _) as [[[]| |] ?].
Qed.

Lemma reaches_name base (d : nat) p :
  reaches base d p → p = base ∨ startswith (name p) "." = false.
Proof.
  destruct d as [|d]; [inversion 1; by left|].
  intros (parent & _ & Hchild)%nsteps_inv_r. right.
  destruct Hchild as (_ & names & n & _ & _ & -> & _ & Hdot).
  by rewrite name_joinpath.
Qed.

(** C2, amended.  On a base directory that exists, in which no visited
    directory raises, [scan_for_repositories] returns exactly the
    repositories reachable from the resolved base within [max_depth]
    steps (the base being at depth 0), each step leading from a directory
    that is not a repository to a child directory whose name does not
    start with a dot.  So a returned repository other than the base has
    itself a name without a leading dot.  No repository from a greater
    depth is returned, and the directories visited are exactly those
    reachable within [max_depth] steps: none beyond. *)
Theorem scan_finds_exactly_within_depth base max_depth b :
  Path_exists base = Ok true →
  Path_resolve base = Ok b →
  (∀ (d : nat) p, reaches b d p → Z.of_nat d ≤ max_depth → undisturbed p) →
  ∃ repos,
    scan_for_repositories base max_depth = Ok repos ∧
    (∀ p, p ∈ repos ↔
          ∃ d : nat, Z.of_nat d ≤ max_depth ∧ reaches b d p ∧
                     is_git_repository p = Ok true) ∧
    (∀ p, p ∈ repos → p = b ∨ startswith (name p) "." = false) ∧
    (∀ p (d : nat), p ∈ repos → reaches b d p → Z.of_nat d ≤ max_depth) ∧
    (∀ p, p ∈ scan_visited base max_depth ↔
          ∃ d : nat, Z.of_nat d ≤ max_depth ∧ reaches b d p) ∧
    (∀ p (d : nat), p ∈ scan_visited base max_depth → reaches b d p →
                    Z.of_nat d ≤ max_depth).
Proof.
  intros Hex Hres Hcalm.
  destruct (_scan_complete max_depth (Z.to_nat (max_depth + 1)) b 0 scan_start)
    as (st & Hscan & Hall); [lia|by intros; apply (Hcalm k); [|lia]|].
  pose proof (scan_for_repositories_M_resolved base max_depth b Hex Hres) as Hrun.
  rewrite Hscan in Hrun.
  apply _scan_sound, scan_extends_start in Hscan as [Hwithin Hrepos].
  rewrite Forall_forall in Hwithin.
  unfold scan_for_repositories, scan_visited. rewrite Hrun. cbn.
  assert (∀ p, p ∈ visited st ↔ ∃ d : nat, Z.of_nat d ≤ max_depth ∧ reaches b d p)
    as Hvisited.
  { intros p. split.
    - intros (k & ? & ?)%Hwithin. exists k. split; [lia|done].
    - intros (d & ? & ?). apply (Hall d); [done|lia]. }
  assert (∀ p (d : nat), p ∈ visited st → reaches b d p → Z.of_nat d ≤ max_depth)
    as Hbound.
  { intros p d (k & Hk & ?)%Hwithin Hd.
    rewrite (reaches_depth_unique _ _ _ _ Hd Hk). lia. }
  exists (repositories st). split_and!; try done.
  - intros p. rewrite Hrepos, Hvisited. naive_solver.
  - intros p [(d & _ & Hd)%Hvisited _]%Hrepos. by eapply reaches_name.
  - intros p d [Hp _]%Hrepos. by apply Hbound.
Qed.

(** C6, amended.  On a base directory that exists and resolves,
    [scan_for_repositories] returns a result if and only if no directory
    it reaches within the depth bound makes [is_dir] or the listing
    raise; otherwise it raises (unless a call on the file system
    diverges).  Nothing is skipped for being unreadable or a symbolic
    link: within the depth bound, a child of a visited directory that is
    not a repository is visited whenever [is_dir], which follows links,
    holds for it and its name does not start with a dot. *)
Theorem scan_returns_iff_undisturbed base max_depth b :
  Path_exists base = Ok true →
  Path_resolve base = Ok b →
  ((∃ repos, scan_for_repositories base max_depth = Ok repos) ↔
   (∀ (d : nat) p, reaches b d p → Z.of_nat d ≤ max_depth → undisturbed p)) ∧
  ((∀ p, Path_is_dir p ≠ Diverged) → (∀ p, os_listdir p ≠ Diverged) →
   ¬ (∀ (d : nat) p, reaches b d p → Z.of_nat d ≤ max_depth → undisturbed p) →
   ∃ e, scan_for_repositories base max_depth = Raise e) ∧
  ((∀ (d : nat) p, reaches b d p → Z.of_nat d ≤ max_depth → undisturbed p) →
   ∀ (d : nat) p names n,
     reaches b d p → Z.of_nat d + 1 ≤ max_depth →
     is_git_repository p = Ok false →
     os_listdir p = Ok names → n ∈ names →
     Path_is_dir (p // n) = Ok true → startswith n "." = false →
     p // n ∈ scan_visited base max_depth).
Proof.
  intros Hex Hres.
  assert ((∃ repos, scan_for_repositories base max_depth = Ok repos) ↔
          (∀ (d : nat) p, reaches b d p → Z.of_nat d ≤ max_depth → undisturbed p))
    as Hiff.
  { split.
    - intros [repos Hrepos] d p Hreach Hd.
      unfold scan_for_repositories in Hrepos.
      rewrite (scan_for_repositories_M_resolved base max_depth b Hex Hres) in Hrepos.
      destruct (_scan max_depth _ b 0 scan_start) as [[[]| |] st] eqn:Hscan; try done.
      apply (_scan_Ok_undisturbed _ _ _ _ _ _ Hscan d p Hreach). lia.
    - intros Hcalm.
      destruct (_scan_complete max_depth (Z.to_nat (max_depth + 1)) b 0 scan_start)
        as (st & Hscan & _); [lia|by intros; apply (Hcalm k); [|lia]|].
      exists (repositories st). unfold scan_for_repositories.
      by rewrite (scan_for_repositories_M_resolved base max_depth b Hex Hres), Hscan. }
  split; [exact Hiff|]. split.
  - intros Hdir Hlist Hdisturbed.
    pose proof (scan_for_repositories_not_Diverged base max_depth) as Hterm.
    rewrite Hex, Hres in Hterm.
    destruct (scan_for_repositories base max_depth) as [repos|e|] eqn:Hscan.
    + destruct Hdisturbed. apply Hiff. by exists repos.
    + by exists e.
    + by destruct Hterm.
  - intros Hcalm d p names n Hreach Hd Hgit Hnames Hn Hdir Hdot.
    destruct (_scan_complete max_depth (Z.to_nat (max_depth + 1)) b 0 scan_start)
      as (st & Hscan & Hall); [lia|by intros; apply (Hcalm k); [|lia]|].
    unfold scan_visited.
    rewrite (scan_for_repositories_M_resolved base max_depth b Hex Hres), Hscan. cbn.
    apply (Hall (S d)); [|lia].
    eapply nsteps_r; [exact Hreach|]. split; [done|]. by exists names, n.
Qed.


End ScannerTheorems.

(** ** [_collect_repositories] and the Git wrapper *)

Section CollectTheorems.
Context `{FileSystem}.

Lemma map_Exc_Path_of_Ok entries stored :
  map_Exc Path_of entries = Ok stored →
  Forall2 (λ v p, ∃ s, v = PyStr s ∧ p = Path_of_str s) entries stored.
Proof.
  intros Hmap%map_Exc_Ok_inv. eapply Forall2_impl; [exact Hmap|].
  intros v p. destruct v; cbn; try done. intros [= <-]. eauto.
Qed.

Lemma map_Exc_Path_of_TypeError entries v :
  v ∈ entries → (∀ s, v ≠ PyStr s) → map_Exc Path_of entries = Raise TypeError.
Proof.
  intros Hv Hbad. induction entries as [|w entries IH]; [by apply elem_of_nil in Hv|].
  cbn. destruct w as [| | |s| |] eqn:Hw; cbn; try done.
  apply elem_of_cons in Hv as [->|Hv]; [by destruct (Hbad s)|].
  by rewrite (IH Hv).
Qed.

Lemma map_Exc_Path_of_strings strs :
  map_Exc Path_of (map PyStr strs) = Ok (map Path_of_str strs).
Proof. induction strs as [|s strs IH]; cbn; [done|]. by rewrite IH. Qed.

(** With a base directory configured and a list of strings stored,
    [_collect_repositories] is the scan followed by the merge. *)
Lemma _collect_repositories_merges config strs :
  preferences config !! "repositories" = Some (PyList (map PyStr strs)) →
  base_directory config ≠ "" →
  _collect_repositories config =
  scanned ← scan_for_repositories (Path_of_str (base_directory config)) default_max_depth;
  merge_repositories (map Path_of_str strs) scanned.
Proof.
  intros Hprefs Hbase. unfold _collect_repositories. rewrite Hprefs. cbn.
  rewrite map_Exc_Path_of_strings. cbn. by rewrite bool_decide_true.
Qed.

Lemma _collect_repositories_no_base config strs :
  preferences config !! "repositories" = Some (PyList (map PyStr strs)) →
  base_directory config = "" →
  _collect_repositories config = Ok (map Path_of_str strs).
Proof.
  intros Hprefs Hbase. unfold _collect_repositories. rewrite Hprefs. cbn.
  rewrite map_Exc_Path_of_strings. cbn. by rewrite bool_decide_false by (by intros []).
Qed.

(** C7, amended.  With a base directory configured,
    [_collect_repositories] drops no entry of the persisted list: when it
    returns, every entry is a string, resolves, and has its resolved path
    in the result.  An entry that is not a string makes the whole call
    raise [TypeError], and the first entry whose resolution raises makes
    it raise that error.  The call does return when every entry is a
    string that resolves, the scan returns and the scanned paths
    resolve. *)
Theorem collect_keeps_every_entry_or_raises config entries :
  preferences config !! "repositories" = Some (PyList entries) →
  base_directory config ≠ "" →
  (∀ merged, _collect_repositories config = Ok merged →
     ∀ v, v ∈ entries →
          ∃ s q, v = PyStr s ∧ Path_resolve (Path_of_str s) = Ok q ∧ q ∈ merged) ∧
  (∀ v, v ∈ entries → (∀ s, v ≠ PyStr s) →
        _collect_repositories config = Raise TypeError) ∧
  (∀ scanned,
     scan_for_repositories (Path_of_str (base_directory config)) default_max_depth
       = Ok scanned →
     (∀ v, v ∈ entries → ∃ s q, v = PyStr s ∧ Path_resolve (Path_of_str s) = Ok q) →
     (∀ p, p ∈ scanned → ∃ q, Path_resolve p = Ok q) →
     ∃ merged, _collect_repositories config = Ok merged) ∧
  (∀ scanned before s after e,
     scan_for_repositories (Path_of_str (base_directory config)) default_max_depth
       = Ok scanned →
     entries = map PyStr (before ++ s :: after) →
     (∀ s', s' ∈ before → ∃ q, Path_resolve (Path_of_str s') = Ok q) →
     Path_resolve (Path_of_str s) = Raise e →
     _collect_repositories config = Raise e).
Proof.
  intros Hprefs Hbase. unfold _collect_repositories. rewrite Hprefs. cbn.
  rewrite bool_decide_true by done. split_and!.
  - intros merged.
    destruct (map_Exc Path_of entries) as [stored| |] eqn:Hstored; cbn; try done.
    destruct (scan_for_repositories _ _) as [scanned| |]; cbn; try done.
    intros Hmerge v Hv.
    destruct (merge_repositories_Ok_inv _ _ _ Hmerge) as [resolved Hres].
    rewrite (merge_repositories_spec _ _ _ Hres) in Hmerge. injection Hmerge as <-.
    apply map_Exc_Path_of_Ok in Hstored.
    apply list_elem_of_lookup in Hv as [i Hi].
    destruct (Forall2_lookup_l _ _ _ _ _ Hstored Hi) as (p & Hp & s & -> & ->).
    apply map_Exc_Ok_inv in Hres.
    destruct (Forall2_lookup_l _ _ _ i (Path_of_str s) Hres) as (q & Hq & Hpq).
    { by apply lookup_app_l_Some. }
    exists s, q. split_and!; [done..|].
    unfold first_occurrences. apply elem_of_first_occurrences_after.
    split; [by eapply list_elem_of_lookup_2|by intros ?%elem_of_nil].
  - intros v Hv Hbad. by rewrite (map_Exc_Path_of_TypeError _ _ Hv Hbad).
  - intros scanned -> Hentries Hscanned.
    assert (∃ stored, map_Exc Path_of entries = Ok stored ∧
              ∀ p, p ∈ stored → ∃ q, Path_resolve p = Ok q) as (stored & -> & Hstored).
    { clear Hprefs. induction entries as [|v entries IH].
      - exists []. split; [done|]. by intros ? ?%elem_of_nil.
      - destruct IH as (stored & Hs & Hall); [by intros; apply Hentries; right|].
        destruct (Hentries v) as (s & q & -> & Hq); [left|].
        exists (Path_of_str s :: stored). cbn. rewrite Hs. split; [done|].
        intros p [->|?]%elem_of_cons; eauto. }
    cbn.
    assert (∀ l, (∀ p, p ∈ l → ∃ q, Path_resolve p = Ok q) →
              ∃ r, map_Exc Path_resolve l = Ok r) as Hall.
    { induction l as [|p l IH]; intros Hl; [by exists []|].
      destruct IH as [r Hr]; [by intros; apply Hl; right|].
      destruct (Hl p) as [q Hq]; [left|]. exists (q :: r). cbn. by rewrite Hq, Hr. }
    destruct (Hall (stored ++ scanned)) as [r Hr].
    { intros p [?|?]%elem_of_app; auto. }
    eexists. by apply merge_repositories_spec.
  - intros scanned before s after e -> -> Hbefore Hs.
    rewrite map_Exc_Path_of_strings. cbn. unfold merge_repositories.
    rewrite fmap_app, fmap_cons, <- app_assoc, <- app_comm_cons.
    rewrite (merge_loop_raises _ _ _ e); [done| |done].
    intros p [s' [-> Hs']]%list_elem_of_fmap. auto.
Qed.
End CollectTheorems.

Section GitManagerTheorems.
Context `{GitCapability}.
Variable splitlines : string → list string.

Lemma loaded_repo_opens path r :
  Repo_new path = Ok r →
  loaded_repo (GitManager_init path) = (Ok r, mkGitManager path (Some r)).
Proof.
  intros Hnew. unfold loaded_repo, mbind, M_bind, bind_M, get_M, load, try_except. cbn.
  by rewrite Hnew.
Qed.

Lemma loaded_repo_fails path e :
  Repo_new path = Raise e →
  loaded_repo (GitManager_init path)
  = (Raise (if decide (e = InvalidGitRepositoryError) then ValueError else e),
     GitManager_init path).
Proof.
  intros Hnew. unfold loaded_repo, mbind, M_bind, bind_M, get_M, load, try_except. cbn.
  rewrite Hnew. by destruct (decide (e = InvalidGitRepositoryError)).
Qed.

(** C4, amended.  [load] turns [InvalidGitRepositoryError] into
    [ValueError].  Once the repository opens, [list_status] alone
    degrades, and only on [GitCommandError], to the empty list;
    [is_dirty], [list_branches] and [current_branch] return what
    GitPython returns and raise what it raises, as [list_status] does for
    any other error. *)
Theorem aggregator_degrades_only_status path :
  (Repo_new path = Raise InvalidGitRepositoryError →
   (load (GitManager_init path)).1 = Raise ValueError) ∧
  (∀ r, Repo_new path = Ok r →
        (load (GitManager_init path)).1 = Ok tt ∧
        (is_dirty (GitManager_init path)).1 = Repo_is_dirty r true ∧
        (list_branches (GitManager_init path)).1 = Repo_branches r ∧
        (current_branch (GitManager_init path)).1 = Repo_active_branch r ∧
        (Repo_git_status r = Raise GitCommandError →
         (list_status splitlines (GitManager_init path)).1 = Ok []) ∧
        (∀ out, Repo_git_status r = Ok out →
                (list_status splitlines (GitManager_init path)).1 = Ok (splitlines out)) ∧
        (∀ e, e ≠ GitCommandError → Repo_git_status r = Raise e →
              (list_status splitlines (GitManager_init path)).1 = Raise e)).
Proof.
  split.
  - intros He. unfold load, try_except. cbn. by rewrite He.
  - intros r Hr.
    unfold is_dirty, list_branches, current_branch, list_status, mbind, M_bind, bind_M.
    rewrite (loaded_repo_opens path r Hr). unfold lift_M. cbn.
    split_and!; try done.
    + unfold load, try_except. cbn. by rewrite Hr.
    + by intros ->.
    + by intros out ->.
    + intros e He ->. cbn. by rewrite decide_False.
Qed.

(** When GitPython rejects the path as an invalid repository, every
    query raises [ValueError] and leaves the manager as it was. *)
Lemma invalid_repository_raises_ValueError path :
  Repo_new path = Raise InvalidGitRepositoryError →
  load (GitManager_init path) = (Raise ValueError, GitManager_init path) ∧
  is_dirty (GitManager_init path) = (Raise ValueError, GitManager_init path) ∧
  list_branches (GitManager_init path) = (Raise ValueError, GitManager_init path) ∧
  current_branch (GitManager_init path) = (Raise ValueError, GitManager_init path) ∧
  list_status splitlines (GitManager_init path) = (Raise ValueError, GitManager_init path) ∧
  status_query splitlines path = (Raise ValueError, GitManager_init path).
Proof.
  intros Hnew. pose proof (loaded_repo_fails path _ Hnew) as Hload. cbn in Hload.
  unfold status_query, is_dirty, list_branches, current_branch, list_status,
    mbind, M_bind, bind_M.
  rewrite Hload. split_and!; try done.
  unfold load, try_except. cbn. by rewrite Hnew.
Qed.
End GitManagerTheorems.

(** ** The example disk *)

Section TreeFacts.
Import TreeFS.

Lemma find_entry_elem_of n entries nd :
  find_entry n entries = Some nd → (n, nd) ∈ entries.
Proof.
  induction entries as [|[n' nd'] entries IH]; cbn; [done|].
  destruct (decide (n = n')) as [->|_]; [intros [= ->]; left|right; auto].
Qed.

Lemma descend_all_readable comps : ∀ nd nd',
  all_readable nd = true → descend nd comps = Some nd' → all_readable nd' = true.
Proof.
  induction comps as [|c comps IH]; intros nd nd' Hnd; cbn; [by intros [= <-]|].
  destruct nd as [|readable entries|]; try done.
  destruct (find_entry c entries) as [child|] eqn:Hchild; [|done].
  apply IH. cbn in Hnd. apply andb_true_iff in Hnd as [_ Hall].
  rewrite forallb_forall in Hall.
  apply find_entry_elem_of, list_elem_of_In in Hchild. apply (Hall _ Hchild).
Qed.

(** On a disk whose directories can all be read, visiting a directory
    raises nothing. *)
Lemma tree_undisturbed disk cwd p :
  all_readable disk = true →
  @Path_is_dir (fs disk cwd) p = Ok true →
  @undisturbed (fs disk cwd) p.
Proof.
  intros Hdisk Hdir. unfold undisturbed, is_git_repository. cbn.
  unfold is_dir at 1. eexists. split; [done|]. intros _.
  cbn in Hdir. unfold is_dir in Hdir. unfold listdir.
  destruct (stat disk cwd p) as [[|readable entries|]|] eqn:Hstat; try done.
  assert (readable = true) as ->.
  { unfold stat in Hstat.
    destruct (descend disk _) as [nd|] eqn:Hdesc; [|done].
    apply descend_all_readable in Hdesc; [|done].
    destruct nd; try done. injection Hstat as -> ->.
    cbn in Hdesc. by apply andb_true_iff in Hdesc as [-> _]. }
  eexists. split; [done|]. intros n _. unfold is_dir. eauto.
Qed.
End TreeFacts.

Section ReachFacts.
Context `{FileSystem}.

Lemma reaches_is_dir base d p :
  reaches base d p → Path_is_dir base = Ok true → Path_is_dir p = Ok true.
Proof.
  induction 1 as [p|k p c q Hchild _ IH]; [done|]. intros _. apply IH.
  by destruct Hchild as (_ & names & n & _ & _ & -> & ? & _).
Qed.
End ReachFacts.

Import Examples.

Lemma tidy_undisturbed base (d : nat) p :
  @Path_is_dir tidy base = Ok true → @reaches tidy base d p → @undisturbed tidy p.
Proof.
  intros Hbase Hreach. apply tree_undisturbed; [done|].
  by eapply (@reaches_is_dir tidy).
Qed.

(** ** The code on the examples *)

(** The merge on the example disk: a stored link and a stored repository,
    merged with a scan that finds both again and one more. *)
Lemma merge_keeps_first_occurrences_witness :
  @map_Exc _ _ (@Path_resolve tidy) [repo_link; repo_b] = Ok [repo_sub; repo_b] ∧
  @map_Exc _ _ (@Path_resolve tidy) [repo_a; repo_b; repo_link]
    = Ok [repo_a; repo_b; repo_sub] ∧
  ∃ merged,
    @merge_repositories tidy [repo_link; repo_b] [repo_a; repo_b; repo_link] = Ok merged ∧
    merged = first_occurrences ([repo_sub; repo_b] ++ [repo_a; repo_b; repo_sub]) ∧
    merged `sublist_of` [repo_sub; repo_b] ++ [repo_a; repo_b; repo_sub] ∧
    merged = first_occurrences [repo_sub; repo_b]
             ++ filter (λ q, q ∉ [repo_sub; repo_b])
                       (first_occurrences [repo_a; repo_b; repo_sub]) ∧
    NoDup merged ∧
    (∀ q, q ∈ merged ↔ q ∈ [repo_sub; repo_b] ∨ q ∈ [repo_a; repo_b; repo_sub]) ∧
    (∀ i q, first_occurrences [repo_sub; repo_b] !! i = Some q → merged !! i = Some q) ∧
    (NoDup [repo_sub; repo_b] → take (length [repo_sub; repo_b]) merged = [repo_sub; repo_b]).
Proof.
  split; [reflexivity|]. split; [reflexivity|].
  apply (@merge_keeps_first_occurrences tidy); reflexivity.
Defined.

Example merge_example :
  @merge_repositories tidy [repo_link; repo_b] [repo_a; repo_b; repo_link]
  = Ok [repo_sub; repo_b; repo_a].
Proof. reflexivity. Qed.

(** The scan of [/srv/base] on the example disk, where every directory
    can be read. *)
Lemma scan_finds_exactly_within_depth_witness :
  @Path_exists tidy base = Ok true ∧
  @Path_resolve tidy base = Ok base ∧
  ∃ repos,
    @scan_for_repositories tidy base 2 = Ok repos ∧
    (∀ p, p ∈ repos ↔
          ∃ d : nat, Z.of_nat d ≤ 2 ∧ @reaches tidy base d p ∧
                     @is_git_repository tidy p = Ok true) ∧
    (∀ p, p ∈ repos → p = base ∨ startswith (name p) "." = false) ∧
    (∀ p (d : nat), p ∈ repos → @reaches tidy base d p → Z.of_nat d ≤ 2) ∧
    (∀ p, p ∈ @scan_visited tidy base 2 ↔
          ∃ d : nat, Z.of_nat d ≤ 2 ∧ @reaches tidy base d p) ∧
    (∀ p (d : nat), p ∈ @scan_visited tidy base 2 → @reaches tidy base d p →
                    Z.of_nat d ≤ 2).
Proof.
  split; [reflexivity|]. split; [reflexivity|].
  apply (@scan_finds_exactly_within_depth tidy base 2 base); [reflexivity..|].
  intros d p Hreach _. exact (tidy_undisturbed base d p eq_refl Hreach).
Defined.

(** [/srv/base/.stash] is a repository at depth 1 below a base that is
    neither hidden nor a repository, and the scan does not return it. *)
Lemma scan_skips_hidden_repository :
  @is_git_repository tidy base = Ok false ∧
  (∃ names, @os_listdir tidy base = Ok names ∧ ".stash" ∈ names) ∧
  @Path_is_dir tidy (base // ".stash") = Ok true ∧
  @is_git_repository tidy (base // ".stash") = Ok true ∧
  ∃ repos, @scan_for_repositories tidy base 2 = Ok repos ∧ base // ".stash" ∉ repos.
Proof.
  split; [reflexivity|]. split.
  { eexists. split; [reflexivity|]. apply (bool_decide_unpack _). vm_compute. exact I. }
  split; [reflexivity|]. split; [reflexivity|].
  eexists. split; [reflexivity|]. apply (bool_decide_unpack _). vm_compute. exact I.
Qed.

Example scan_example :
  @scan_for_repositories tidy base 2 = Ok [repo_a; repo_b; repo_link] ∧
  @scan_for_repositories tidy base 3
  = Ok [repo_a; repo_b; Path_of_str "/srv/base/c/d/e"; repo_link] ∧
  @scan_for_repositories tidy base 0 = Ok [] ∧
  @scan_for_repositories tidy (Path_of_str "/srv/missing") 2 = Ok [].
Proof. repeat split; reflexivity. Qed.

(** The repository [a], which holds the working tree [a/sub]. *)
Lemma scan_never_enters_repository_witness :
  repo_a ∈ @scan_visited tidy base 2 ∧
  @is_git_repository tidy repo_a = Ok true ∧
  (∀ q, descendant_of q repo_a → q ∉ @scan_visited tidy base 2) ∧
  (∀ repos, @scan_for_repositories tidy base 2 = Ok repos →
            repo_a ∈ repos ∧ ∀ q, descendant_of q repo_a → q ∉ repos).
Proof.
  assert (repo_a ∈ @scan_visited tidy base 2) as Hvisited.
  { apply (bool_decide_unpack _). vm_compute. exact I. }
  split; [exact Hvisited|]. split; [reflexivity|].
  apply (@scan_never_enters_repository tidy base 2 repo_a Hvisited). reflexivity.
Defined.

(** [/srv/base/link] leads to [a/sub], a working tree inside the recorded
    repository [a]: the scan follows the link and returns it. *)
Lemma scan_returns_nested_tree_through_link :
  @scan_for_repositories tidy base 2 = Ok [repo_a; repo_b; repo_link] ∧
  @is_git_repository tidy repo_a = Ok true ∧
  @Path_resolve tidy repo_link = Ok repo_sub ∧
  descendant_of repo_sub repo_a ∧
  @is_git_repository tidy repo_sub = Ok true.
Proof.
  split_and!; try reflexivity.
  split; [reflexivity|]. by exists ["sub"].
Qed.

(** Merging the result of a merge with the scanned paths again. *)
Lemma merge_idempotent_witness :
  @merge_repositories tidy [repo_link; repo_b] [repo_a; repo_link]
    = Ok [repo_sub; repo_b; repo_a] ∧
  @merge_repositories tidy [repo_sub; repo_b; repo_a] [repo_a; repo_link]
    = Ok [repo_sub; repo_b; repo_a] ∧
  @merge_repositories tidy [repo_sub; repo_b; repo_a] [repo_sub; repo_b; repo_a]
    = Ok [repo_sub; repo_b; repo_a] ∧
  ∀ part, (∀ p, p ∈ part → p ∈ [repo_sub; repo_b; repo_a]) →
          @merge_repositories tidy [repo_sub; repo_b; repo_a] part
          = Ok [repo_sub; repo_b; repo_a].
Proof.
  split; [reflexivity|].
  apply (@merge_idempotent tidy [repo_link; repo_b] [repo_a; repo_link]); [|reflexivity].
  assert (Forall (λ p, ∀ q, @Path_resolve tidy p = Ok q → @Path_resolve tidy q = Ok q)
            ([repo_link; repo_b] ++ [repo_a; repo_link])) as Hall.
  { repeat constructor; intros q Hq; injection Hq as <-; reflexivity. }
  intros p q Hp. exact (proj1 (Forall_forall _ _) Hall p Hp q).
Defined.


Example scan_dotted_base_example :
  @scan_for_repositories tidy dotfiles 2 = Ok [dotfiles].
Proof. reflexivity. Qed.

(** A directory that cannot be listed makes the scan raise, and a link to
    a working tree is followed and reported. *)
Lemma scan_raises_on_unreadable_directory :
  @Path_is_dir locked (base // "locked") = Ok true ∧
  @os_listdir locked (base // "locked") = Raise PermissionError ∧
  @scan_for_repositories locked base 2 = Raise PermissionError ∧
  TreeFS.descend tidy_disk (tail repo_link) = Some (TreeFS.Link (tail repo_sub)) ∧
  @scan_for_repositories tidy base 2 = Ok [repo_a; repo_b; repo_link].
Proof. repeat split; reflexivity. Qed.

(** The scan of the disk with the unreadable directory. *)
Lemma scan_returns_iff_undisturbed_witness :
  @Path_exists locked base = Ok true ∧
  @Path_resolve locked base = Ok base ∧
  ((∃ repos, @scan_for_repositories locked base 2 = Ok repos) ↔
   (∀ (d : nat) p, @reaches locked base d p → Z.of_nat d ≤ 2 → @undisturbed locked p)) ∧
  ((∀ p, @Path_is_dir locked p ≠ Diverged) → (∀ p, @os_listdir locked p ≠ Diverged) →
   ¬ (∀ (d : nat) p, @reaches locked base d p → Z.of_nat d ≤ 2 → @undisturbed locked p) →
   ∃ e, @scan_for_repositories locked base 2 = Raise e) ∧
  ((∀ (d : nat) p, @reaches locked base d p → Z.of_nat d ≤ 2 → @undisturbed locked p) →
   ∀ (d : nat) p names n,
     @reaches locked base d p → Z.of_nat d + 1 ≤ 2 →
     @is_git_repository locked p = Ok false →
     @os_listdir locked p = Ok names → n ∈ names →
     @Path_is_dir locked (p // n) = Ok true → startswith n "." = false →
     p // n ∈ @scan_visited locked base 2).
Proof.
  split; [reflexivity|]. split; [reflexivity|].
  apply (@scan_returns_iff_undisturbed locked base 2 base); reflexivity.
Defined.

(** A number among the stored entries aborts the start-up merge. *)
Lemma collect_raises_on_malformed_entry :
  @_collect_repositories tidy (config_with "/srv/base" [PyStr "/srv/base/x/b"; PyInt 5])
  = Raise TypeError.
Proof. reflexivity. Qed.

(** A stored link and a stored path that no longer exists: both are kept,
    resolved. *)
Lemma collect_keeps_every_entry_or_raises_witness :
  let config := config_with "/srv/base" [PyStr "/srv/base/link"; PyStr "/gone"] in
  let entries := [PyStr "/srv/base/link"; PyStr "/gone"] in
  preferences config !! "repositories" = Some (PyList entries) ∧
  base_directory config ≠ "" ∧
  (∀ merged, @_collect_repositories tidy config = Ok merged →
     ∀ v, v ∈ entries →
          ∃ s q, v = PyStr s ∧ @Path_resolve tidy (Path_of_str s) = Ok q ∧ q ∈ merged) ∧
  (∀ v, v ∈ entries → (∀ s, v ≠ PyStr s) →
        @_collect_repositories tidy config = Raise TypeError) ∧
  (∀ scanned,
     @scan_for_repositories tidy (Path_of_str (base_directory config)) default_max_depth
       = Ok scanned →
     (∀ v, v ∈ entries → ∃ s q, v = PyStr s ∧ @Path_resolve tidy (Path_of_str s) = Ok q) →
     (∀ p, p ∈ scanned → ∃ q, @Path_resolve tidy p = Ok q) →
     ∃ merged, @_collect_repositories tidy config = Ok merged) ∧
  (∀ scanned before s after e,
     @scan_for_repositories tidy (Path_of_str (base_directory config)) default_max_depth
       = Ok scanned →
     entries = map PyStr (before ++ s :: after) →
     (∀ s', s' ∈ before → ∃ q, @Path_resolve tidy (Path_of_str s') = Ok q) →
     @Path_resolve tidy (Path_of_str s) = Raise e →
     @_collect_repositories tidy config = Raise e).
Proof.
  cbv zeta. split; [reflexivity|]. split; [done|].
  apply (@collect_keeps_every_entry_or_raises tidy); [reflexivity|done].
Defined.

Example collect_example :
  @_collect_repositories tidy (config_with "/srv/base" [PyStr "/srv/base/link"; PyStr "/gone"])
  = Ok [repo_sub; gone; repo_a; repo_b].
Proof. reflexivity. Qed.

(** The tests of the repository, run on the model:
    [test_scan_for_repositories_discovers_git_directories] and
    [test_scan_for_repositories_handles_missing_directory]. *)
Example test_scan_for_repositories :
  (∃ discovered,
     @scan_for_repositories tests (Path_of_str "/tmp/scanner") 2 = Ok discovered ∧
     Path_of_str "/tmp/scanner/repo_a" ∈ discovered ∧
     Path_of_str "/tmp/scanner/nested/repo_nested" ∈ discovered ∧
     length discovered = 2%nat) ∧
  @scan_for_repositories tests (Path_of_str "/tmp/scanner/missing") default_max_depth
  = Ok [].
Proof.
  split; [|reflexivity]. eexists. split; [reflexivity|].
  split; [|split; [|reflexivity]]; apply (bool_decide_unpack _); vm_compute; exact I.
Qed.

(** [test_collect_repositories_merges_and_deduplicates] and
    [test_collect_repositories_without_base_directory], the latter on a
    disk where [/tmp] is a plain directory. *)
Example test_collect_repositories :
  (∃ result,
     @_collect_repositories tests (config_with "/tmp/collect" [PyStr "/tmp/collect/stored"])
       = Ok result ∧
     Ok <$> head result = Some (@Path_resolve tests (Path_of_str "/tmp/collect/stored")) ∧
     Path_of_str "/tmp/collect/scanned" ∈ result ∧
     length result = 2%nat) ∧
  (result ← @_collect_repositories tests (config_with "" [PyStr "/tmp/example"]);
   expected ← @Path_resolve tests (Path_of_str "/tmp/example");
   Ok (bool_decide (result = [expected]))) = Ok true.
Proof.
  split; [|reflexivity]. eexists. split; [reflexivity|].
  split; [reflexivity|]. split; [|reflexivity].
  apply (bool_decide_unpack _). vm_compute. exact I.
Qed.

(** C5.  The code at inputs where the set it produces holds two entries
    with one canonical path: without a base directory the persisted list
    is returned as stored, neither resolved nor filtered (a link next to
    its target, or an entry stored twice); [_on_add_repo] compares the
    chosen path unresolved, so it appends a link to a listed repository;
    and a rescan after start-up, which merges without resolving, appends
    the link that start-up had replaced by its target.  Last, the
    assertion of [test_collect_repositories_without_base_directory] fails
    on a disk where [/tmp] is a link. *)
Theorem collect_without_base_keeps_duplicates :
  @_collect_repositories tidy (config_with "" [PyStr "/srv/base/a/sub"; PyStr "/srv/base/link"])
    = Ok [repo_sub; repo_link] ∧
  @Path_resolve tidy repo_sub = @Path_resolve tidy repo_link ∧
  @_collect_repositories tidy (config_with "" [PyStr "/srv/base/a"; PyStr "/srv/base/a"])
    = Ok [repo_a; repo_a] ∧
  repos (_on_add_repo "/srv/base/link"
           (mkMainWindow (config_with "/srv/base" [PyStr "/srv/base/a/sub"]) [repo_sub]))
    = [repo_sub; repo_link] ∧
  @_collect_repositories tidy (config_with "/srv/base" []) = Ok [repo_a; repo_b; repo_sub] ∧
  repos (@_on_rescan_repositories tidy
           (mkMainWindow (config_with "/srv/base" []) [repo_a; repo_b; repo_sub])).2
    = [repo_a; repo_b; repo_sub; repo_link] ∧
  (result ← @_collect_repositories linked_tmp (config_with "" [PyStr "/tmp/example"]);
   expected ← @Path_resolve linked_tmp (Path_of_str "/tmp/example");
   Ok (bool_decide (result = [expected]))) = Ok false.
Proof. repeat split; reflexivity. Qed.

(** The repository opens, and [current_branch] raises on a detached
    [HEAD]. *)
Lemma current_branch_raises_when_detached :
  (@load (tidy_git detached) (GitManager_init repo_a)).1 = Ok tt ∧
  (@current_branch (tidy_git detached) (GitManager_init repo_a)).1 = Raise TypeError.
Proof. split; reflexivity. Qed.

(** A repository whose status command fails: the listing is empty, the
    dirty flag is still answered. *)
Lemma aggregator_degrades_only_status_witness :
  @Repo_new (tidy_git broken_status) repo_a = Ok repo_a ∧
  @Repo_git_status (tidy_git broken_status) repo_a = Raise GitCommandError ∧
  (@list_status (tidy_git broken_status) lines_of (GitManager_init repo_a)).1 = Ok [] ∧
  (@is_dirty (tidy_git broken_status) (GitManager_init repo_a)).1 = Ok true.
Proof.
  split; [reflexivity|]. split; [reflexivity|].
  destruct (@aggregator_degrades_only_status (tidy_git broken_status) lines_of repo_a)
    as [_ Hopen].
  destruct (Hopen repo_a eq_refl) as (_ & Hdirty & _ & _ & Hstatus & _).
  split; [exact (Hstatus eq_refl)|exact Hdirty].
Defined.

(** C9.  The code at a path that does not exist: GitPython raises
    [NoSuchPathError], which [load] does not turn into [ValueError], so
    the queries raise [NoSuchPathError]; the manager is left as it was.
    A directory without [.git] does give [ValueError], and a repository a
    snapshot. *)
Theorem status_of_missing_path_raises_NoSuchPathError :
  @Path_exists tidy gone = Ok false ∧
  @is_dirty (tidy_git on_main) (GitManager_init gone)
    = (Raise NoSuchPathError, GitManager_init gone) ∧
  @status_query (tidy_git on_main) lines_of gone
    = (Raise NoSuchPathError, GitManager_init gone) ∧
  @status_query (tidy_git on_main) lines_of base
    = (Raise ValueError, GitManager_init base) ∧
  (@status_query (tidy_git on_main) lines_of repo_a).1
    = Ok (mkStatusSnapshot false ["main"] []).
Proof. repeat split; reflexivity. Qed.

(** * Further properties *)

(** ** Paths and their strings *)

Lemma split_on_no_sep sep s : has_char sep s = false → split_on sep s = [s].
Proof.
  induction s as [|c s IH]; cbn; [done|].
  intros [Hc Hs]%orb_false_elim. rewrite Hc, IH; done.
Qed.

Lemma split_on_app sep x rest :
  has_char sep x = false →
  split_on sep (x +:+ String sep rest) = x :: split_on sep rest.
Proof.
  induction x as [|c x IH]; unfold String.append; fold String.append; cbn.
  - intros _. by rewrite Ascii.eqb_refl.
  - intros [Hc Hx]%orb_false_elim. by rewrite Hc, IH.
Qed.

Lemma split_on_has_char sep s w : w ∈ split_on sep s → has_char sep w = false.
Proof.
  revert w. induction s as [|c s IH]; cbn; intros w.
  - by intros ->%list_elem_of_singleton.
  - destruct (Ascii.eqb c sep) eqn:Hc.
    + intros [->|Hw]%elem_of_cons; [done|by apply IH].
    + destruct (split_on sep s) as [|w0 ws].
      * intros ->%list_elem_of_singleton. cbn. by rewrite Hc.
      * intros [->|Hw]%elem_of_cons.
        -- cbn. rewrite Hc. apply IH. by left.
        -- apply IH. by right.
Qed.

Lemma split_on_concat t :
  t ≠ [] → Forall (λ c, has_char slash c = false) t →
  split_on slash (String.concat "/" t) = t.
Proof.
  induction t as [|x t IH]; [done|]. intros _ Hall.
  apply Forall_cons in Hall as [Hx Hall].
  destruct t as [|y t]; [by apply split_on_no_sep|].
  change (String.concat "/" (x :: y :: t))
    with (x +:+ String slash (String.concat "/" (y :: t))).
  rewrite split_on_app by done. by rewrite IH.
Qed.

Lemma splitroot_relative c s :
  Ascii.eqb c slash = false → splitroot (String c s) = ("", String c s).
Proof. intros Hc. destruct s as [|c2 [|c3 s]]; cbn; by rewrite Hc. Qed.

Lemma splitroot_one_slash c s :
  Ascii.eqb c slash = false → splitroot (String slash (String c s)) = ("/", String c s).
Proof. intros Hc. destruct s as [|c3 s]; cbn; by rewrite Hc. Qed.

Lemma splitroot_two_slashes c s :
  Ascii.eqb c slash = false →
  splitroot (String slash (String slash (String c s))) = ("//", String c s).
Proof. intros Hc. cbn. by rewrite Hc. Qed.

Lemma splitroot_root s : (splitroot s).1 ∈ [""; "/"; "//"].
Proof.
  destruct s as [|c1 [|c2 [|c3 s]]]; cbn; repeat case_match; cbn; set_solver.
Qed.

Lemma concat_components_head x t :
  component x → ∃ c s, String.concat "/" (x :: t) = String c s ∧ Ascii.eqb c slash = false.
Proof.
  intros (Hne & _ & Hslash). destruct x as [|c x]; [done|].
  cbn in Hslash. apply orb_false_elim in Hslash as [Hc _].
  destruct t as [|y t]; cbn; eauto.
Qed.

Lemma filter_components t :
  Forall component t → filter (λ x, x ≠ "" ∧ x ≠ ".") t = t.
Proof.
  induction 1 as [|x t (? & ? & _) _ IH]; [done|].
  rewrite filter_cons_True by done. by rewrite IH.
Qed.

(** [Path(str(p)) == p] *)
Lemma Path_of_str_Path_str p : parsed p → Path_of_str (Path_str p) = p.
Proof.
  destruct p as [r t]. intros [Hroot Hcomps]. cbn in Hroot, Hcomps.
  assert (Forall (λ c, has_char slash c = false) t) as Hslash.
  { eapply Forall_impl; [done|]. by intros c (_ & _ & ?). }
  destruct t as [|x t].
  { apply elem_of_cons in Hroot as [->|Hroot]; [done|].
    apply elem_of_cons in Hroot as [->|Hroot]; [done|].
    apply list_elem_of_singleton in Hroot as ->. done. }
  assert (component x) as Hx by by apply Forall_cons in Hcomps as [? _].
  destruct (concat_components_head x t Hx) as (c & s & Hcat & Hc).
  assert (filter (λ x, x ≠ "" ∧ x ≠ ".") (split_on slash (String c s)) = x :: t) as Htail.
  { rewrite <- Hcat, split_on_concat by done. by apply filter_components. }
  unfold Path_of_str, Path_str. cbn [root tail].
  apply elem_of_cons in Hroot as [->|Hroot];
    [|apply elem_of_cons in Hroot as [->|Hroot];
      [|apply list_elem_of_singleton in Hroot as ->]].
  - change ("" +:+ String.concat "/" (x :: t)) with (String.concat "/" (x :: t)).
    rewrite Hcat, splitroot_relative by done. by rewrite Htail.
  - change ("/" +:+ String.concat "/" (x :: t))
      with (String slash (String.concat "/" (x :: t))).
    rewrite Hcat, splitroot_one_slash by done. by rewrite Htail.
  - change ("//" +:+ String.concat "/" (x :: t))
      with (String slash (String slash (String.concat "/" (x :: t)))).
    rewrite Hcat, splitroot_two_slashes by done. by rewrite Htail.
Qed.

Lemma Path_of_str_parsed s : parsed (Path_of_str s).
Proof.
  unfold Path_of_str. pose proof (splitroot_root s) as Hroot.
  destruct (splitroot s) as [r rel]. split; [done|]. cbn.
  apply Forall_forall. intros c [[Hne Hdot] Hc%split_on_has_char]%list_elem_of_filter.
  done.
Qed.

Lemma map_Path_of_str_Path_str l :
  Forall parsed l → map Path_of_str (map Path_str l) = l.
Proof.
  induction 1 as [|p l Hp _ IH]; [done|]. cbn. by rewrite Path_of_str_Path_str, IH.
Qed.

(** ** The repository list of the main window *)

Lemma dict_fromkeys_first_occurrences l : dict_fromkeys l = first_occurrences l.
Proof.
  unfold dict_fromkeys, first_occurrences.
  assert (∀ d, foldl (λ d key, if decide (key ∈ d) then d else d ++ [key]) d l =
               d ++ first_occurrences_after d l) as Hgen; [|apply (Hgen [])].
  induction l as [|x l IH]; intros d.
  - by rewrite first_occurrences_after_nil, app_nil_r.
  - cbn [foldl]. rewrite IH, first_occurrences_after_cons.
    destruct (decide (x ∈ d)) as [Hx|Hx]; cbn [app].
    + f_equal. apply first_occurrences_after_ext. intros q. rewrite elem_of_app.
      set_solver.
    + by rewrite <- app_assoc.
Qed.

Lemma first_occurrences_after_absorbed before l :
  (∀ q, q ∈ l → q ∈ before) → first_occurrences_after before l = [].
Proof.
  intros Hin. apply elem_of_nil_inv. intros q.
  rewrite elem_of_first_occurrences_after. naive_solver.
Qed.

Lemma first_occurrences_split l s :
  first_occurrences (l ++ s) =
  first_occurrences l ++ filter (λ q, q ∉ l) (first_occurrences s).
Proof.
  unfold first_occurrences. rewrite first_occurrences_after_app. f_equal.
  by rewrite <- first_occurrences_after_filter.
Qed.

Lemma elem_of_first_occurrences l q : q ∈ first_occurrences l ↔ q ∈ l.
Proof. unfold first_occurrences. rewrite elem_of_first_occurrences_after. set_solver. Qed.

Lemma first_occurrences_absorb l s :
  first_occurrences (first_occurrences (l ++ s) ++ s) = first_occurrences (l ++ s).
Proof.
  unfold first_occurrences at 1. rewrite first_occurrences_after_app.
  rewrite (first_occurrences_after_absorbed _ s), app_nil_r.
  - apply first_occurrences_NoDup_id, NoDup_first_occurrences_after.
  - intros q Hq. cbn [app]. rewrite elem_of_first_occurrences, elem_of_app. by right.
Qed.

Lemma _persist_repositories_again c l l' :
  _persist_repositories (mkMainWindow (config (_persist_repositories (mkMainWindow c l))) l') =
  _persist_repositories (mkMainWindow c l').
Proof. unfold _persist_repositories. cbn. by rewrite insert_insert_eq. Qed.

Lemma _persist_repositories_base self :
  base_directory (config (_persist_repositories self)) = base_directory (config self).
Proof. done. Qed.

Lemma _persist_repositories_repos self : repos (_persist_repositories self) = repos self.
Proof. done. Qed.

Lemma _persist_repositories_persisted self : persisted (_persist_repositories self).
Proof. unfold persisted, _persist_repositories. cbn. by rewrite lookup_insert_eq. Qed.

Lemma list_remove_spec x l :
  x ∈ l → ∃ before after, l = before ++ (x :: after) ∧ (x ∉ before) ∧
                          list_remove x l = Ok (before ++ after).
Proof.
  induction l as [|y l IH]; [by intros ?%elem_of_nil|].
  intros Hx. cbn [list_remove]. destruct (decide (y = x)) as [->|Hne].
  - exists [], l. split_and!; [done|apply not_elem_of_nil|done].
  - apply elem_of_cons in Hx as [->|Hx]; [done|].
    destruct (IH Hx) as (before & after & -> & Hbefore & ->).
    exists (y :: before), after. split_and!; [done| |done].
    rewrite not_elem_of_cons. split; [congruence|done].
Qed.

Lemma _on_remove_repo_spec current_item self :
  ∃ self', _on_remove_repo current_item self = (Ok tt, self') ∧
    (self' = self ∨
     ∃ data before after,
       current_item = Some data ∧
       repos self = before ++ (Path_of_str data :: after) ∧ (Path_of_str data ∉ before) ∧
       self' = _persist_repositories (mkMainWindow (config self) (before ++ after))).
Proof.
  unfold _on_remove_repo. destruct current_item as [data|]; [|eauto].
  case_bool_decide as Hin; [|eauto].
  destruct (list_remove_spec _ _ Hin) as (before & after & Hl & Hbefore & ->).
  eexists. split; [done|]. right. by exists data, before, after.
Qed.

Section WindowFacts.
Context `{FileSystem}.

Lemma _on_rescan_repositories_spec self :
  _on_rescan_repositories self = (Ok tt, self) ∨
  (∃ e, _on_rescan_repositories self = (Raise e, self)) ∨
  _on_rescan_repositories self = (Diverged, self) ∨
  ∃ scanned,
    base_directory (config self) ≠ "" ∧
    scan_for_repositories (Path_of_str (base_directory (config self)))
      default_max_depth = Ok scanned ∧
    _on_rescan_repositories self =
    (Ok tt, _persist_repositories
              (mkMainWindow (config self) (first_occurrences (repos self ++ scanned)))).
Proof.
  unfold _on_rescan_repositories. case_bool_decide as Hbase; [by left|].
  destruct (scan_for_repositories _ _) as [scanned|e|] eqn:Hscan.
  - do 3 right. exists scanned. by rewrite dict_fromkeys_first_occurrences.
  - right. left. by exists e.
  - by do 2 right; left.
Qed.
End WindowFacts.

Lemma _on_add_repo_spec directory self :
  (_on_add_repo directory self = self ∧
   (directory = "" ∨ Path_of_str directory ∈ repos self)) ∨
  (directory ≠ "" ∧ (Path_of_str directory ∉ repos self) ∧
   _on_add_repo directory self =
   _persist_repositories
     (mkMainWindow (config self) (repos self ++ [Path_of_str directory]))).
Proof.
  unfold _on_add_repo. case_bool_decide as Hdir; [left; split; [done|by left]|].
  cbn zeta. case_bool_decide as Hnew; [by right|]. left. split; [done|].
  right. by destruct (decide (Path_of_str directory ∈ repos self)).
Qed.

(** X1.  [_on_add_repo] only ever appends: the list before the call is a
    prefix of the list after it, which is longer by one entry at most;
    a list without repeated paths stays so; a directory that was chosen
    is listed afterwards; and choosing the same directory again changes
    nothing. *)
Theorem add_repo_only_appends directory self :
  repos self `prefix_of` repos (_on_add_repo directory self) ∧
  (length (repos (_on_add_repo directory self)) ≤ S (length (repos self)))%nat ∧
  (NoDup (repos self) → NoDup (repos (_on_add_repo directory self))) ∧
  (directory ≠ "" → Path_of_str directory ∈ repos (_on_add_repo directory self)) ∧
  _on_add_repo directory (_on_add_repo directory self) = _on_add_repo directory self.
Proof.
  destruct (_on_add_repo_spec directory self) as [[Hsame Hwhy]|(Hdir & Hnew & Hadd)].
  - rewrite !Hsame. split_and!; [done|lia|done|naive_solver|done].
  - rewrite Hadd. cbn [repos _persist_repositories]. split_and!.
    + by apply prefix_app_r.
    + rewrite length_app. cbn. lia.
    + intros Hnd. apply NoDup_app. split_and!; [done| |apply NoDup_singleton].
      intros q Hq ->%list_elem_of_singleton. done.
    + intros _. set_solver.
    + destruct (_on_add_repo_spec directory
                  (_persist_repositories
                     (mkMainWindow (config self) (repos self ++ [Path_of_str directory]))))
        as [[Hagain _]|(_ & Hout & _)]; [done|].
      contradict Hout. cbn. set_solver.
Qed.

(** X2.  In [_on_remove_repo], [list.remove] is only reached for a path
    that is in the list, so it returns and the list becomes what it
    returns; for a path that is not listed, and without a current item,
    the window stays as it is.  Whatever the current item, the call
    drops one entry at most and keeps the others in their order.  (The
    write of the file that ends the call is left aside.) *)
Theorem remove_repo_drops_at_most_one_entry current_item self :
  (∀ data, current_item = Some data → Path_of_str data ∈ repos self →
           ∃ repos', list_remove (Path_of_str data) (repos self) = Ok repos' ∧
                     repos (_on_remove_repo current_item self).2 = repos') ∧
  (∀ data, current_item = Some data → Path_of_str data ∉ repos self →
           (_on_remove_repo current_item self).2 = self) ∧
  (current_item = None → (_on_remove_repo current_item self).2 = self) ∧
  repos (_on_remove_repo current_item self).2 `sublist_of` repos self ∧
  (length (repos self) ≤ S (length (repos (_on_remove_repo current_item self).2)))%nat.
Proof.
  split_and!.
  - intros data -> Hin. unfold _on_remove_repo. rewrite bool_decide_true by done.
    destruct (list_remove_spec _ _ Hin) as (before & after & _ & _ & ->). by eexists.
  - intros data -> Hout. unfold _on_remove_repo. by rewrite bool_decide_false.
  - by intros ->.
  - destruct (_on_remove_repo_spec current_item self)
      as (self' & -> & [->|(data & before & after & _ & Hl & _ & ->)]); cbn; [done|].
    rewrite Hl. apply sublist_app; [done|]. by apply sublist_cons.
  - destruct (_on_remove_repo_spec current_item self)
      as (self' & -> & [->|(data & before & after & _ & Hl & _ & ->)]); cbn; [lia|].
    rewrite Hl, !length_app. cbn. lia.
Qed.

(** X3.  When the current item is one that [populate] made from the
    list, [_on_remove_repo] removes the first occurrence of the path the
    item shows, keeps every other entry in place and stores the new
    list: the path is recovered from the item's string. *)
Theorem remove_repo_drops_first_occurrence self data :
  Forall parsed (repos self) → data ∈ populate (repos self) →
  ∃ p before after,
    data = Path_str p ∧ repos self = before ++ p :: after ∧ (p ∉ before) ∧
    _on_remove_repo (Some data) self =
    (Ok tt, _persist_repositories (mkMainWindow (config self) (before ++ after))).
Proof.
  intros Hparsed (p & -> & Hp)%list_elem_of_fmap.
  assert (Path_of_str (Path_str p) = p) as Hback.
  { apply Path_of_str_Path_str. by eapply Forall_forall in Hparsed. }
  destruct (list_remove_spec _ _ Hp) as (before & after & Hl & Hbefore & Hremove).
  exists p, before, after. split_and!; [done..|].
  unfold _on_remove_repo. rewrite Hback, bool_decide_true by done. by rewrite Hremove.
Qed.

(** X4.  Adding a directory that is not listed and then removing the
    item that shows it gives back the list as it was, stored in the
    configuration. *)
Theorem add_then_remove_restores_list directory self :
  directory ≠ "" → Path_of_str directory ∉ repos self →
  _on_remove_repo (Some (Path_str (Path_of_str directory))) (_on_add_repo directory self) =
  (Ok tt, _persist_repositories self).
Proof.
  intros Hdir Hnew. unfold _on_add_repo.
  rewrite bool_decide_false, bool_decide_true by done.
  unfold _on_remove_repo.
  rewrite (Path_of_str_Path_str _ (Path_of_str_parsed directory)).
  assert (Path_of_str directory ∈ repos self ++ [Path_of_str directory]) as Hin.
  { set_solver. }
  cbn [repos _persist_repositories]. rewrite bool_decide_true by done.
  destruct (list_remove_spec _ _ Hin) as (before & after & Hl & Hbefore & ->).
  assert (before ++ after = repos self) as ->.
  { destruct after as [|q after _] using rev_ind.
    - rewrite app_nil_r. by apply app_inj_tail in Hl as [-> _].
    - rewrite app_comm_cons, app_assoc in Hl. apply app_inj_tail in Hl as [Hl <-].
      contradict Hnew. rewrite Hl. set_solver. }
  rewrite _persist_repositories_again. by destruct self.
Qed.

Section WindowTheorems.
Context `{FileSystem}.

Lemma window_step_spec self self' :
  window_step self self' →
  self' = self ∨ ∃ l, self' = _persist_repositories (mkMainWindow (config self) l).
Proof.
  destruct 1 as [directory self|current_item self|self].
  - destruct (_on_add_repo_spec directory self) as [[-> _]|(_ & _ & ->)]; eauto.
  - destruct (_on_remove_repo_spec current_item self)
      as (self' & -> & [->|(? & ? & ? & _ & _ & _ & ->)]); eauto.
  - destruct (_on_rescan_repositories_spec self)
      as [->|[[e ->]|[->|(scanned & _ & _ & ->)]]]; eauto.
Qed.

Lemma window_step_NoDup self self' :
  window_step self self' → NoDup (repos self) → NoDup (repos self').
Proof.
  intros Hstep Hnd.
  destruct Hstep as [directory self|current_item self|self].
  - destruct (_on_add_repo_spec directory self) as [[-> _]|(_ & Hnew & ->)]; [done|].
    cbn. apply NoDup_app. split_and!; [done| |apply NoDup_singleton].
    intros q Hq ->%list_elem_of_singleton. done.
  - destruct (_on_remove_repo_spec current_item self)
      as (mid & -> & [->|(? & before & after & _ & Hl & _ & ->)]); [done|]. cbn.
    rewrite Hl in Hnd. eapply sublist_NoDup; [done|].
    apply sublist_app; [done|]. by apply sublist_cons.
  - destruct (_on_rescan_repositories_spec self)
      as [->|[[e ->]|[->|(scanned & _ & _ & ->)]]]; try done. cbn.
    apply NoDup_first_occurrences_after.
Qed.

Lemma rtc_window_step_NoDup self self' :
  rtc window_step self self' → NoDup (repos self) → NoDup (repos self').
Proof.
  induction 1 as [self|self mid self' Hstep _ IH]; [done|].
  intros Hnd. by eapply IH, window_step_NoDup.
Qed.

(** X5.  No sequence of additions, removals and rescans makes the list
    of the window hold a path twice, when it did not before. *)
Theorem window_list_stays_duplicate_free self self' :
  rtc window_step self self' → NoDup (repos self) → NoDup (repos self').
Proof.
  intros Hsteps. induction Hsteps as [self|self mid self' Hstep _ IH]; [done|].
  intros Hnd. apply IH. revert Hnd. by apply window_step_NoDup.
Qed.

(** X6.  With a base directory configured, the list never holds a path
    twice: not the list [_collect_repositories] returns at start-up, and
    not the list of the window after any additions, removals and
    rescans that follow. *)
Theorem list_is_duplicate_free_from_start_up config listed self' :
  base_directory config ≠ "" →
  _collect_repositories config = Ok listed →
  rtc window_step (mkMainWindow config listed) self' →
  NoDup (repos self').
Proof.
  intros Hbase Hcollect Hsteps. apply (rtc_window_step_NoDup _ _ Hsteps). cbn.
  revert Hcollect. unfold _collect_repositories.
  destruct (py_iter _) as [entries| |]; cbn; try done.
  destruct (map_Exc Path_of entries) as [stored| |]; cbn; try done.
  rewrite bool_decide_true by done.
  destruct (scan_for_repositories _ _) as [scanned| |]; cbn; try done.
  intros Hmerge.
  destruct (merge_repositories_Ok_inv _ _ _ Hmerge) as [resolved Hresolved].
  rewrite (merge_repositories_spec _ _ _ Hresolved) in Hmerge.
  injection Hmerge as <-. apply NoDup_first_occurrences_after.
Qed.

(** X7.  Additions, removals and rescans change nothing of the
    configuration but [preferences["repositories"]]: every field and
    every other preference stays as it was.  Once the configuration
    holds the list the window shows, it does so after every further
    action. *)
Theorem window_actions_touch_only_the_stored_list self self' :
  rtc window_step self self' →
  base_directory (config self') = base_directory (config self) ∧
  auto_fetch_interval (config self') = auto_fetch_interval (config self) ∧
  default_theme (config self') = default_theme (config self) ∧
  last_active_repo (config self') = last_active_repo (config self) ∧
  git_user_name (config self') = git_user_name (config self) ∧
  git_user_email (config self') = git_user_email (config self) ∧
  (∀ key, key ≠ "repositories" →
          preferences (config self') !! key = preferences (config self) !! key) ∧
  (persisted self → persisted self').
Proof.
  induction 1 as [self|self mid self' Hstep _ IH]; [done|].
  destruct IH as (-> & -> & -> & -> & -> & -> & Hkeys & Hkept).
  destruct (window_step_spec _ _ Hstep) as [->|[l ->]]; [done|]. cbn.
  split_and!; try done.
  - intros key Hkey. rewrite Hkeys by done. cbn. by rewrite lookup_insert_ne.
  - intros _. apply Hkept, _persist_repositories_persisted.
Qed.

(** X8.  A rescan that succeeds keeps the listed paths at the front, in
    their order and each once, and appends the scanned paths that were
    not listed, in the order of the scan and each once; the result is
    stored in the configuration. *)
Theorem rescan_keeps_listed_and_appends_found self scanned :
  base_directory (config self) ≠ "" →
  scan_for_repositories (Path_of_str (base_directory (config self)))
    default_max_depth = Ok scanned →
  _on_rescan_repositories self =
  (Ok tt, _persist_repositories
            (mkMainWindow (config self)
               (first_occurrences (repos self) ++
                filter (λ q, q ∉ repos self) (first_occurrences scanned)))).
Proof.
  intros Hbase Hscan. unfold _on_rescan_repositories.
  rewrite bool_decide_false, Hscan by done.
  by rewrite dict_fromkeys_first_occurrences, first_occurrences_split.
Qed.

(** X9.  A rescan directly after a rescan changes nothing: two rescans
    in a row have the outcome of one and leave the window as one does,
    whether there is no base directory, the scan raises or the scan
    returns. *)
Theorem rescan_twice_is_rescan_once self :
  (_on_rescan_repositories;; _on_rescan_repositories) self =
  _on_rescan_repositories self.
Proof.
  unfold_M.
  destruct (_on_rescan_repositories_spec self)
    as [Hsame|[[e ->]|[->|(scanned & Hbase & Hscan & Hfirst)]]]; try done.
  - by rewrite Hsame, Hsame.
  - rewrite Hfirst. unfold _on_rescan_repositories at 1.
    rewrite !_persist_repositories_base, _persist_repositories_repos.
    cbn [config repos]. rewrite bool_decide_false, Hscan by done.
    rewrite dict_fromkeys_first_occurrences, first_occurrences_absorb.
    by rewrite (_persist_repositories_again (config self)).
Qed.

(** X10.  What [_persist_repositories] stores is read back by
    [_collect_repositories] as the list the window showed: with a base
    directory it is merged with the scan as the stored list, without one
    it is the result. *)
Theorem persisted_list_reads_back self :
  persisted self → Forall parsed (repos self) →
  _collect_repositories (config self) =
  if bool_decide (base_directory (config self) ≠ "") then
    scanned ← scan_for_repositories (Path_of_str (base_directory (config self)))
                                    default_max_depth;
    merge_repositories (repos self) scanned
  else Ok (repos self).
Proof.
  intros Hstored Hparsed. unfold persisted, persisted_entries in Hstored.
  rewrite <- (map_map Path_str PyStr) in Hstored.
  case_bool_decide as Hbase.
  - rewrite (_collect_repositories_merges _ _ Hstored Hbase).
    by rewrite map_Path_of_str_Path_str.
  - rewrite (_collect_repositories_no_base _ _ Hstored Hbase).
    by rewrite map_Path_of_str_Path_str.
Qed.
End WindowTheorems.

(** ** More about the scanner *)
Section ScannerMore.
Context `{FileSystem}.

(** A reached directory is the start followed by one visible name per
    level. *)
Lemma reaches_names base k p :
  reaches base k p →
  ∃ names, p = mkPath (root base) (tail base ++ names) ∧ length names = k ∧
           Forall (λ n, startswith n "." = false) names.
Proof.
  induction 1 as [p|k p c q Hchild _ IH].
  - exists []. rewrite app_nil_r. by destruct p.
  - destruct Hchild as (_ & listing & n & _ & _ & -> & _ & Hdot).
    destruct IH as (names & -> & <- & Hvisible).
    exists (n :: names). cbn. rewrite <- app_assoc. split_and!; [done|done|].
    by constructor.
Qed.

(** What a scan that returned found, in terms of the disk. *)
Lemma scan_for_repositories_Ok_inv base max_depth found :
  scan_for_repositories base max_depth = Ok found →
  (Path_exists base = Ok false ∧ found = []) ∨
  ∃ b, Path_exists base = Ok true ∧ Path_resolve base = Ok b ∧
       (∀ (k : nat) p, reaches b k p → Z.of_nat k ≤ max_depth → undisturbed p) ∧
       ∀ p, p ∈ found ↔
            ∃ k : nat, Z.of_nat k ≤ max_depth ∧ reaches b k p ∧
                       is_git_repository p = Ok true.
Proof.
  unfold scan_for_repositories. intros Hfound.
  destruct (Path_exists base) as [[]| |] eqn:Hex.
  - destruct (Path_resolve base) as [b| |] eqn:Hres.
    + right. exists b.
      rewrite (scan_for_repositories_M_resolved base max_depth b Hex Hres) in Hfound.
      destruct (_scan max_depth _ b 0 scan_start) as [[[]| |] st] eqn:Hscan; try done.
      cbn in Hfound. injection Hfound as <-.
      assert (∀ (k : nat) p, reaches b k p → Z.of_nat k ≤ max_depth → undisturbed p)
        as Hcalm.
      { intros k p Hreach Hk.
        apply (_scan_Ok_undisturbed _ _ _ _ _ _ Hscan k p Hreach). lia. }
      split_and!; [done..|].
      destruct (_scan_complete max_depth (Z.to_nat (max_depth + 1)) b 0 scan_start)
        as (st2 & Hscan2 & Hall); [lia|by intros; apply (Hcalm k); [|lia]|].
      rewrite Hscan in Hscan2. injection Hscan2 as <-.
      apply _scan_sound, scan_extends_start in Hscan as [Hwithin Hrepos].
      rewrite Forall_forall in Hwithin.
      intros p. rewrite Hrepos. split.
      * intros [(k & ? & ?)%Hwithin ?]. exists k. split_and!; [lia|done..].
      * intros (k & ? & ? & ?). split; [|done]. apply (Hall k); [done|lia].
    + revert Hfound. unfold scan_for_repositories_M. unfold_M. by rewrite Hex, Hres.
    + revert Hfound. unfold scan_for_repositories_M. unfold_M. by rewrite Hex, Hres.
  - left. revert Hfound. unfold scan_for_repositories_M. unfold_M. rewrite Hex. cbn.
    by intros [= <-].
  - revert Hfound. unfold scan_for_repositories_M. unfold_M. by rewrite Hex.
  - revert Hfound. unfold scan_for_repositories_M. unfold_M. by rewrite Hex.
Qed.

(** X11.  Every path [scan_for_repositories] returns is the resolved
    base directory followed by at most [max_depth] names, none of which
    starts with a dot. *)
Theorem scan_results_lie_below_resolved_base base max_depth found r :
  scan_for_repositories base max_depth = Ok found → r ∈ found →
  ∃ b names,
    Path_resolve base = Ok b ∧
    r = mkPath (root b) (tail b ++ names) ∧
    Z.of_nat (length names) ≤ max_depth ∧
    Forall (λ n, startswith n "." = false) names.
Proof.
  intros [[_ ->]|(b & _ & Hres & _ & Hfound)]%scan_for_repositories_Ok_inv Hr.
  - by apply elem_of_nil in Hr.
  - apply Hfound in Hr as (k & Hk & (names & -> & <- & Hvisible)%reaches_names & _).
    by exists b, names.
Qed.

(** X12.  Raising the depth bound loses nothing: when the scans of one
    base directory to two depths both return, every repository of the
    shallower scan is in the deeper one. *)
Theorem scan_deeper_finds_no_less base max_depth max_depth' found found' :
  max_depth ≤ max_depth' →
  scan_for_repositories base max_depth = Ok found →
  scan_for_repositories base max_depth' = Ok found' →
  found ⊆ found'.
Proof.
  intros Hle [[_ ->]|(b & Hex & Hres & _ & Hfound)]%scan_for_repositories_Ok_inv
    [[Hex' ->]|(b' & _ & Hres' & _ & Hfound')]%scan_for_repositories_Ok_inv r Hr;
    try by apply elem_of_nil in Hr.
  - congruence.
  - rewrite Hres in Hres'. injection Hres' as <-.
    apply Hfound in Hr as (k & Hk & Hreach & Hrepo).
    apply Hfound'. exists k. split_and!; [lia|done..].
Qed.

(** Two children of one directory have no path below both. *)
Lemma below_child_inj directory n n' v :
  tail (directory // n) `prefix_of` tail v →
  tail (directory // n') `prefix_of` tail v → n = n'.
Proof.
  intros [s Hs] [s' Hs']. cbn in Hs, Hs'. rewrite Hs, <- !app_assoc in Hs'.
  apply app_inv_head in Hs'. by injection Hs'.
Qed.

Lemma for_each_fresh directory (names : list string) (body : Path → M ScanState unit) :
  NoDup names →
  (∀ n st out st', n ∈ names → body (directory // n) st = (out, st') →
     ∃ vs rs, visited st' = visited st ++ vs ∧ repositories st' = repositories st ++ rs ∧
              rs `sublist_of` vs ∧ NoDup vs ∧
              Forall (λ v, tail (directory // n) `prefix_of` tail v) vs) →
  ∀ st out st', for_each (map (joinpath directory) names) body st = (out, st') →
     ∃ vs rs, visited st' = visited st ++ vs ∧ repositories st' = repositories st ++ rs ∧
              rs `sublist_of` vs ∧ NoDup vs ∧
              Forall (λ v, ∃ n, n ∈ names ∧ tail (directory // n) `prefix_of` tail v) vs.
Proof.
  induction 1 as [|n names Hn Hnd IH]; intros Hbody st out st'.
  - intros [= _ <-]. exists [], []. rewrite !app_nil_r. split_and!; try done.
    constructor.
  - cbn [map for_each]. unfold_M.
    destruct (body (directory // n) st) as [o1 s1] eqn:Hfirst.
    destruct (Hbody n st o1 s1 ltac:(by left) Hfirst)
      as (vs1 & rs1 & Hv1 & Hr1 & Hsub1 & Hnd1 & Hzone1).
    assert (Forall (λ v, ∃ n0, n0 ∈ n :: names ∧
                         tail (directory // n0) `prefix_of` tail v) vs1) as Hzone1'.
    { eapply Forall_impl; [exact Hzone1|]. intros v Hv. exists n. split; [by left|done]. }
    destruct o1 as [[]|e|].
    + intros Hrest.
      destruct (IH (λ m s o s' Hm, Hbody m s o s' (list_elem_of_further _ _ _ Hm))
                  s1 out st' Hrest)
        as (vs2 & rs2 & Hv2 & Hr2 & Hsub2 & Hnd2 & Hzone2).
      exists (vs1 ++ vs2), (rs1 ++ rs2). split_and!.
      * by rewrite Hv2, Hv1, app_assoc.
      * by rewrite Hr2, Hr1, app_assoc.
      * by apply sublist_app.
      * apply NoDup_app. split_and!; [done| |done].
        intros v Hv1in Hv2in.
        rewrite Forall_forall in Hzone1. rewrite Forall_forall in Hzone2.
        destruct (Hzone2 v Hv2in) as (m & Hm & Hbelow).
        pose proof (below_child_inj _ _ _ _ (Hzone1 v Hv1in) Hbelow). by subst.
      * apply Forall_app. split; [done|].
        eapply Forall_impl; [exact Hzone2|]. intros v (m & Hm & ?).
        exists m. split; [by right|done].
    + intros [= _ <-]. by exists vs1, rs1.
    + intros [= _ <-]. by exists vs1, rs1.
Qed.

(** A scan visits no directory twice, provided no listing repeats a
    name; what it records is a sublist of what it visits. *)
Lemma _scan_fresh max_depth fuel :
  (∀ p names, os_listdir p = Ok names → NoDup names) →
  ∀ directory depth st out st',
    _scan max_depth fuel directory depth st = (out, st') →
    ∃ vs rs, visited st' = visited st ++ vs ∧ repositories st' = repositories st ++ rs ∧
             rs `sublist_of` vs ∧ NoDup vs ∧
             Forall (λ v, tail directory `prefix_of` tail v) vs.
Proof.
  intros Hlistings.
  induction fuel as [|fuel IH]; intros directory depth st out st'; cbn [_scan];
    destruct (Z.gtb_spec depth max_depth) as [Hdeep|Hdepth];
    try (intros [= _ <-]; exists [], []; rewrite !app_nil_r;
         split_and!; [done|done|done|constructor|constructor]).
  unfold_M. cbn.
  assert (∃ vs rs, visited (note_visit directory st) = visited st ++ vs ∧
                   repositories (note_visit directory st) = repositories st ++ rs ∧
                   rs `sublist_of` vs ∧ NoDup vs ∧
                   Forall (λ v, tail directory `prefix_of` tail v) vs) as Hvisit.
  { exists [directory], []. rewrite app_nil_r. split_and!; try done.
    - apply sublist_nil_l.
    - apply NoDup_singleton.
    - by constructor. }
  destruct (is_git_repository directory) as [[]| |] eqn:Hgit;
    try (intros [= _ <-]; exact Hvisit).
  - intros [= _ <-]. exists [directory], [directory]. split_and!; try done.
    + apply NoDup_singleton.
    + by constructor.
  - unfold Path_iterdir. destruct (os_listdir directory) as [names| |] eqn:Hnames; cbn;
      try (intros [= _ <-]; exact Hvisit).
    intros Hloop.
    apply for_each_fresh in Hloop as (vs & rs & Hv & Hr & Hsub & Hnd & Hzone).
    + exists (directory :: vs), rs. cbn in Hv, Hr. split_and!.
      * by rewrite Hv, <- app_assoc.
      * done.
      * by apply sublist_cons.
      * apply NoDup_cons. split; [|done]. intros Hin.
        rewrite Forall_forall in Hzone. destruct (Hzone _ Hin) as (n & _ & Hbelow).
        apply prefix_length in Hbelow. cbn in Hbelow. rewrite length_app in Hbelow.
        cbn in Hbelow. lia.
      * constructor; [done|]. eapply Forall_impl; [exact Hzone|].
        intros v (n & _ & Hbelow). etrans; [|exact Hbelow]. cbn. by apply prefix_app_r.
    + by eapply Hlistings.
    + intros n s o s' Hn. rewrite name_joinpath. unfold_M.
      destruct (Path_is_dir (directory // n)) as [[]| |]; cbn;
        try (intros [= _ <-]; exists [], []; rewrite !app_nil_r;
             split_and!; [done|done|done|constructor|constructor]).
      destruct (startswith n "."); cbn;
        try (intros [= _ <-]; exists [], []; rewrite !app_nil_r;
             split_and!; [done|done|done|constructor|constructor]).
      apply IH.
Qed.

(** X13.  When no directory listing repeats a name, a scan visits no
    path twice, whatever its outcome, and the paths it returns are
    distinct and in the order of the visits.  This is about paths as
    the traversal spells them: through a link to an ancestor one
    directory is visited under several paths. *)
Theorem scan_visits_no_path_twice base max_depth :
  (∀ p names, os_listdir p = Ok names → NoDup names) →
  NoDup (scan_visited base max_depth) ∧
  ∀ found, scan_for_repositories base max_depth = Ok found →
           NoDup found ∧ found `sublist_of` scan_visited base max_depth.
Proof.
  intros Hlistings. unfold scan_visited, scan_for_repositories, scan_for_repositories_M.
  unfold_M.
  assert (NoDup (visited scan_start) ∧
          ∀ found, Ok (repositories scan_start) = Ok found →
                   NoDup found ∧ found `sublist_of` visited scan_start) as Hnone.
  { split; [constructor|]. intros found [= <-]. split; [constructor|done]. }
  destruct (Path_exists base) as [[]| |]; cbn; [|done|by split; [constructor|]..].
  destruct (Path_resolve base) as [b| |]; cbn; [|by split; [constructor|]..].
  destruct (_scan max_depth _ b 0 scan_start) as [out st] eqn:Hscan.
  destruct (_scan_fresh _ _ Hlistings _ _ _ _ _ Hscan)
    as (vs & rs & Hv & Hr & Hsub & Hnd & _).
  cbn in Hv, Hr. rewrite <- Hv in Hnd, Hsub. rewrite <- Hr in Hsub.
  destruct out as [[]|e|]; cbn; (split; [done|]); try done.
  intros found [= <-]. split; [|done]. by eapply sublist_NoDup.
Qed.

(** X14.  The scan of a base directory that does not exist, and the
    scan with a negative depth bound, return the empty list without
    visiting any directory. *)
Theorem scan_without_base_or_depth_finds_nothing base max_depth b :
  Path_exists base = Ok false ∨
  (Path_exists base = Ok true ∧ Path_resolve base = Ok b ∧ max_depth < 0) →
  scan_for_repositories base max_depth = Ok [] ∧ scan_visited base max_depth = [].
Proof.
  unfold scan_visited, scan_for_repositories, scan_for_repositories_M. unfold_M.
  intros [->|(-> & -> & Hneg)]; cbn; [done|].
  destruct (Z.to_nat (max_depth + 1)) eqn:Hfuel; [|lia]. cbn.
  destruct (Z.gtb_spec 0 max_depth); [done|lia].
Qed.
End ScannerMore.

(** ** The order of a list *)
Section Precedes.
Context {A : Type}.
Implicit Types (l k : list A) (x y : A).

Lemma precedes_elem_of l x y : precedes l x y → x ∈ l ∧ y ∈ l.
Proof. intros (l1 & l2 & l3 & ->). set_solver. Qed.

Lemma precedes_app_l l k x y : precedes l x y → precedes (l ++ k) x y.
Proof.
  intros (l1 & l2 & l3 & ->). exists l1, l2, (l3 ++ k).
  by rewrite <- ?app_assoc, <- ?app_comm_cons, <- ?app_assoc.
Qed.

Lemma precedes_app_r l k x y : precedes k x y → precedes (l ++ k) x y.
Proof.
  intros (l1 & l2 & l3 & ->). exists (l ++ l1), l2, l3. by rewrite <- !app_assoc.
Qed.

Lemma precedes_app l k x y : x ∈ l → y ∈ k → precedes (l ++ k) x y.
Proof.
  intros (l1 & l2 & ->)%list_elem_of_split (k1 & k2 & ->)%list_elem_of_split.
  exists l1, (l2 ++ k1), k2. by rewrite <- ?app_assoc, <- ?app_comm_cons, <- ?app_assoc.
Qed.

Lemma precedes_cons_inv a l x y :
  precedes (a :: l) x y → (a = x ∧ y ∈ l) ∨ precedes l x y.
Proof.
  intros ([|b l1] & l2 & l3 & Heq).
  - left. injection Heq as -> ->. split; [done|]. set_solver.
  - right. injection Heq as -> ->. by exists l1, l2, l3.
Qed.

Lemma precedes_sublist l k x y : l `sublist_of` k → precedes l x y → precedes k x y.
Proof.
  induction 1 as [|a l k Hsub IH|a l k Hsub IH]; intros Hxy.
  - by destruct Hxy as ([|??] & ? & ? & ?).
  - apply precedes_cons_inv in Hxy as [[-> Hy]|Hxy].
    + apply (precedes_app [x] k); [set_solver|]. by eapply elem_of_sublist.
    + apply (precedes_app_r [a]). by apply IH.
  - apply (precedes_app_r [a]). by apply IH.
Qed.

Lemma precedes_total l x y : x ∈ l → y ∈ l → x ≠ y → precedes l x y ∨ precedes l y x.
Proof.
  induction l as [|a l IH]; [by intros ?%elem_of_nil|].
  intros [Hxa|Hx]%elem_of_cons [Hya|Hy]%elem_of_cons Hne.
  - congruence.
  - left. subst a. apply (precedes_app [x] l); [set_solver|done].
  - right. subst a. apply (precedes_app [y] l); [set_solver|done].
  - destruct (IH Hx Hy Hne); [left|right]; by apply (precedes_app_r [a]).
Qed.

Lemma precedes_NoDup l x y : NoDup l → precedes l x y → x ≠ y ∧ ¬ precedes l y x.
Proof.
  induction 1 as [|a l Ha Hnd IH]; [by intros ([|??] & ? & ? & ?)|].
  intros [[-> Hy]|Hxy]%precedes_cons_inv.
  - split; [by intros ->|].
    intros [[-> _]|[_ Hx]%precedes_elem_of]%precedes_cons_inv; done.
  - destruct (IH Hxy) as [Hne Hasym]. split; [done|].
    intros [[-> _]|Hyx]%precedes_cons_inv; [|done].
    by apply precedes_elem_of in Hxy as [_ ?].
Qed.

Lemma precedes_sublist_inv l k x y :
  l `sublist_of` k → NoDup k → x ∈ l → y ∈ l → precedes k x y → precedes l x y.
Proof.
  intros Hsub Hnd Hx Hy Hxy. destruct (precedes_NoDup _ _ _ Hnd Hxy) as [Hne Hasym].
  destruct (precedes_total l x y Hx Hy Hne) as [?|Hyx]; [done|].
  destruct Hasym. by eapply precedes_sublist.
Qed.
End Precedes.

(** ** The order of a scan *)

Lemma under_refl p : under p p.
Proof. done. Qed.

Lemma under_trans p q r : under p q → under q r → under p r.
Proof. intros [Hr1 Ht1] [Hr2 Ht2]. split; [congruence|by etrans]. Qed.

Lemma under_joinpath p n : under p (p // n).
Proof. split; [done|]. by apply prefix_app_r. Qed.

Lemma under_child_inj d n n' v : under (d // n) v → under (d // n') v → n = n'.
Proof.
  intros [_ [s Hs]] [_ [s' Hs']]. cbn in Hs, Hs'. rewrite Hs, <- !app_assoc in Hs'.
  apply app_inv_head in Hs'. by injection Hs'.
Qed.

Lemma not_under_entry d p n : under d p → ¬ under (p // n) d.
Proof.
  intros [_ Hdp%prefix_length] [_ Hpd%prefix_length]. cbn in Hpd.
  rewrite length_app in Hpd. cbn in Hpd. lia.
Qed.

(** A path under [d] is [d] or lies under a child of [d]. *)
Lemma under_inv d p : under d p → p = d ∨ ∃ m, under (d // m) p.
Proof.
  intros [Hroot [[|m k] Hk]].
  - left. rewrite app_nil_r in Hk. destruct p, d; cbn in *; congruence.
  - right. exists m. split; [done|]. exists k. cbn. by rewrite Hk, <- app_assoc.
Qed.

(** Two paths under [d] that lie under different children of [p] show
    that [p] is under [d]. *)
Lemma under_common d p n1 n2 v1 v2 :
  under d v1 → under d v2 → under (p // n1) v1 → under (p // n2) v2 → n1 ≠ n2 →
  under d p.
Proof.
  intros [Hr1 Hd1] [Hr2 Hd2] [Hp1 Hc1] [Hp2 Hc2] Hne. split; [cbn in *; congruence|].
  cbn in Hc1, Hc2.
  destruct (prefix_weak_total _ _ _ Hd1 Hc1) as [[k Hk]|Hup].
  - destruct k as [|a k _] using rev_ind.
    + exfalso. rewrite app_nil_r in Hk. rewrite <- Hk in Hd2.
      destruct Hd2 as [s2 Hs2], Hc2 as [s2' Hs2']. rewrite Hs2, <- !app_assoc in Hs2'.
      apply app_inv_head in Hs2'. by injection Hs2'.
    + rewrite app_assoc in Hk. apply app_inj_tail in Hk as [-> _]. by apply prefix_app_r.
  - exfalso. assert (tail p ++ [n1] `prefix_of` tail v2) as Hc by by etrans.
    destruct Hc as [s2 Hs2], Hc2 as [s2' Hs2']. rewrite Hs2, <- !app_assoc in Hs2'.
    apply app_inv_head in Hs2'. by injection Hs2'.
Qed.

Section ScanOrder.
Context `{FileSystem}.
Hypothesis listings_distinct : ∀ p names, os_listdir p = Ok names → NoDup names.

Lemma for_each_ordered directory (names : list string)
    (body : Path → M ScanState unit) :
  NoDup names →
  (∀ n st out st', n ∈ names → body (directory // n) st = (out, st') →
     ∃ vs rs, visited st' = visited st ++ vs ∧ repositories st' = repositories st ++ rs ∧
              Forall (under (directory // n)) vs ∧ listing_ordered (directory // n) vs) →
  ∀ st out st', for_each (map (joinpath directory) names) body st = (out, st') →
     ∃ vs rs, visited st' = visited st ++ vs ∧ repositories st' = repositories st ++ rs ∧
              Forall (λ v, ∃ n, n ∈ names ∧ under (directory // n) v) vs ∧
              (∀ n1 n2 v1 v2, precedes names n1 n2 → v1 ∈ vs → v2 ∈ vs →
                 under (directory // n1) v1 → under (directory // n2) v2 →
                 precedes vs v1 v2) ∧
              (∀ n, n ∈ names → listing_ordered (directory // n) vs).
Proof.
  induction 1 as [|n names Hn Hnd IH]; intros Hbody st out st'.
  - intros [= _ <-]. exists [], []. rewrite !app_nil_r. split_and!; try done.
    + intros ???? _ ?%elem_of_nil. done.
    + intros ? ?%elem_of_nil. done.
  - cbn [map for_each]. unfold_M.
    destruct (body (directory // n) st) as [o1 s1] eqn:Hfirst.
    destruct (Hbody n st o1 s1 ltac:(by left) Hfirst)
      as (vs1 & rs1 & Hv1 & Hr1 & Hzone1 & Hord1).
    rewrite Forall_forall in Hzone1.
    assert (∀ vs2, Forall (λ v, ∃ m, m ∈ names ∧ under (directory // m) v) vs2 →
              Forall (λ v, ∃ m, m ∈ n :: names ∧ under (directory // m) v) (vs1 ++ vs2) ∧
              (∀ m v, v ∈ vs1 ++ vs2 → under (directory // m) v → m = n → v ∈ vs1) ∧
              (∀ m v, v ∈ vs1 ++ vs2 → under (directory // m) v → m ∈ names → v ∈ vs2))
      as Hsplit.
    { intros vs2 Hzone2. rewrite Forall_forall in Hzone2. split_and!.
      - apply Forall_app. split; apply Forall_forall.
        + intros v Hv. exists n. split; [by left|by apply Hzone1].
        + intros v Hv. destruct (Hzone2 v Hv) as (m & ? & ?). exists m. split; [by right|done].
      - intros m v [?|Hv]%elem_of_app Hunder ->; [done|].
        destruct (Hzone2 v Hv) as (m & Hm & Hunder').
        by rewrite (under_child_inj _ _ _ _ Hunder Hunder') in Hn.
      - intros m v [Hv|?]%elem_of_app Hunder Hm; [|done].
        rewrite (under_child_inj _ _ _ _ Hunder (Hzone1 v Hv)) in Hm. done. }
    assert (∀ vs2,
              Forall (λ v, ∃ m, m ∈ names ∧ under (directory // m) v) vs2 →
              (∀ n1 n2 v1 v2, precedes names n1 n2 → v1 ∈ vs2 → v2 ∈ vs2 →
                 under (directory // n1) v1 → under (directory // n2) v2 →
                 precedes vs2 v1 v2) →
              (∀ m, m ∈ names → listing_ordered (directory // m) vs2) →
              Forall (λ v, ∃ m, m ∈ n :: names ∧ under (directory // m) v) (vs1 ++ vs2) ∧
              (∀ n1 n2 v1 v2, precedes (n :: names) n1 n2 →
                 v1 ∈ vs1 ++ vs2 → v2 ∈ vs1 ++ vs2 →
                 under (directory // n1) v1 → under (directory // n2) v2 →
                 precedes (vs1 ++ vs2) v1 v2) ∧
              (∀ m, m ∈ n :: names → listing_ordered (directory // m) (vs1 ++ vs2))) as Hjoin.
    { intros vs2 Hzone2 Hcross2 Hinner2.
      destruct (Hsplit vs2 Hzone2) as (Hzone & Hfirst1 & Hrest).
      split_and!; [done| |].
      - intros n1 n2 v1 v2 [[<- Hn2]|Hprec]%precedes_cons_inv Hin1 Hin2 Hu1 Hu2.
        + apply precedes_app; [by eapply Hfirst1|by eapply Hrest].
        + apply precedes_elem_of in Hprec as Hboth. destruct Hboth as [Hn1 Hn2].
          apply precedes_app_r. apply (Hcross2 n1 n2); try done; by eapply Hrest.
      - intros m [->|Hm]%elem_of_cons p listing n1 n2 v1 v2 Hp Hlisting Hprec
          Hin1 Hin2 Hu1 Hu2.
        + apply precedes_app_l. apply (Hord1 p listing n1 n2); try done.
          * apply (Hfirst1 n v1); [done| |done].
            eapply under_trans; [exact Hp|]. eapply under_trans; [|exact Hu1].
            apply under_joinpath.
          * apply (Hfirst1 n v2); [done| |done].
            eapply under_trans; [exact Hp|]. eapply under_trans; [|exact Hu2].
            apply under_joinpath.
        + apply precedes_app_r. apply (Hinner2 m Hm p listing n1 n2); try done.
          * apply (Hrest m v1); [done| |done].
            eapply under_trans; [exact Hp|]. eapply under_trans; [|exact Hu1].
            apply under_joinpath.
          * apply (Hrest m v2); [done| |done].
            eapply under_trans; [exact Hp|]. eapply under_trans; [|exact Hu2].
            apply under_joinpath. }
    destruct o1 as [[]|e|].
    + intros Hloop.
      destruct (IH (λ m s o s' Hm, Hbody m s o s' (list_elem_of_further _ _ _ Hm))
                  s1 out st' Hloop)
        as (vs2 & rs2 & Hv2 & Hr2 & Hzone2 & Hcross2 & Hinner2).
      exists (vs1 ++ vs2), (rs1 ++ rs2).
      split; [by rewrite Hv2, Hv1, app_assoc|].
      split; [by rewrite Hr2, Hr1, app_assoc|]. by apply Hjoin.
    + intros [= _ <-]. exists vs1, rs1. split; [done|]. split; [done|].
      rewrite <- (app_nil_r vs1). apply Hjoin; [constructor|..].
      * by intros ???? _ ?%elem_of_nil.
      * by intros ?? ?????? _ _ _ ?%elem_of_nil.
    + intros [= _ <-]. exists vs1, rs1. split; [done|]. split; [done|].
      rewrite <- (app_nil_r vs1). apply Hjoin; [constructor|..].
      * by intros ???? _ ?%elem_of_nil.
      * by intros ?? ?????? _ _ _ ?%elem_of_nil.
Qed.

Lemma _scan_ordered max_depth fuel : ∀ directory depth st out st',
  _scan max_depth fuel directory depth st = (out, st') →
  ∃ vs rs, visited st' = visited st ++ vs ∧ repositories st' = repositories st ++ rs ∧
           Forall (under directory) vs ∧ listing_ordered directory vs.
Proof.
  assert (∀ d, listing_ordered d []) as Hnil.
  { by intros d ?????? _ _ _ ?%elem_of_nil. }
  assert (∀ d, listing_ordered d [d]) as Hone.
  { intros d p names n1 n2 v1 v2 Hp _ _ ->%list_elem_of_singleton _ Hu1 _.
    by destruct (not_under_entry d p n1). }
  induction fuel as [|fuel IH]; intros directory depth st out st'; cbn [_scan];
    destruct (Z.gtb_spec depth max_depth) as [Hdeep|Hdepth];
    try (intros [= _ <-]; exists [], []; rewrite !app_nil_r;
         split_and!; [done|done|constructor|apply Hnil]).
  unfold_M. cbn.
  assert (∃ vs rs, visited (note_visit directory st) = visited st ++ vs ∧
                   repositories (note_visit directory st) = repositories st ++ rs ∧
                   Forall (under directory) vs ∧ listing_ordered directory vs) as Hvisit.
  { exists [directory], []. rewrite app_nil_r. split_and!; [done|done| |apply Hone].
    constructor; [apply under_refl|constructor]. }
  destruct (is_git_repository directory) as [[]| |] eqn:Hgit;
    try (intros [= _ <-]; exact Hvisit).
  - intros [= _ <-]. exists [directory], [directory].
    split_and!; [done|done| |apply Hone].
    constructor; [apply under_refl|constructor].
  - unfold Path_iterdir. destruct (os_listdir directory) as [names| |] eqn:Hnames; cbn;
      try (intros [= _ <-]; exact Hvisit).
    intros Hloop.
    apply for_each_ordered in Hloop as (vs & rs & Hv & Hr & Hzone & Hcross & Hinner).
    + exists (directory :: vs), rs. cbn in Hv, Hr. rewrite Forall_forall in Hzone.
      split_and!.
      * by rewrite Hv, <- app_assoc.
      * done.
      * constructor; [apply under_refl|]. apply Forall_forall. intros v Hv'.
        destruct (Hzone v Hv') as (n & _ & Hunder).
        eapply under_trans; [apply under_joinpath|exact Hunder].
      * intros p listing n1 n2 v1 v2 Hp Hlisting Hprec Hin1 Hin2 Hu1 Hu2.
        assert (v1 ∈ vs) as Hv1.
        { apply elem_of_cons in Hin1 as [->|?]; [|done].
          by destruct (not_under_entry directory p n1). }
        assert (v2 ∈ vs) as Hv2.
        { apply elem_of_cons in Hin2 as [->|?]; [|done].
          by destruct (not_under_entry directory p n2). }
        apply (precedes_app_r [directory]).
        destruct (under_inv _ _ Hp) as [->|[m Hm]].
        -- rewrite Hnames in Hlisting. injection Hlisting as <-.
           by apply (Hcross n1 n2).
        -- assert (m ∈ names) as Hmin.
           { destruct (Hzone v1 Hv1) as (m' & Hm' & Hunder').
             assert (under (directory // m) v1) as Hunder.
             { eapply under_trans; [exact Hm|].
               eapply under_trans; [apply under_joinpath|exact Hu1]. }
             by rewrite (under_child_inj _ _ _ _ Hunder Hunder'). }
           by apply (Hinner m Hmin p listing n1 n2).
    + by eapply listings_distinct.
    + intros n s o s' Hn. rewrite name_joinpath. unfold_M.
      destruct (Path_is_dir (directory // n)) as [[]| |]; cbn;
        try (intros [= _ <-]; exists [], []; rewrite !app_nil_r;
             split_and!; [done|done|constructor|apply Hnil]).
      destruct (startswith n "."); cbn;
        try (intros [= _ <-]; exists [], []; rewrite !app_nil_r;
             split_and!; [done|done|constructor|apply Hnil]).
      apply IH.
Qed.

(** X15.  The repositories of a scan come in the order of the listings:
    of two results below different entries of one directory, the one
    below the entry that the directory lists first comes first.  No
    listing is assumed to repeat a name. *)
Theorem scan_results_follow_the_listings base max_depth found p names n1 n2 r1 r2 :
  scan_for_repositories base max_depth = Ok found →
  os_listdir p = Ok names → precedes names n1 n2 →
  r1 ∈ found → r2 ∈ found → under (p // n1) r1 → under (p // n2) r2 →
  precedes found r1 r2.
Proof.
  intros Hfound Hlisting Hprec Hr1 Hr2 Hu1 Hu2.
  destruct (scan_for_repositories_Ok_inv _ _ _ Hfound)
    as [[_ ->]|(b & Hex & Hres & _)]; [by apply elem_of_nil in Hr1|].
  unfold scan_for_repositories in Hfound.
  rewrite (scan_for_repositories_M_resolved base max_depth b Hex Hres) in Hfound.
  destruct (_scan max_depth _ b 0 scan_start) as [[[]| |] st] eqn:Hscan; try done.
  cbn in Hfound. injection Hfound as <-.
  destruct (_scan_fresh _ _ listings_distinct _ _ _ _ _ Hscan)
    as (vs & rs & Hv & Hr & Hsub & Hnd & _).
  destruct (_scan_ordered _ _ _ _ _ _ _ Hscan) as (vs' & rs' & Hv' & _ & Hunder & Hord).
  cbn in Hv, Hr, Hv'. rewrite Hv' in Hv. subst vs' rs.
  rewrite Forall_forall in Hunder.
  assert (r1 ∈ vs ∧ r2 ∈ vs) as [Hin1 Hin2] by (split; by eapply elem_of_sublist).
  assert (n1 ≠ n2) as Hne.
  { by destruct (precedes_NoDup _ _ _ (listings_distinct _ _ Hlisting) Hprec). }
  assert (under b p) as Hp.
  { apply (under_common b p n1 n2 r1 r2); auto. }
  apply (precedes_sublist_inv _ vs); try done.
  by apply (Hord p names n1 n2).
Qed.
End ScanOrder.

(** ** The configuration file *)
Section ConfigFacts.
Variable int_of_str : string → option Z.

Lemma from_dict_to_dict config : from_dict int_of_str (to_dict config) = Ok config.
Proof. by destruct config. Qed.

(** The keys [from_dict] looks up. *)
Lemma from_dict_ext data data' :
  (∀ key, key ∈ ["base_directory"; "auto_fetch_interval"; "default_theme";
                 "last_active_repo"; "git_user_name"; "git_user_email";
                 "preferences"] → data !! key = data' !! key) →
  from_dict int_of_str data = from_dict int_of_str data'.
Proof.
  intros Hagree. unfold from_dict, dict_get.
  rewrite !Hagree; [done|set_solver..].
Qed.

(** X17.  [from_dict] reads the seven keys of [AppConfig] and no other:
    keys it does not know change nothing, a document without any of the
    seven gives [AppConfig()], and [to_dict] followed by [from_dict] is
    the identity even with unknown keys added. *)
Theorem from_dict_reads_seven_keys data extra :
  (∀ key, key ∈ ["base_directory"; "auto_fetch_interval"; "default_theme";
                 "last_active_repo"; "git_user_name"; "git_user_email";
                 "preferences"] → extra !! key = None) →
  from_dict int_of_str (data ∪ extra) = from_dict int_of_str data ∧
  from_dict int_of_str extra = Ok (AppConfig_fields AppConfig_default) ∧
  ∀ config, from_dict int_of_str (to_dict config ∪ extra) = Ok config.
Proof.
  intros Hextra. split_and!.
  - apply from_dict_ext. intros key Hkey.
    destruct (data !! key) as [v|] eqn:Hdata.
    + by apply lookup_union_Some_l.
    + apply lookup_union_None. split; [done|by apply Hextra].
  - rewrite (from_dict_ext extra ∅); [done|].
    intros key Hkey. by rewrite Hextra, lookup_empty.
  - intros config. etrans; [|apply from_dict_to_dict].
    apply from_dict_ext. intros key Hkey.
    destruct (to_dict config !! key) as [v|] eqn:Hdata.
    + by apply lookup_union_Some_l.
    + apply lookup_union_None. split; [done|by apply Hextra].
Qed.


(** X19.  On a file that cannot be read or parsed, [load_config] returns
    [AppConfig()] and keeps the text: in [config.corrupted] when the
    rename works, which leaves no [config.json] behind, and in place
    when it fails.  Loading again gives [AppConfig()] and changes
    nothing more. *)
Theorem load_config_resets_a_rejected_file dir text :
  CONFIG_FILE dir = Some (Rejected text) →
  ∃ dir',
    load_config int_of_str dir = (Ok (AppConfig_fields AppConfig_default), dir') ∧
    (CONFIG_FILE dir' = Some (Rejected text) ∨
     (CONFIG_FILE dir' = None ∧ corrupted_path dir' = Some (Rejected text))) ∧
    (rename_fails dir = false → CONFIG_FILE dir' = None) ∧
    load_config int_of_str dir' = (Ok (AppConfig_fields AppConfig_default), dir').
Proof.
  intros Hfile. unfold load_config at 1. rewrite Hfile. unfold rename_config.
  destruct (rename_fails dir) eqn:Hrename.
  - exists dir. split_and!; [done|by left|done|].
    unfold load_config, rename_config. by rewrite Hfile, Hrename.
  - eexists. split_and!; [done|right; by rewrite Hfile|done|done].
Qed.
End ConfigFacts.

(** ** Computations that leave the object as it is *)

Lemma bind_M_state {S A B} (m : M S A) (k : A → M S B) s :
  (∀ a s', m s = (Ok a, s') → (k a s').2 = s') →
  ((m ≫= k) s).2 = (m s).2.
Proof.
  intros Hk. unfold_M. destruct (m s) as [[a|e|] s'] eqn:Hm; cbn; [|done..].
  by apply Hk.
Qed.

Lemma bind_M_keeps {S A B} (m : M S A) (k : A → M S B) s :
  (m s).2 = s → (∀ a, (k a s).2 = s) → ((m ≫= k) s).2 = s.
Proof.
  intros Hm Hk. rewrite bind_M_state; [done|].
  intros a s' Heq. rewrite Heq in Hm. cbn in Hm. subst s'. apply Hk.
Qed.

Lemma bind_M_Ok {S A B} (m : M S A) (k : A → M S B) s a s' :
  m s = (Ok a, s') → (m ≫= k) s = k a s'.
Proof. intros Hm. unfold_M. by rewrite Hm. Qed.

Lemma bind_M_Raise {S A B} (m : M S A) (k : A → M S B) s e s' :
  m s = (Raise e, s') → (m ≫= k) s = (Raise e, s').
Proof. intros Hm. unfold_M. by rewrite Hm. Qed.

(** ** The Git wrapper on any manager *)
Section GitManagerMore.
Context `{GitRemotes}.
Variable splitlines : string → list string.

(** The three lines every method starts with either fail, leaving the
    manager as it was, or give the repository the manager holds from
    then on. *)
Lemma loaded_repo_spec self :
  (∃ e, loaded_repo self = (Raise e, self) ∧ repo self = None) ∨
  (loaded_repo self = (Diverged, self) ∧ repo self = None) ∨
  ∃ r, loaded_repo self = (Ok r, mkGitManager (repo_path self) (Some r)) ∧
       (repo self = Some r ∨ (repo self = None ∧ Repo_new (repo_path self) = Ok r)).
Proof.
  unfold loaded_repo, load, try_except. unfold_M. destruct self as [path [r|]]; cbn.
  - do 2 right. exists r. split; [done|by left].
  - destruct (Repo_new path) as [r|e|] eqn:Hnew; cbn.
    + do 2 right. exists r. split; [done|by right].
    + left. destruct (decide (e = InvalidGitRepositoryError)); eauto.
    + right. by left.
Qed.

Lemma loaded_repo_Ok_inv self r s :
  loaded_repo self = (Ok r, s) → s = mkGitManager (repo_path self) (Some r).
Proof.
  destruct (loaded_repo_spec self) as [(e & -> & _)|[(-> & _)|(r' & -> & _)]]; congruence.
Qed.

Lemma loaded_repo_loaded path r :
  loaded_repo (mkGitManager path (Some r)) = (Ok r, mkGitManager path (Some r)).
Proof. done. Qed.

Lemma lift_M_keeps {A} (x : Exc A) (s : GitManager) : (lift_M x s).2 = s.
Proof. done. Qed.

Lemma current_branch_loaded path r :
  current_branch (mkGitManager path (Some r)) =
  (Repo_active_branch r, mkGitManager path (Some r)).
Proof.
  unfold current_branch, loaded_repo. unfold_M. cbn. by destruct (Repo_active_branch r).
Qed.

Lemma branch_or_current_keeps branch path r :
  (branch_or_current branch (mkGitManager path (Some r))).2 = mkGitManager path (Some r).
Proof.
  unfold branch_or_current.
  destruct branch as [b|]; [case_bool_decide|]; by rewrite ?current_branch_loaded.
Qed.

(** X20.  Every method of [GitManager] leaves the manager as the three
    lines it starts with leave it: unchanged when the repository is
    already loaded or cannot be opened, and holding what [Repo(repo_path)]
    returned otherwise.  [repo_path] never changes, and a repository once
    loaded is not opened again. *)
Theorem methods_change_the_manager_only_by_loading self remote_name branch :
  (is_dirty self).2 = (loaded_repo self).2 ∧
  (list_branches self).2 = (loaded_repo self).2 ∧
  (current_branch self).2 = (loaded_repo self).2 ∧
  (list_status splitlines self).2 = (loaded_repo self).2 ∧
  (pull remote_name branch self).2 = (loaded_repo self).2 ∧
  (fetch remote_name self).2 = (loaded_repo self).2 ∧
  (push remote_name branch self).2 = (loaded_repo self).2 ∧
  repo_path (loaded_repo self).2 = repo_path self ∧
  (is_Some (repo self) → (loaded_repo self).2 = self) ∧
  (repo (loaded_repo self).2 = repo self ∨
   Ok <$> repo (loaded_repo self).2 = Some (Repo_new (repo_path self))) ∧
  (loaded_repo (loaded_repo self).2).2 = (loaded_repo self).2.
Proof.
  split_and!.
  - apply bind_M_state. intros; apply lift_M_keeps.
  - apply bind_M_state. intros; apply lift_M_keeps.
  - apply bind_M_state. intros; apply lift_M_keeps.
  - apply bind_M_state. intros; apply lift_M_keeps.
  - apply bind_M_state. intros r s ->%loaded_repo_Ok_inv.
    apply bind_M_keeps; [done|]. intros remote.
    apply bind_M_keeps; [apply branch_or_current_keeps|]. intros b.
    apply bind_M_keeps; [done|]. done.
  - apply bind_M_state. intros r s ->%loaded_repo_Ok_inv.
    apply bind_M_keeps; [done|]. intros remote.
    apply bind_M_keeps; [done|]. done.
  - apply bind_M_state. intros r s ->%loaded_repo_Ok_inv.
    apply bind_M_keeps; [apply branch_or_current_keeps|]. intros b.
    apply bind_M_keeps; [done|]. intros remote.
    apply bind_M_keeps; [done|]. done.
  - by destruct (loaded_repo_spec self) as [(e & -> & _)|[(-> & _)|(r' & -> & _)]].
  - intros [r Hr].
    destruct (loaded_repo_spec self)
      as [(e & _ & ?)|[(_ & ?)|(r' & -> & [Hsome|[? _]])]]; try congruence.
    destruct self; cbn in *. congruence.
  - destruct (loaded_repo_spec self)
      as [(e & -> & _)|[(-> & _)|(r' & -> & [Hsome|[_ Hnew]])]]; cbn; auto.
    right. by rewrite Hnew.
  - destruct (loaded_repo_spec self) as [(e & Hl & _)|[(Hl & _)|(r' & Hl & _)]];
      rewrite !Hl; cbn; by rewrite ?Hl.
Qed.

(** X21.  In [pull] and [push], an omitted branch and an empty branch
    name both stand for the current branch: the call equals the call
    with the current branch's name, in its result and in the manager it
    leaves. *)
Theorem omitted_branch_means_current_branch self remote_name b :
  (current_branch self).1 = Ok b →
  pull remote_name None self = pull remote_name (Some b) self ∧
  pull remote_name (Some "") self = pull remote_name (Some b) self ∧
  push remote_name None self = push remote_name (Some b) self ∧
  push remote_name (Some "") self = push remote_name (Some b) self.
Proof.
  unfold current_branch at 1. intros Hcurrent.
  destruct (loaded_repo_spec self)
    as [(e & Hload & _)|[(Hload & _)|(r & Hload & _)]];
    try (revert Hcurrent; unfold_M; by rewrite Hload).
  assert (Repo_active_branch r = Ok b) as Hactive.
  { revert Hcurrent. unfold_M. rewrite Hload. cbn. by destruct (Repo_active_branch r). }
  assert (∀ branch, branch = None ∨ branch = Some "" ∨ branch = Some b →
            branch_or_current branch (mkGitManager (repo_path self) (Some r)) =
            (Ok b, mkGitManager (repo_path self) (Some r))) as Hbranch.
  { intros branch [-> | [-> | ->]]; unfold branch_or_current.
    - by rewrite current_branch_loaded, Hactive.
    - by rewrite current_branch_loaded, Hactive.
    - case_bool_decide; [|done]. by rewrite current_branch_loaded, Hactive. }
  pose proof (Hbranch None ltac:(auto)) as Hnone.
  pose proof (Hbranch (Some "") ltac:(auto)) as Hempty.
  pose proof (Hbranch (Some b) ltac:(auto)) as Hgiven.
  unfold pull, push. rewrite !(bind_M_Ok _ _ _ _ _ Hload).
  rewrite (bind_M_Ok _ _ _ _ _ Hnone), (bind_M_Ok _ _ _ _ _ Hempty),
    (bind_M_Ok _ _ _ _ _ Hgiven).
  destruct (Repo_remote r remote_name) as [remote|e|] eqn:Hremote; [|done..].
  rewrite !(bind_M_Ok (lift_M (Ok remote)) _ _ remote _ eq_refl).
  by rewrite (bind_M_Ok _ _ _ _ _ Hnone), (bind_M_Ok _ _ _ _ _ Hempty),
    (bind_M_Ok _ _ _ _ _ Hgiven).
Qed.
End GitManagerMore.

(** ** Logging *)

(** The loop of [configure_logging] over a copy of the handlers removes
    every one of them. *)
Lemma remove_existing_handlers lv l :
  for_each l (λ existing_handler, modify_M (removeHandler existing_handler))
    (mkLogger lv l) = (Ok tt, mkLogger lv []).
Proof.
  induction l as [|h l IH]; [done|].
  cbn [for_each]. unfold_M. unfold removeHandler, has_handler. cbn.
  rewrite bool_decide_true by (by left). rewrite decide_True by done. apply IH.
Qed.

(** X22.  Whatever handlers the root logger had, [configure_logging]
    leaves it with the given level and exactly one handler, the given or
    the new file handler with the format of GitBoss.  When the log
    directory cannot be made nothing is changed; when the file handler
    cannot be made the logger is left with the level set and no handler
    at all. *)
Theorem configure_logging_leaves_one_handler mkdir file_handler lv handler root_logger :
  configure_logging mkdir file_handler lv handler root_logger =
  match mkdir with
  | Ok _ =>
      match (if handler is Some h then Ok h else file_handler) with
      | Ok h => (Ok tt, mkLogger lv [setFormatter log_format h])
      | Raise e => (Raise e, mkLogger lv [])
      | Diverged => (Diverged, mkLogger lv [])
      end
  | Raise e => (Raise e, root_logger)
  | Diverged => (Diverged, root_logger)
  end.
Proof.
  unfold configure_logging, _ensure_log_directory. unfold_M.
  destruct mkdir as [[]|e|]; [|done..].
  unfold setLevel. cbn [handlers]. rewrite remove_existing_handlers.
  destruct handler as [h|]; cbn; [done|]. by destruct file_handler.
Qed.

(** ** Trees without repeated names *)
Section TreeNames.
Import TreeFS.

Lemma descend_distinct_names comps : ∀ nd nd',
  distinct_names nd = true → descend nd comps = Some nd' → distinct_names nd' = true.
Proof.
  induction comps as [|c comps IH]; intros nd nd' Hnd; cbn; [by intros [= <-]|].
  destruct nd as [|readable entries|]; try done.
  destruct (find_entry c entries) as [child|] eqn:Hchild; [|done].
  apply IH. cbn in Hnd. apply andb_true_iff in Hnd as [_ Hall].
  rewrite forallb_forall in Hall.
  apply find_entry_elem_of, list_elem_of_In in Hchild. apply (Hall _ Hchild).
Qed.

Lemma tree_listings_distinct disk cwd p names :
  distinct_names disk = true →
  @os_listdir (fs disk cwd) p = Ok names → NoDup names.
Proof.
  intros Hdisk. cbn. unfold listdir, stat.
  destruct (descend disk _) as [nd|] eqn:Hdesc; [|done].
  apply descend_distinct_names in Hdesc; [|done].
  destruct nd as [|[] entries|]; try done. intros [= <-].
  cbn in Hdesc. apply andb_true_iff in Hdesc as [Hnd _].
  by apply bool_decide_eq_true in Hnd.
Qed.
End TreeNames.

(** ** The GitHub wrapper *)
Section GitHubManagerFacts.
Context `{GithubCapability}.

(** The two outcomes of [authenticate]. *)
Lemma authenticate_spec given self :
  (authenticate given self = (Raise ValueError, self) ∧
   (given = None ∨ given = Some "") ∧ (token self = None ∨ token self = Some "")) ∨
  ∃ t, t ≠ "" ∧ str_or given (token self) = Some t ∧
       authenticate given self =
       (Ok tt, mkGitHubManager (Some t) (Some (Github_new t))).
Proof.
  unfold authenticate, str_or. destruct self as [stored c]. cbn.
  destruct given as [g|], stored as [s|]; cbn; repeat case_decide; subst; cbn;
    try (left; by auto); right; eexists; split_and!; done.
Qed.

(** X23.  After any calls of [authenticate] on a new [GitHubManager],
    the client, when there is one, is the one made from the stored
    token, which is not empty, and [list_repositories] returns what
    GitHub answers; as long as there is none, every query raises
    [RuntimeError]. *)
Theorem client_is_made_from_the_stored_token token0 self :
  rtc authenticate_step (GitHubManager_init token0) self →
  match client self with
  | None =>
      list_repositories self = Raise RuntimeError ∧
      ∀ repository run_id,
        _get_repository repository self = Raise RuntimeError ∧
        rerun_workflow repository run_id self = Raise RuntimeError ∧
        cancel_workflow repository run_id self = Raise RuntimeError ∧
        get_workflow_logs_url repository run_id self = Raise RuntimeError
  | Some c =>
      ∃ t, token self = Some t ∧ t ≠ "" ∧ c = Github_new t ∧
           list_repositories self = Github_repos c
  end.
Proof.
  revert self. apply rtc_ind_r; [done|].
  intros self self' _ Hstep IH. destruct Hstep as [given self].
  destruct (authenticate_spec given self) as [[-> _]|(t & Ht & _ & ->)]; [done|].
  cbn. by exists t.
Qed.

(** X24.  [authenticate] either succeeds or raises [ValueError] and
    leaves the manager as it was.  When it succeeds the token it stored
    is the given one, or the one stored before when none or an empty one
    was given, and a further call without a token succeeds and changes
    nothing. *)
Theorem authenticate_keeps_the_token given self :
  ((authenticate given self).1 = Ok tt ∨
   authenticate given self = (Raise ValueError, self)) ∧
  ((authenticate given self).1 = Ok tt →
   token (authenticate given self).2 = str_or given (token self) ∧
   authenticate None (authenticate given self).2 = (Ok tt, (authenticate given self).2) ∧
   authenticate (Some "") (authenticate given self).2 =
   (Ok tt, (authenticate given self).2)).
Proof.
  destruct (authenticate_spec given self) as [[-> _]|(t & Ht & Hor & ->)].
  - split; [by right|done].
  - split; [by left|]. intros _. cbn. split; [by rewrite Hor|].
    unfold authenticate, str_or. cbn. by repeat case_decide.
Qed.
End GitHubManagerFacts.

Import MoreExamples.

(** ** The added properties on the examples *)

(** Removing [/srv/.dotfiles], the second item of the example window. *)
Lemma remove_repo_drops_first_occurrence_witness :
  Forall parsed (repos window) ∧
  "/srv/.dotfiles" ∈ populate (repos window) ∧
  ∃ p before after,
    "/srv/.dotfiles" = Path_str p ∧ repos window = before ++ p :: after ∧ (p ∉ before) ∧
    _on_remove_repo (Some "/srv/.dotfiles") window =
    (Ok tt, _persist_repositories (mkMainWindow (config window) (before ++ after))).
Proof.
  assert (Forall parsed (repos window)) as Hparsed.
  { apply Forall_cons_2; [apply Path_of_str_parsed|].
    apply Forall_cons_2; [apply Path_of_str_parsed|apply Forall_nil_2]. }
  assert ("/srv/.dotfiles" ∈ populate (repos window)) as Hitem.
  { apply (bool_decide_unpack _). vm_compute. exact I. }
  split; [exact Hparsed|]. split; [exact Hitem|].
  exact (remove_repo_drops_first_occurrence window "/srv/.dotfiles" Hparsed Hitem).
Defined.

Example remove_example :
  repos (_on_remove_repo (Some "/srv/.dotfiles") window).2 = [repo_a].
Proof. reflexivity. Qed.

(** Adding [/srv/base/x/b] to the example window and removing it again. *)
Lemma add_then_remove_restores_list_witness :
  "/srv/base/x/b" ≠ "" ∧
  (Path_of_str "/srv/base/x/b" ∉ repos window) ∧
  _on_remove_repo (Some (Path_str (Path_of_str "/srv/base/x/b")))
    (_on_add_repo "/srv/base/x/b" window) =
  (Ok tt, _persist_repositories window).
Proof.
  assert ("/srv/base/x/b" ≠ "") as Hdir by done.
  assert (Path_of_str "/srv/base/x/b" ∉ repos window) as Hnew.
  { apply (bool_decide_unpack _). vm_compute. exact I. }
  split; [exact Hdir|]. split; [exact Hnew|].
  exact (add_then_remove_restores_list "/srv/base/x/b" window Hdir Hnew).
Defined.

(** An addition followed by a rescan, on the tidy disk. *)
Lemma window_list_stays_duplicate_free_witness :
  rtc (@window_step tidy) window
    (@_on_rescan_repositories tidy (_on_add_repo "/srv/base/x/b" window)).2 ∧
  NoDup (repos window) ∧
  NoDup (repos (@_on_rescan_repositories tidy (_on_add_repo "/srv/base/x/b" window)).2).
Proof.
  assert (rtc (@window_step tidy) window
            (@_on_rescan_repositories tidy (_on_add_repo "/srv/base/x/b" window)).2)
    as Hsteps.
  { eapply rtc_l; [apply (@step_add tidy)|]. apply rtc_once, (@step_rescan tidy). }
  assert (NoDup (repos window)) as Hnd.
  { apply (bool_decide_unpack _). vm_compute. exact I. }
  split; [exact Hsteps|]. split; [exact Hnd|].
  exact (@window_list_stays_duplicate_free tidy _ _ Hsteps Hnd).
Defined.

Example rescan_after_add_example :
  repos (@_on_rescan_repositories tidy (_on_add_repo "/srv/base/x/b" window)).2 =
  [repo_a; dotfiles; repo_b; repo_link].
Proof. reflexivity. Qed.

(** A removal followed by a rescan, on the tidy disk. *)
Lemma window_actions_touch_only_the_stored_list_witness :
  let self' := (@_on_rescan_repositories tidy
                  (_on_remove_repo (Some "/srv/base/a") window).2).2 in
  rtc (@window_step tidy) window self' ∧
  base_directory (config self') = base_directory (config window) ∧
  auto_fetch_interval (config self') = auto_fetch_interval (config window) ∧
  default_theme (config self') = default_theme (config window) ∧
  last_active_repo (config self') = last_active_repo (config window) ∧
  git_user_name (config self') = git_user_name (config window) ∧
  git_user_email (config self') = git_user_email (config window) ∧
  (∀ key, key ≠ "repositories" →
          preferences (config self') !! key = preferences (config window) !! key) ∧
  (persisted window → persisted self').
Proof.
  intros self'.
  assert (rtc (@window_step tidy) window self') as Hsteps.
  { eapply rtc_l; [apply (@step_remove tidy (Some "/srv/base/a"))|].
    apply rtc_once, (@step_rescan tidy). }
  split; [exact Hsteps|].
  exact (@window_actions_touch_only_the_stored_list tidy _ _ Hsteps).
Defined.

(** Start-up on the tidy disk, followed by an addition and a rescan. *)
Lemma list_is_duplicate_free_from_start_up_witness :
  let self' := (@_on_rescan_repositories tidy
                  (_on_add_repo "/srv/base/c/d/e"
                     (mkMainWindow (config window) [repo_a; dotfiles; repo_b; repo_sub]))).2 in
  base_directory (config window) ≠ "" ∧
  @_collect_repositories tidy (config window) = Ok [repo_a; dotfiles; repo_b; repo_sub] ∧
  rtc (@window_step tidy)
    (mkMainWindow (config window) [repo_a; dotfiles; repo_b; repo_sub]) self' ∧
  NoDup (repos self').
Proof.
  intros self'.
  assert (base_directory (config window) ≠ "") as Hbase by done.
  assert (@_collect_repositories tidy (config window) =
          Ok [repo_a; dotfiles; repo_b; repo_sub]) as Hcollect by reflexivity.
  assert (rtc (@window_step tidy)
            (mkMainWindow (config window) [repo_a; dotfiles; repo_b; repo_sub]) self')
    as Hsteps.
  { eapply rtc_l; [apply (@step_add tidy "/srv/base/c/d/e")|].
    apply rtc_once, (@step_rescan tidy). }
  split; [exact Hbase|]. split; [exact Hcollect|]. split; [exact Hsteps|].
  exact (@list_is_duplicate_free_from_start_up tidy _ _ self' Hbase Hcollect Hsteps).
Defined.

(** The rescan of the example window finds [/srv/base/a] again and two
    repositories that were not listed. *)
Lemma rescan_keeps_listed_and_appends_found_witness :
  base_directory (config window) ≠ "" ∧
  @scan_for_repositories tidy (Path_of_str (base_directory (config window)))
    default_max_depth = Ok [repo_a; repo_b; repo_link] ∧
  @_on_rescan_repositories tidy window =
  (Ok tt, _persist_repositories
            (mkMainWindow (config window)
               (first_occurrences (repos window) ++
                filter (λ q, q ∉ repos window)
                       (first_occurrences [repo_a; repo_b; repo_link])))).
Proof.
  assert (base_directory (config window) ≠ "") as Hbase by done.
  assert (@scan_for_repositories tidy (Path_of_str (base_directory (config window)))
            default_max_depth = Ok [repo_a; repo_b; repo_link]) as Hscan by reflexivity.
  split; [exact Hbase|]. split; [exact Hscan|].
  exact (@rescan_keeps_listed_and_appends_found tidy window _ Hbase Hscan).
Defined.

(** The example window holds what its configuration stores. *)
Lemma persisted_list_reads_back_witness :
  persisted window ∧ Forall parsed (repos window) ∧
  @_collect_repositories tidy (config window) =
  (if bool_decide (base_directory (config window) ≠ "") then
     scanned ← @scan_for_repositories tidy (Path_of_str (base_directory (config window)))
                 default_max_depth;
     @merge_repositories tidy (repos window) scanned
   else Ok (repos window)).
Proof.
  assert (persisted window) as Hstored by reflexivity.
  assert (Forall parsed (repos window)) as Hparsed.
  { apply Forall_cons_2; [apply Path_of_str_parsed|].
    apply Forall_cons_2; [apply Path_of_str_parsed|apply Forall_nil_2]. }
  split; [exact Hstored|]. split; [exact Hparsed|].
  exact (@persisted_list_reads_back tidy window Hstored Hparsed).
Defined.

Example read_back_example :
  @_collect_repositories tidy (config (_persist_repositories window)) =
  Ok [repo_a; dotfiles; repo_b; repo_sub].
Proof. reflexivity. Qed.

(** [/srv/base/x/b] in the scan of [/srv/base]. *)
Lemma scan_results_lie_below_resolved_base_witness :
  @scan_for_repositories tidy base 2 = Ok [repo_a; repo_b; repo_link] ∧
  repo_b ∈ [repo_a; repo_b; repo_link] ∧
  ∃ b names,
    @Path_resolve tidy base = Ok b ∧
    repo_b = mkPath (root b) (tail b ++ names) ∧
    Z.of_nat (length names) ≤ 2 ∧
    Forall (λ n, startswith n "." = false) names.
Proof.
  assert (@scan_for_repositories tidy base 2 = Ok [repo_a; repo_b; repo_link])
    as Hscan by reflexivity.
  assert (repo_b ∈ [repo_a; repo_b; repo_link]) as Hin.
  { apply (bool_decide_unpack _). vm_compute. exact I. }
  split; [exact Hscan|]. split; [exact Hin|].
  exact (@scan_results_lie_below_resolved_base tidy base 2 _ repo_b Hscan Hin).
Defined.

(** The scans of [/srv/base] to depth 1 and to depth 2. *)
Lemma scan_deeper_finds_no_less_witness :
  1 ≤ 2 ∧
  @scan_for_repositories tidy base 1 = Ok [repo_a; repo_link] ∧
  @scan_for_repositories tidy base 2 = Ok [repo_a; repo_b; repo_link] ∧
  [repo_a; repo_link] ⊆ [repo_a; repo_b; repo_link].
Proof.
  assert (1 ≤ 2) as Hle by lia.
  assert (@scan_for_repositories tidy base 1 = Ok [repo_a; repo_link]) as Hone
    by reflexivity.
  assert (@scan_for_repositories tidy base 2 = Ok [repo_a; repo_b; repo_link]) as Htwo
    by reflexivity.
  split; [exact Hle|]. split; [exact Hone|]. split; [exact Htwo|].
  exact (@scan_deeper_finds_no_less tidy base 1 2 _ _ Hle Hone Htwo).
Defined.

(** No directory of the tidy disk lists a name twice. *)
Lemma scan_visits_no_path_twice_witness :
  (∀ p names, @os_listdir tidy p = Ok names → NoDup names) ∧
  NoDup (@scan_visited tidy base 2) ∧
  ∀ found, @scan_for_repositories tidy base 2 = Ok found →
           NoDup found ∧ found `sublist_of` @scan_visited tidy base 2.
Proof.
  assert (∀ p names, @os_listdir tidy p = Ok names → NoDup names) as Hlistings.
  { intros p names. by apply tree_listings_distinct. }
  split; [exact Hlistings|].
  exact (@scan_visits_no_path_twice tidy base 2 Hlistings).
Defined.

(** [/srv/base] lists [a] before [x], so the repository [a] comes before
    the repository [x/b]. *)
Lemma scan_results_follow_the_listings_witness :
  (∀ p names, @os_listdir tidy p = Ok names → NoDup names) ∧
  @scan_for_repositories tidy base 2 = Ok [repo_a; repo_b; repo_link] ∧
  @os_listdir tidy base = Ok ["a"; "x"; "c"; ".hidden"; ".stash"; "link"; "README"] ∧
  precedes ["a"; "x"; "c"; ".hidden"; ".stash"; "link"; "README"] "a" "x" ∧
  repo_a ∈ [repo_a; repo_b; repo_link] ∧
  repo_b ∈ [repo_a; repo_b; repo_link] ∧
  under (base // "a") repo_a ∧
  under (base // "x") repo_b ∧
  precedes [repo_a; repo_b; repo_link] repo_a repo_b.
Proof.
  assert (∀ p names, @os_listdir tidy p = Ok names → NoDup names) as Hlistings.
  { intros p names. by apply tree_listings_distinct. }
  assert (@scan_for_repositories tidy base 2 = Ok [repo_a; repo_b; repo_link])
    as Hscan by reflexivity.
  assert (@os_listdir tidy base = Ok ["a"; "x"; "c"; ".hidden"; ".stash"; "link"; "README"])
    as Hlisting by reflexivity.
  assert (precedes ["a"; "x"; "c"; ".hidden"; ".stash"; "link"; "README"] "a" "x")
    as Hprec by (by exists [], [], ["c"; ".hidden"; ".stash"; "link"; "README"]).
  assert (repo_a ∈ [repo_a; repo_b; repo_link]) as Ha.
  { apply (bool_decide_unpack _). vm_compute. exact I. }
  assert (repo_b ∈ [repo_a; repo_b; repo_link]) as Hb.
  { apply (bool_decide_unpack _). vm_compute. exact I. }
  assert (under (base // "a") repo_a) as Hua by (split; [done|by exists []]).
  assert (under (base // "x") repo_b) as Hub by (split; [done|by exists ["b"]]).
  split_and!; try done.
  exact (@scan_results_follow_the_listings tidy Hlistings base 2 _ base _ "a" "x"
           repo_a repo_b Hscan Hlisting Hprec Ha Hb Hua Hub).
Defined.

(** Through a link to an ancestor, one directory is visited under two
    paths and one repository returned twice. *)
Example scan_through_link_to_ancestor :
  (∀ p names, @os_listdir looped p = Ok names → NoDup names) ∧
  @scan_for_repositories looped base 2 = Ok [repo_a; Path_of_str "/srv/base/again/a"] ∧
  @scan_visited looped base 2 =
  [base; repo_a; Path_of_str "/srv/base/again"; Path_of_str "/srv/base/again/a";
   Path_of_str "/srv/base/again/again"] ∧
  @Path_resolve looped (Path_of_str "/srv/base/again") = Ok base ∧
  @Path_resolve looped (Path_of_str "/srv/base/again/a") = Ok repo_a ∧
  @Path_resolve looped repo_a = Ok repo_a.
Proof.
  split; [|repeat split; reflexivity].
  intros p names. by apply tree_listings_distinct.
Qed.

(** [/gone] does not exist on the tidy disk. *)
Lemma scan_without_base_or_depth_finds_nothing_witness :
  (@Path_exists tidy gone = Ok false ∨
   (@Path_exists tidy gone = Ok true ∧ @Path_resolve tidy gone = Ok gone ∧ 2 < 0)) ∧
  @scan_for_repositories tidy gone 2 = Ok [] ∧ @scan_visited tidy gone 2 = [].
Proof.
  assert (@Path_exists tidy gone = Ok false ∨
          (@Path_exists tidy gone = Ok true ∧ @Path_resolve tidy gone = Ok gone ∧ 2 < 0))
    as Hmissing by (left; reflexivity).
  split; [exact Hmissing|].
  exact (@scan_without_base_or_depth_finds_nothing tidy gone 2 gone Hmissing).
Defined.

Example scan_negative_depth_example :
  @scan_for_repositories tidy base (-1) = Ok [] ∧ @scan_visited tidy base (-1) = [].
Proof. done. Qed.

(** A document with a key that [AppConfig] does not have. *)
Lemma from_dict_reads_seven_keys_witness :
  let data : gmap string pyval :=
    {["base_directory" := PyStr "/srv/base"; "auto_fetch_interval" := PyInt 5]} in
  let extra : gmap string pyval := {["window_size" := PyList [PyInt 1200; PyInt 800]]} in
  (∀ key, key ∈ ["base_directory"; "auto_fetch_interval"; "default_theme";
                 "last_active_repo"; "git_user_name"; "git_user_email";
                 "preferences"] → extra !! key = None) ∧
  from_dict no_int_of_str (data ∪ extra) = from_dict no_int_of_str data ∧
  from_dict no_int_of_str extra = Ok (AppConfig_fields AppConfig_default) ∧
  ∀ config, from_dict no_int_of_str (to_dict config ∪ extra) = Ok config.
Proof.
  intros data extra.
  assert (∀ key, key ∈ ["base_directory"; "auto_fetch_interval"; "default_theme";
                        "last_active_repo"; "git_user_name"; "git_user_email";
                        "preferences"] → extra !! key = None) as Hextra.
  { intros key Hkey. repeat (apply elem_of_cons in Hkey as [->|Hkey]; [reflexivity|]).
    by apply elem_of_nil in Hkey. }
  split; [exact Hextra|].
  exact (from_dict_reads_seven_keys no_int_of_str data extra Hextra).
Defined.

(** The test of the repository: a file holding [{not-json]. *)
Lemma load_config_resets_a_rejected_file_witness :
  CONFIG_FILE broken_dir = Some (Rejected "{not-json") ∧
  ∃ dir',
    load_config no_int_of_str broken_dir = (Ok (AppConfig_fields AppConfig_default), dir') ∧
    (CONFIG_FILE dir' = Some (Rejected "{not-json") ∨
     (CONFIG_FILE dir' = None ∧ corrupted_path dir' = Some (Rejected "{not-json"))) ∧
    (rename_fails broken_dir = false → CONFIG_FILE dir' = None) ∧
    load_config no_int_of_str dir' = (Ok (AppConfig_fields AppConfig_default), dir').
Proof.
  split; [reflexivity|].
  exact (load_config_resets_a_rejected_file no_int_of_str broken_dir "{not-json" eq_refl).
Defined.

Example to_dict_from_dict_example :
  let config := mkAppConfig "/tmp/example" 15 "dark" "" "" ""
                  {["repositories" := PyList [PyStr "/tmp/example/repo"]]} in
  from_dict no_int_of_str (to_dict (AppConfig_fields config)) =
  Ok (AppConfig_fields config) ∧
  AppConfig_typed (AppConfig_fields config) = Some config.
Proof. split; reflexivity. Qed.

(** A manager for [/srv/base/a], which is on the branch [main]. *)
Lemma omitted_branch_means_current_branch_witness :
  let remotes := remotes_on tidy_disk (λ _, on_main) in
  let self := @GitManager_init (tidy_git on_main) repo_a in
  (@current_branch (tidy_git on_main) self).1 = Ok "main" ∧
  @pull _ remotes "origin" None self = @pull _ remotes "origin" (Some "main") self ∧
  @pull _ remotes "origin" (Some "") self = @pull _ remotes "origin" (Some "main") self ∧
  @push _ remotes "origin" None self = @push _ remotes "origin" (Some "main") self ∧
  @push _ remotes "origin" (Some "") self = @push _ remotes "origin" (Some "main") self.
Proof.
  intros remotes self. split; [reflexivity|].
  exact (@omitted_branch_means_current_branch _ remotes self "origin" "main" eq_refl).
Defined.

Example pull_example :
  (@pull _ (remotes_on tidy_disk (λ _, on_main)) "origin" None
     (@GitManager_init (tidy_git on_main) repo_a)).1 = Ok "origin/main".
Proof. reflexivity. Qed.

Example configure_logging_example :
  configure_logging (Ok tt) (Raise OSError) 20 (Some (mkHandler 7 None)) busy_logger =
  (Ok tt, mkLogger 20 [mkHandler 7 (Some log_format)]) ∧
  configure_logging (Ok tt) (Raise OSError) 20 None busy_logger =
  (Raise OSError, mkLogger 20 []).
Proof. done. Qed.

(** A manager made without a token: a first call of [authenticate]
    without one fails, a second with a token succeeds. *)
Lemma client_is_made_from_the_stored_token_witness :
  let self := (@authenticate github_stub (Some "t0k3n")
                 (@authenticate github_stub None
                    (@GitHubManager_init github_stub None)).2).2 in
  rtc (@authenticate_step github_stub) (@GitHubManager_init github_stub None) self ∧
  match @client github_stub self with
  | None =>
      @list_repositories github_stub self = Raise RuntimeError ∧
      ∀ repository run_id,
        @_get_repository github_stub repository self = Raise RuntimeError ∧
        @rerun_workflow github_stub repository run_id self = Raise RuntimeError ∧
        @cancel_workflow github_stub repository run_id self = Raise RuntimeError ∧
        @get_workflow_logs_url github_stub repository run_id self = Raise RuntimeError
  | Some c =>
      ∃ t, @token github_stub self = Some t ∧ t ≠ "" ∧ c = @Github_new github_stub t ∧
           @list_repositories github_stub self = @Github_repos github_stub c
  end.
Proof.
  intros self.
  assert (rtc (@authenticate_step github_stub) (@GitHubManager_init github_stub None) self)
    as Hsteps.
  { eapply rtc_l; [apply (@step_authenticate github_stub None)|].
    apply rtc_once, (@step_authenticate github_stub (Some "t0k3n")). }
  split; [exact Hsteps|].
  exact (@client_is_made_from_the_stored_token github_stub None self Hsteps).
Defined.

Example list_repositories_example :
  @list_repositories github_stub (@GitHubManager_init github_stub (Some "t0k3n"))
  = Raise RuntimeError ∧
  @list_repositories github_stub
    (@authenticate github_stub None (@GitHubManager_init github_stub (Some "t0k3n"))).2
  = Ok ["octocat/t0k3n"].
Proof. done. Qed.
